(** * ATM10 quest browser: icon extractor and atlas builder

    A shallow embedding of [extract_icons.js] (archive reader, texture
    catalog, block-model resolver, manifest merge) and of [build_atlas.js]
    (icon lookup, atlas packer), with the properties the design document
    states about them.

    Conventions.
    - A Node [Buffer] is a [list Z] of byte values; [buf[i]] is a partial
      lookup ([undefined] out of range).
    - A plain JS object used as a dictionary with string keys is a
      [gmap string _]; where the enumeration order of the object matters
      ([Object.values], [Object.entries]) it is an association list in
      enumeration order.
    - The Node standard modules ([fs], [path], [zlib]) and the [sharp]
      image library are not part of the repository: they are section
      variables, and module [Sample] gives a small POSIX-like instance for
      running the model on concrete inputs. *)

From Stdlib Require Import Ascii QArith Qround.
From stdpp Require Import gmap strings list fin_maps.

Open Scope Z_scope.

(** ** JavaScript values that the scripts test for truthiness *)

Module Js.

(** [!!v] for a value that is either [undefined]/[null] or a string. *)
Definition truthy (v : option string) : bool :=
  match v with
  | Some s => negb (String.eqb s "")
  | None => false
  end.

(** [a || b] on such values. *)
Definition or_else (a b : option string) : option string :=
  if truthy a then a else b.

End Js.

(** ** Archive reader ([extract_icons.js], "ZIP parser") *)

Module Zip.

(** [buf[i]]: [undefined] outside [0 .. length-1]. *)
Definition at_ (buf : list Z) (i : Z) : option Z :=
  if i <? 0 then None else buf !! Z.to_nat i.

(** The operand conversion of [|] and [<<]: [undefined] becomes 0. *)
Definition to_int (v : option Z) : Z := default 0 v.

(** [function readUInt16LE(b, o) { return b[o] | (b[o+1] << 8); }] *)
Definition readUInt16LE (b : list Z) (o : Z) : Z :=
  Z.lor (to_int (at_ b o)) (Z.shiftl (to_int (at_ b (o + 1))) 8).

(** [buf[i]===0x50&&buf[i+1]===0x4b&&buf[i+2]===0x05&&buf[i+3]===0x06] *)
Definition is_eocd (buf : list Z) (i : Z) : bool :=
  bool_decide (at_ buf i = Some 0x50) && bool_decide (at_ buf (i + 1) = Some 0x4b)
  && bool_decide (at_ buf (i + 2) = Some 0x05) && bool_decide (at_ buf (i + 3) = Some 0x06).

(** The loop [for (let i = ...; i >= 0; i--)] with [k] iterations left,
    the next one at [i = k - 1]. *)
Fixpoint findEOCD_loop (buf : list Z) (k : nat) : Z :=
  match k with
  | O => -1
  | S i => if is_eocd buf (Z.of_nat i) then Z.of_nat i else findEOCD_loop buf i
  end.

(** [findEOCD]: [i] starts at [buf.length - 22]; no iteration when that
    is negative. *)
Definition findEOCD (buf : list Z) : Z :=
  findEOCD_loop buf (Z.to_nat (Z.of_nat (length buf) - 22 + 1)).

(** One element of the array [parseZip] returns. The numeric fields are
    unsigned 16- and 32-bit reads, hence natural numbers. *)
Record entry := Entry {
  name : string;
  compression : nat;
  compSize : nat;
  localOffset : nat;
}.

(** [buf.slice(start, end)] for [0 <= start <= end]: both ends are clamped
    to the buffer. *)
Definition slice (buf : list Z) (start stop : nat) : list Z :=
  take (stop - start)%nat (drop start buf).

Section Extract.

(** [zlib.inflateRawSync]; [None] stands for a thrown error. *)
Variable inflateRawSync : list Z → option (list Z).

(** [extractEntry]; [None] is the [null] result. *)
Definition extractEntry (buf : list Z) (e : entry) : option (list Z) :=
  let lh := localOffset e in
  if decide (length buf < lh + 30)%nat then None else
  let nameLen := Z.to_nat (readUInt16LE buf (Z.of_nat lh + 26)) in
  let extraLen := Z.to_nat (readUInt16LE buf (Z.of_nat lh + 28)) in
  let dataStart := (lh + 30 + nameLen + extraLen)%nat in
  let compressed := slice buf dataStart (dataStart + compSize e) in
  if decide (compression e = 0%nat) then Some compressed
  else if decide (compression e = 8%nat) then inflateRawSync compressed
  else None.

End Extract.

(** [(b[o] | (b[o+1]<<8) | (b[o+2]<<16) | (b[o+3]<<24)) >>> 0]: the
    operators work on 32-bit integers and [>>> 0] reads the result as
    unsigned, which is the reduction modulo [2^32]. *)
Definition readUInt32LE (b : list Z) (o : Z) : Z :=
  (Z.lor (Z.lor (Z.lor (to_int (at_ b o))
                       (Z.shiftl (to_int (at_ b (o + 1))) 8))
                (Z.shiftl (to_int (at_ b (o + 2))) 16))
         (Z.shiftl (to_int (at_ b (o + 3))) 24)) mod 2 ^ 32.

(** The negation of the [break] test of [parseZip]: the four bytes at
    [pos] are the central-directory record signature. *)
Definition is_cdh (buf : list Z) (pos : Z) : bool :=
  bool_decide (at_ buf pos = Some 0x50) && bool_decide (at_ buf (pos + 1) = Some 0x4b)
  && bool_decide (at_ buf (pos + 2) = Some 0x01) && bool_decide (at_ buf (pos + 3) = Some 0x02).

(** The elements of a [Buffer] are bytes. *)
Definition is_byte (b : Z) : Prop := 0 ≤ b < 256.

Section Parse.

(** [buf.toString('utf8', start, end)], as a function of the bytes between
    the two (clamped) offsets. *)
Variable toString : list Z → string.

(** The [while (pos + 46 <= buf.length)] loop. Every iteration moves [pos]
    forward by at least 46, so [fuel] only bounds the recursion. *)
Fixpoint parseZip_loop (fuel : nat) (buf : list Z) (pos : nat) : list entry :=
  if decide (pos + 46 ≤ length buf)%nat then
    match fuel with
    | O => []
    | S fuel' =>
        if negb (is_cdh buf (Z.of_nat pos)) then [] else
        let p := Z.of_nat pos in
        let compression := Z.to_nat (readUInt16LE buf (p + 10)) in
        let compSize := Z.to_nat (readUInt32LE buf (p + 20)) in
        let nameLen := Z.to_nat (readUInt16LE buf (p + 28)) in
        let extraLen := Z.to_nat (readUInt16LE buf (p + 30)) in
        let commentLen := Z.to_nat (readUInt16LE buf (p + 32)) in
        let localOffset := Z.to_nat (readUInt32LE buf (p + 42)) in
        let name := toString (slice buf (pos + 46) (pos + 46 + nameLen)) in
        Entry name compression compSize localOffset
          :: parseZip_loop fuel' buf (pos + 46 + nameLen + extraLen + commentLen)
    end
  else [].

(** [function parseZip(buf)] *)
Definition parseZip (buf : list Z) : list entry :=
  let eocd := findEOCD buf in
  if decide (eocd = -1) then [] else
  let cdOffset := Z.to_nat (readUInt32LE buf (eocd + 16)) in
  parseZip_loop (length buf) buf cdOffset.

End Parse.

End Zip.

(** ** String primitives of the scripts *)

Module Str.

(** [s.indexOf(c)] for a one-character [c]; [None] is [-1]. *)
Fixpoint index_of (c : ascii) (s : string) : option nat :=
  match s with
  | EmptyString => None
  | String a s' => if Ascii.eqb a c then Some 0%nat else S <$> index_of c s'
  end.

(** [s.slice(0, n)] and [s.slice(n)] for [0 <= n]. *)
Fixpoint take (n : nat) (s : string) : string :=
  match n, s with
  | S n', String a s' => String a (take n' s')
  | _, _ => EmptyString
  end.

Fixpoint drop (n : nat) (s : string) : string :=
  match n, s with
  | S n', String _ s' => drop n' s'
  | _, _ => s
  end.

(** [s.slice(0, -k)]: all but the last [k] characters. *)
Definition drop_last (k : nat) (s : string) : string :=
  take (String.length s - k) s.

(** [s.replace(/a/g, b)] for one-character [a] and [b]. *)
Fixpoint replace_char (a b : ascii) (s : string) : string :=
  match s with
  | EmptyString => EmptyString
  | String c s' => String (if Ascii.eqb c a then b else c) (replace_char a b s')
  end.

(** [s.replace(/a/g, t)] for a one-character [a] and any string [t]
    (used with [path.sep]). *)
Fixpoint replace_char_str (a : ascii) (t : string) (s : string) : string :=
  match s with
  | EmptyString => EmptyString
  | String c s' =>
      if Ascii.eqb c a then t +:+ replace_char_str a t s'
      else String c (replace_char_str a t s')
  end.

(** The text after the last occurrence of [c], when [c] occurs. *)
Fixpoint after_last (c : ascii) (s : string) : option string :=
  match s with
  | EmptyString => None
  | String a s' =>
      match after_last c s' with
      | Some r => Some r
      | None => if Ascii.eqb a c then Some s' else None
      end
  end.

(** [s.split('/').pop()] *)
Definition last_segment (s : string) : string :=
  default s (after_last "/"%char s).

(** [s.startsWith(p)] *)
Definition starts_with (p s : string) : bool := String.prefix p s.

(** [s.endsWith(p)] *)
Definition ends_with (p s : string) : bool :=
  bool_decide (String.length p ≤ String.length s)%nat
  && String.eqb (drop (String.length s - String.length p) s) p.

(** [s.replace(/\.png$/, '')]: [$] is the end of the input (no [m] flag). *)
Definition strip_png (s : string) : string :=
  if ends_with ".png" s then drop_last 4 s else s.

(** [s.includes(t)] *)
Fixpoint includes (t s : string) : bool :=
  String.prefix t s ||
  match s with
  | EmptyString => false
  | String _ s' => includes t s'
  end.

(** Line terminators, which [.] does not match. Strings are modelled with
    8-bit characters, so only LF and CR can occur. *)
Definition is_line_terminator (c : ascii) : bool :=
  Ascii.eqb c "010"%char || Ascii.eqb c "013"%char.

(** The longest match of [.*\/icons\/] starting at the head of [s]:
    returns what follows the match. *)
Fixpoint after_icons_in_line (s : string) : option string :=
  match s with
  | EmptyString => None
  | String c s' =>
      if is_line_terminator c then None
      else match after_icons_in_line s' with
           | Some r => Some r
           | None => if String.prefix "/icons/" s then Some (drop 7 s) else None
           end
  end.

(** No line terminator occurs in [s]. *)
Fixpoint single_line (s : string) : bool :=
  match s with
  | EmptyString => true
  | String c s' => negb (is_line_terminator c) && single_line s'
  end.

(** [s.replace(/.*\/icons\//, 'icons/')]: the leftmost match, greedy. *)
Fixpoint replace_icons_prefix (s : string) : string :=
  match after_icons_in_line s with
  | Some r => "icons/" +:+ r
  | None =>
      match s with
      | EmptyString => EmptyString
      | String c s' => String c (replace_icons_prefix s')
      end
  end.

End Str.

(** ** Block-model descriptors ([models/block/*.json]) *)

Module Model.

(** A JSON value as far as the scripts look at it: a string or not. *)
Inductive jsval :=
  | JStr (s : string)
  | JOther.

(** [tex[n]] on the own properties of the [textures] object, listed in
    enumeration order. *)
Fixpoint get (tex : list (string * jsval)) (n : string) : option jsval :=
  match tex with
  | [] => None
  | (k, v) :: rest => if String.eqb k n then Some v else get rest n
  end.

(** [v && typeof v === 'string' && !v.startsWith('#')] *)
Definition named_ref (v : option jsval) : option string :=
  match v with
  | Some (JStr s) =>
      if negb (String.eqb s "") && negb (Str.starts_with "#" s) then Some s else None
  | _ => None
  end.

(** The local closure [resolve(names)]. *)
Fixpoint resolve (tex : list (string * jsval)) (names : list string) : option string :=
  match names with
  | [] => None
  | n :: rest =>
      match named_ref (get tex n) with
      | Some v => Some v
      | None => resolve tex rest
      end
  end.

(** [Object.values(tex).find(v => typeof v === 'string' && !v.startsWith('#'))] *)
Fixpoint first_plain (tex : list (string * jsval)) : option string :=
  match tex with
  | [] => None
  | (_, JStr s) :: rest => if negb (Str.starts_with "#" s) then Some s else first_plain rest
  | (_, JOther) :: rest => first_plain rest
  end.

(** The value stored in [blockModels]. *)
Record faces := Faces { top : string; side : string; front : string }.

(** [a || first] where [first] is a string. *)
Definition or_str (a : option string) (first : string) : string :=
  match Js.or_else a (Some first) with
  | Some s => s
  | None => first
  end.

(** The body of the [try] block, from [const tex] to the assignment: [None]
    when nothing is recorded. *)
Definition parseFaces (topNames sideNames frontNames : list string)
    (tex : list (string * jsval)) : option faces :=
  let top := resolve tex topNames in
  let side := resolve tex sideNames in
  let front := resolve tex frontNames in
  let first := Js.or_else (Js.or_else (Js.or_else top side) front) (first_plain tex) in
  match first with
  | Some f =>
      if Js.truthy first
      then Some (Faces (or_str top f) (or_str side f) (or_str front f))
      else None
  | None => None
  end.

(** The role lists of the mod-jar loop. *)
Definition modFaces : list (string * jsval) → option faces :=
  parseFaces ["top"; "top_face"; "up"; "cap"; "end"; "all"]
             ["side"; "side_face"; "texture"; "all"; "wall"]
             ["front"; "face"; "front_face"; "south"; "north"; "side"].

(** The role lists of the vanilla-jar loop. *)
Definition vanillaFaces : list (string * jsval) → option faces :=
  parseFaces ["top"; "end"; "all"; "up"]
             ["side"; "texture"; "all"; "wall"]
             ["front"; "face"; "south"; "north"; "side"].

(** [blockModels[key]] on the entries in insertion order. *)
Fixpoint lookup (models : list (string * faces)) (key : string) : option faces :=
  match models with
  | [] => None
  | (k, f) :: rest => if String.eqb k key then Some f else lookup rest key
  end.

End Model.

(** ** Texture catalog ([main], scanning loops) *)

Module Catalog.

(** [if (!store[k]) store[k] = v;] *)
Definition put_if_absent (k v : string) (store : gmap string string) : gmap string string :=
  if Js.truthy (store !! k) then store else <[k := v]> store.

(** [category === 'item' || category === 'items'] *)
Definition is_item (category : string) : bool :=
  String.eqb category "item" || String.eqb category "items".

(** [`icons/${ns}/${category}/${subpath}`.replace(/\\/g, '/')] *)
Definition relUrl (ns category subpath : string) : string :=
  Str.replace_char "\"%char "/"%char
    ("icons/" +:+ ns +:+ "/" +:+ category +:+ "/" +:+ subpath).

(** [subpath.slice(0, -4).replace(/\//g, '_')] *)
Definition flatName (subpath : string) : string :=
  Str.replace_char "/"%char "_"%char (Str.drop_last 4 subpath).

(** The state of [main] while the archives are scanned. [FS] is the state
    of the output directory. *)
Record state (FS : Type) := State {
  files : FS;
  itemPaths : gmap string string;
  blockPaths : gmap string string;
  blockModels : list (string * Model.faces);
}.
Arguments State {FS}.
Arguments files {FS}.
Arguments itemPaths {FS}.
Arguments blockPaths {FS}.
Arguments blockModels {FS}.

(** [(category === 'item' || category === 'items') ? itemPaths : blockPaths] *)
Definition store_of {FS : Type} (category : string) (st : state FS) : gmap string string :=
  if is_item category then itemPaths st else blockPaths st.

(** Every path held by a store is a non-empty string. *)
Definition store_wf (store : gmap string string) : Prop :=
  ∀ k v, store !! k = Some v → v ≠ "".

(** Every path held by a store lies under [icons/] and uses [/] only. *)
Definition under_icons (store : gmap string string) : Prop :=
  ∀ k v, store !! k = Some v →
    Str.starts_with "icons/" v = true ∧ Str.index_of "\"%char v = None.

(** [store'] still holds every (non-empty) entry of [store]. *)
Definition keeps (store store' : gmap string string) : Prop :=
  ∀ k, Js.truthy (store !! k) = true → store' !! k = store !! k.

(** What one archive entry is to the scanning loop: the captures of the
    regular expression that matched its name and what [extractEntry]
    (and, for a descriptor, [JSON.parse] and [json.textures || {}]) made of
    its bytes; [None] is a [null] result or a caught exception. *)
Inductive scanned :=
  | Texture (ns category subpath : string) (data : option (list Z))
  | BlockModel (ns file : string) (tex : option (list (string * Model.jsval)))
  | Entity (ns subpath : string) (data : option (list Z))
  | Unmatched.

Section Scan.

Context {FS : Type}.
(** [fs.existsSync] and [fs.mkdirSync] followed by [fs.writeFileSync]. *)
Variable existsSync : FS → string → bool.
Variable writeFile : FS → string → list Z → FS.
(** [path.join] and [path.basename(p, ext)]. *)
Variable path_join : list string → string.
Variable path_basename : string → string → string.
Variable iconsDir : string.

(** The two guarded assignments that follow [const store = ...]. *)
Definition registerIn (ns category subpath : string)
    (store : gmap string string) : gmap string string :=
  let url := relUrl ns category subpath in
  let basename := path_basename subpath ".png" in
  let flat := flatName subpath in
  let store1 := put_if_absent (ns +:+ ":" +:+ basename) url store in
  if negb (String.eqb flat basename) && negb (Js.truthy (store1 !! (ns +:+ ":" +:+ flat)))
  then <[ns +:+ ":" +:+ flat := url]> store1
  else store1.

(** Registration of a matched texture in the store its category selects. *)
Definition register (ns category subpath : string) (st : state FS) : state FS :=
  if is_item category
  then State (files st) (registerIn ns category subpath (itemPaths st))
             (blockPaths st) (blockModels st)
  else State (files st) (itemPaths st)
             (registerIn ns category subpath (blockPaths st)) (blockModels st).

(** The branch [if (m) { ... continue; }]. *)
Definition scanTexture (ns category subpath : string) (data : option (list Z))
    (st : state FS) : state FS :=
  let outFile := path_join [iconsDir; ns; category; subpath] in
  if existsSync (files st) outFile then register ns category subpath st
  else match data with
       | None => st
       | Some d =>
           register ns category subpath
             (State (writeFile (files st) outFile d)
                    (itemPaths st) (blockPaths st) (blockModels st))
       end.

(** The branch [if (mj) { ... }] with the role lists [parse]. *)
Definition scanBlockModel (parse : list (string * Model.jsval) → option Model.faces)
    (ns file : string) (tex : option (list (string * Model.jsval)))
    (st : state FS) : state FS :=
  let key := ns +:+ ":" +:+ path_basename file ".json" in
  match Model.lookup (blockModels st) key with
  | Some _ => st
  | None =>
      match tex ≫= parse with
      | Some f =>
          State (files st) (itemPaths st) (blockPaths st) (blockModels st ++ [(key, f)])
      | None => st
      end
  end.

(** The branch [if (me) { ... }]: an entity texture never replaces an
    item or block texture. *)
Definition scanEntity (ns subpath : string) (data : option (list Z))
    (st : state FS) : state FS :=
  let outFile := path_join [iconsDir; ns; "entity"; subpath] in
  let fs' :=
    if existsSync (files st) outFile then files st
    else match data with
         | Some d => writeFile (files st) outFile d
         | None => files st
         end in
  let url := relUrl ns "entity" subpath in
  let basename := path_basename subpath ".png" in
  let flat := flatName subpath in
  let k1 := ns +:+ ":" +:+ basename in
  let k2 := ns +:+ ":" +:+ flat in
  let block1 :=
    if negb (Js.truthy (itemPaths st !! k1)) && negb (Js.truthy (blockPaths st !! k1))
    then <[k1 := url]> (blockPaths st) else blockPaths st in
  let block2 :=
    if negb (String.eqb flat basename) && negb (Js.truthy (itemPaths st !! k2))
       && negb (Js.truthy (block1 !! k2))
    then <[k2 := url]> block1 else block1 in
  State fs' (itemPaths st) block2 (blockModels st).

(** One iteration of [for (const entry of entries)] over a mod jar. *)
Definition scanMod (st : state FS) (e : scanned) : state FS :=
  match e with
  | Texture ns category subpath data => scanTexture ns category subpath data st
  | BlockModel ns file tex => scanBlockModel Model.modFaces ns file tex st
  | Entity ns subpath data => scanEntity ns subpath data st
  | Unmatched => st
  end.

(** One iteration over the vanilla jar: the namespace is fixed by the
    regular expressions and entity textures are not looked at. *)
Definition scanVanilla (st : state FS) (e : scanned) : state FS :=
  match e with
  | Texture _ category subpath data => scanTexture "minecraft" category subpath data st
  | BlockModel _ file tex => scanBlockModel Model.vanillaFaces "minecraft" file tex st
  | Entity _ _ _ => st
  | Unmatched => st
  end.

(** The loop over the sorted mod jars, then the vanilla jar. *)
Definition scanJars (jars : list (list scanned)) (st : state FS) : state FS :=
  foldl (λ st entries, foldl scanMod st entries) st jars.

Definition scanVanillaJar (entries : list scanned) (st : state FS) : state FS :=
  foldl scanVanilla st entries.

(** A directory listing ([fs.readdirSync(dir, { withFileTypes: true })],
    recursively): files with their bytes, directories with their entries. *)
Inductive dirent :=
  | DFile (name : string) (content : list Z)
  | DDir (name : string) (children : list dirent).

(** [relBase ? `${relBase}/${e.name}` : e.name] *)
Definition joinRel (relBase name : string) : string :=
  if Js.truthy (Some relBase) then relBase +:+ "/" +:+ name else name.

(** The body of [walkDir] for a [.png] file at [rel] under
    [<staticDir>/<ns>/textures]: the copy, then three guarded keys in
    [itemPaths]. *)
Definition staticFile (ns rel : string) (content : list Z) (st : state FS) : state FS :=
  let outFile := path_join [iconsDir; ns; "textures"; rel] in
  let fs' :=
    if existsSync (files st) outFile then files st
    else writeFile (files st) outFile content in
  let url := relUrl ns "textures" rel in
  let basename := path_basename rel ".png" in
  let flat := flatName rel in
  let mcKey := ns +:+ ":textures/" +:+ rel in
  let items :=
    put_if_absent mcKey url
      (put_if_absent (ns +:+ ":" +:+ flat) url
         (put_if_absent (ns +:+ ":" +:+ basename) url (itemPaths st))) in
  State fs' items (blockPaths st) (blockModels st).

(** [walkDir(dir, relBase)] on one entry of the listing. *)
Fixpoint walkEntry (ns relBase : string) (e : dirent) (st : state FS) : state FS :=
  match e with
  | DDir name children =>
      (fix walk (es : list dirent) (st : state FS) : state FS :=
         match es with
         | [] => st
         | c :: rest => walk rest (walkEntry ns (joinRel relBase name) c st)
         end) children st
  | DFile name content =>
      if Str.ends_with ".png" name
      then staticFile ns (joinRel relBase name) content st
      else st
  end.

(** [walkDir(texDir, '')] on the listing of [<staticDir>/<ns>/textures]. *)
Definition walkDir (ns relBase : string) (entries : list dirent) (st : state FS)
    : state FS :=
  foldl (λ st e, walkEntry ns relBase e st) st entries.

(** The relative paths of the [.png] files of a listing, as [walkDir]
    names them. *)
Fixpoint pngs (relBase : string) (e : dirent) : list string :=
  match e with
  | DDir name children =>
      (fix all (es : list dirent) : list string :=
         match es with
         | [] => []
         | c :: rest => pngs (joinRel relBase name) c ++ all rest
         end) children
  | DFile name _ =>
      if Str.ends_with ".png" name then [joinRel relBase name] else []
  end.

End Scan.

End Catalog.

(** ** Block-model resolution and the manifest ([main], after the scans) *)

Module Resolver.

Section Resolve.

Context {FS : Type}.
Variable existsSync : FS → string → bool.
Variable path_join : list string → string.
(** [path.basename(p)] with one argument. *)
Variable path_basename1 : string → string.
Variable iconsDir : string.

(** [for (const c of candidates) if (fs.existsSync(c)) return ...] *)
Fixpoint firstExisting (fs : FS) (candidates : list string) : option string :=
  match candidates with
  | [] => None
  | c :: rest =>
      if existsSync fs c
      then Some (Str.replace_icons_prefix (Str.replace_char "\"%char "/"%char c))
      else firstExisting fs rest
  end.

(** [function resolveTexRef(texRef)] *)
Definition resolveTexRef (fs : FS) (texRef : string) : option string :=
  if String.eqb texRef "" then None else
  match Str.index_of ":"%char texRef with
  | None => None
  | Some colon =>
      let texNs := Str.take colon texRef in
      let texPath := Str.drop (colon + 1) texRef in
      firstExisting fs
        [ path_join [iconsDir; texNs; texPath +:+ ".png"];
          path_join [iconsDir; texNs; "block"; path_basename1 texPath +:+ ".png"] ]
  end.

(** [if (url) blockPaths[k] = url;] *)
Definition put_if_url (k : string) (url : option string)
    (store : gmap string string) : gmap string string :=
  match url with
  | Some u => if Js.truthy url then <[k := u]> store else store
  | None => store
  end.

(** The body of [for (const [key, faces] of Object.entries(blockModels))];
    only [blockPaths] changes. *)
Definition resolveModel (fs : FS) (itemPaths : gmap string string)
    (blockPaths : gmap string string) (kf : string * Model.faces)
    : gmap string string :=
  let '(key, faces) := kf in
  if Js.truthy (itemPaths !! key) then blockPaths else
  let topUrl := resolveTexRef fs (Model.top faces) in
  let sideUrl := resolveTexRef fs (Model.side faces) in
  let frontUrl := resolveTexRef fs (Model.front faces) in
  let anyUrl := Js.or_else (Js.or_else topUrl sideUrl) frontUrl in
  match anyUrl with
  | None => blockPaths
  | Some any =>
      if negb (Js.truthy anyUrl) then blockPaths else
      let b0 := Catalog.put_if_absent key any blockPaths in
      let b1 := put_if_url (key +:+ "#top") topUrl b0 in
      let b2 := put_if_url (key +:+ "#side") sideUrl b1 in
      put_if_url (key +:+ "#front") frontUrl b2
  end.

(** The whole loop. *)
Definition resolveModels (st : Catalog.state FS) : Catalog.state FS :=
  Catalog.State (Catalog.files st) (Catalog.itemPaths st)
    (foldl (resolveModel (Catalog.files st) (Catalog.itemPaths st))
           (Catalog.blockPaths st) (Catalog.blockModels st))
    (Catalog.blockModels st).

End Resolve.

(** [Object.assign(target, source)]: every own property of [source] is
    assigned on [target]. *)
Definition object_assign (target source : gmap string string) : gmap string string :=
  map_fold (λ k v acc, <[k := v]> acc) target source.

(** [const manifest = Object.assign({}, blockPaths, itemPaths);] *)
Definition manifest (blockPaths itemPaths : gmap string string) : gmap string string :=
  object_assign (object_assign ∅ blockPaths) itemPaths.

Section Later.

Context {FS : Type}.
Variable existsSync : FS → string → bool.
Variable path_join : list string → string.
Variable path_basename1 : string → string.
Variable iconsDir : string.

(** The body of [for (const [key, uv] of Object.entries(geoModels))];
    [uvJson] is [JSON.stringify(uv)]. *)
Definition geoStep (blockPaths : gmap string string) (kv : string * string)
    : gmap string string :=
  let '(key, uvJson) := kv in
  match blockPaths !! key with
  | Some entityUrl =>
      if negb (Js.truthy (Some entityUrl)) || negb (Str.includes "/entity/" entityUrl)
      then blockPaths
      else <[key +:+ "#head_uv" := uvJson]> blockPaths
  | None => blockPaths
  end.

Definition geoResolve (geoModels : list (string * string))
    (blockPaths : gmap string string) : gmap string string :=
  foldl geoStep blockPaths geoModels.

(** [src/extract_icons.js]: the first version of the descriptor scan keeps
    one reference per model, the first string of [textures] that is not an
    alias. [None] when nothing is recorded. *)
Definition firstTex (tex : list (string * Model.jsval)) : option string :=
  match Model.first_plain tex with
  | Some t => if Js.truthy (Some t) then Some t else None
  | None => None
  end.

(** [for (const c of candidates) if (fs.existsSync(c)) { found = c; break; }] *)
Fixpoint firstFound (fs : FS) (candidates : list string) : option string :=
  match candidates with
  | [] => None
  | c :: rest => if existsSync fs c then Some c else firstFound fs rest
  end.

(** [src/extract_icons.js]: the body of
    [for (const [key, texRef] of Object.entries(blockModels))]. *)
Definition resolveFirstTex (fs : FS) (itemPaths blockPaths : gmap string string)
    (kt : string * string) : gmap string string :=
  let '(key, texRef) := kt in
  if Js.truthy (itemPaths !! key) || Js.truthy (blockPaths !! key) then blockPaths else
  match Str.index_of ":"%char texRef with
  | None => blockPaths
  | Some colon =>
      let texNs := Str.take colon texRef in
      let texPath := Str.drop (colon + 1) texRef in
      match firstFound fs
              [ path_join [iconsDir; texNs; texPath +:+ ".png"];
                path_join [iconsDir; texNs; "block"; path_basename1 texPath +:+ ".png"] ]
      with
      | Some found =>
          if Js.truthy (Some found)
          then <[key := Str.replace_icons_prefix
                          (Str.replace_char "\"%char "/"%char found)]> blockPaths
          else blockPaths
      | None => blockPaths
      end
  end.

(** One advancement descriptor ([data/{ns}/advancements/{file}]): [icon]
    is [None] when extraction or parsing fails, and otherwise
    [json?.display?.icon?.id || json?.display?.icon?.item]. *)
Definition advStep (advMap : gmap string string)
    (e : string * string * option (option string)) : gmap string string :=
  let '(ns, file, icon) := e in
  let key := ns +:+ ":" +:+ Str.drop_last 5 file in
  if Js.truthy (advMap !! key) then advMap else
  match icon with
  | Some (Some itemId) =>
      if Js.truthy (Some itemId) then <[key := itemId]> advMap else advMap
  | _ => advMap
  end.

Definition advancements (entries : list (string * string * option (option string)))
    : gmap string string :=
  foldl advStep ∅ entries.

End Later.

End Resolver.

(** ** Atlas builder ([build_atlas.js]) *)

Module Atlas.

Section Lookup.

Variable existsSync : string → bool.
Variable path_join : list string → string.
Variable path_sep : string.
Variable dirname : string.

(** The body of [for (const v of variants)]: the absolute path when the
    manifest has a non-empty entry for [v] and the file is there. *)
Definition probe (manifest : gmap string string) (v : string) : option string :=
  match manifest !! v with
  | Some rel =>
      if Js.truthy (Some rel) then
        let absPath := path_join [dirname; Str.replace_char_str "/"%char path_sep rel] in
        if existsSync absPath then Some absPath else None
      else None
  | None => None
  end.

Fixpoint firstVariant (manifest : gmap string string) (variants : list string)
    : option string :=
  match variants with
  | [] => None
  | v :: rest =>
      match probe manifest v with
      | Some p => Some p
      | None => firstVariant manifest rest
      end
  end.

(** [function findIconPath(id, manifest)] *)
Definition findIconPath (id : string) (manifest : gmap string string) : option string :=
  match Str.index_of ":"%char id with
  | None => None
  | Some colon =>
      let ns := Str.take colon id in
      let name := Str.drop (colon + 1) id in
      let basename := Str.strip_png (Str.last_segment name) in
      firstVariant manifest
        [ id; ns +:+ ":" +:+ basename; ns +:+ ":" +:+ name +:+ "_item" ]
  end.

(** The lookup as the design document words it: the third spelling is
    built from the basename. *)
Definition findIconPath_spec (id : string) (manifest : gmap string string)
    : option string :=
  match Str.index_of ":"%char id with
  | None => None
  | Some colon =>
      let ns := Str.take colon id in
      let name := Str.drop (colon + 1) id in
      let basename := Str.strip_png (Str.last_segment name) in
      firstVariant manifest
        [ id; ns +:+ ":" +:+ basename; ns +:+ ":" +:+ basename +:+ "_item" ]
  end.

End Lookup.

Definition TILE : Z := 16.
Definition COLS : Z := 64.

(** [Math.ceil(a / b)] and [Math.floor(a / b)] on integers: the quotient is
    a real number (exactly representable for the sizes at hand). *)
Definition ceil_div (a b : Z) : Z := Qceiling (inject_Z a / inject_Z b).
Definition floor_div (a b : Z) : Z := Qfloor (inject_Z a / inject_Z b).

(** One element of the array given to [composite]. *)
Record tile := Tile { input : list Z; left : Z; top : Z }.

(** The variables of the loop: the image composited so far ([base], as the
    tiles laid on the transparent background, in order), the pending batch
    and the coordinate mapping. *)
Record pack := Pack {
  base : list tile;
  composites : list tile;
  manifest : gmap string (Z * Z);
}.

(** Every tile handed to [composite] so far: those already on [base] and
    those of the pending batch. *)
Definition laid (st : pack) : list tile := base st ++ composites st.

(** The written [icons_atlas.json] and the image it describes. *)
Record atlas := AtlasOut {
  a_tile : Z;
  a_cols : Z;
  a_rows : Z;
  a_width : Z;
  a_height : Z;
  icons : gmap string (Z * Z);
  canvas : list tile;
}.

Section Pack.

(** [sharp(file).resize(...).ensureAlpha().raw().toBuffer()]; [None] is
    a rejected promise. *)
Variable load : string → option (list Z).

(** One iteration of [for (let i = 0; ...)] on [iconPaths[i] = (id, file)]. *)
Definition packStep (i : nat) (icon : string * string) (st : pack) : pack :=
  let '(id, file) := icon in
  let col := Z.of_nat i mod COLS in
  let row := floor_div (Z.of_nat i) COLS in
  let left := col * TILE in
  let top := row * TILE in
  match load file with
  | None => st
  | Some buf =>
      let composites' := composites st ++ [Tile buf left top] in
      let manifest' := <[id := (left, top)]> (manifest st) in
      if decide (2000 ≤ length composites')%nat
      then Pack (base st ++ composites') [] manifest'
      else Pack (base st) composites' manifest'
  end.

Fixpoint packLoop (i : nat) (iconPaths : list (string * string)) (st : pack) : pack :=
  match iconPaths with
  | [] => st
  | icon :: rest => packLoop (S i) rest (packStep i icon st)
  end.

(** [async function buildAtlas(iconPaths)]: what its body computes and
    writes once the canvas of l.94 is constructed. *)
Definition buildAtlas (iconPaths : list (string * string)) : atlas :=
  let count := Z.of_nat (length iconPaths) in
  let rows := ceil_div count COLS in
  let W := COLS * TILE in
  let H := rows * TILE in
  let st := packLoop 0 iconPaths (Pack [] [] ∅) in
  let final :=
    if decide (0 < length (composites st))%nat
    then base st ++ composites st else base st in
  AtlasOut TILE COLS rows W H (manifest st) final.

(** [sharp(input, { raw: { width, height, channels: 4 } })]: whether the
    library takes the raw pixel buffer; [false] is a thrown error. *)
Variable sharp_raw : list Z → Z → Z → bool.


End Pack.

(** [quests.json] as far as [getUsedIds] reads it. *)
Record task := Task { t_item : option string; t_entity : option string }.
Record quest := Quest { q_tasks : option (list task) }.
Record chapter := Chapter {
  ch_quests : list quest;
  ch_images : option (list (option string));
}.

(** [set.add(x)] on a [Set] kept as its elements in insertion order. *)
Definition set_add (x : string) (s : list string) : list string :=
  if bool_decide (x ∈ s) then s else s ++ [x].

(** [if (v) set.add(v);] *)
Definition add_if (v : option string) (s : list string) : list string :=
  match v with
  | Some x => if Js.truthy v then set_add x s else s
  | None => s
  end.

(** The two sets of [getUsedIds] after one chapter. *)
Definition usedInChapter (acc : list string * list string) (ch : chapter)
    : list string * list string :=
  let items :=
    foldl (λ s q,
             foldl (λ s t, add_if (t_entity t) (add_if (t_item t) s))
                   s (default [] (q_tasks q)))
          acc.1 (ch_quests ch) in
  let images := foldl (λ s img, add_if img s) acc.2 (default [] (ch_images ch)) in
  (items, images).

(** [function getUsedIds()]: [(taskItems, chapterImages)]. *)
Definition getUsedIds (chapters : list chapter) : list string * list string :=
  foldl usedInChapter ([], []) chapters.

Section Main.

Variable existsSync : string → bool.
Variable path_join : list string → string.
Variable path_sep : string.
Variable dirname : string.
Variable load : string → option (list Z).

(** The loop [for (const id of taskItems)] of [main]: the list [found] and
    [missingCount]. *)
Definition findStep (manifest : gmap string string)
    (acc : list (string * string) * nat) (id : string) : list (string * string) * nat :=
  match findIconPath existsSync path_join path_sep dirname id manifest with
  | Some file =>
      if Js.truthy (Some file) then (acc.1 ++ [(id, file)], acc.2)
      else (acc.1, S acc.2)
  | None => (acc.1, S acc.2)
  end.

Definition findAll (manifest : gmap string string) (taskItems : list string)
    : list (string * string) * nat :=
  foldl (findStep manifest) ([], 0%nat) taskItems.

(** The loop [for (const id of chapterImages)] of [main]: the image
    manifest. The second key is the basename alone, without namespace. *)
Definition imageStep (manifest : gmap string string)
    (imageManifest : gmap string string) (id : string) : gmap string string :=
  match findIconPath existsSync path_join path_sep dirname id manifest with
  | Some file =>
      if Js.truthy (Some file) then
        let bare :=
          match Str.index_of ":"%char id with
          | Some colon => Str.strip_png (Str.last_segment (Str.drop (colon + 1) id))
          | None => Str.strip_png (Str.last_segment id)
          end in
        match Js.or_else (manifest !! id) (manifest !! bare) with
        | Some relUrl =>
            if Js.truthy (Some relUrl) then <[id := relUrl]> imageManifest
            else imageManifest
        | None => imageManifest
        end
      else imageManifest
  | None => imageManifest
  end.

(** [main]: the atlas built from the quests and the manifest. *)
Definition mainAtlas (chapters : list chapter) (manifest : gmap string string) : atlas :=
  buildAtlas load (findAll manifest (getUsedIds chapters).1).1.

End Main.

End Atlas.

(** ** A small instance of the Node modules, for running the model *)

Module Sample.

(** The output directory as the set of paths that exist. *)
Definition existsSync (fs : gset string) (p : string) : bool := bool_decide (p ∈ fs).
Definition writeFile (fs : gset string) (p : string) (_ : list Z) : gset string := {[p]} ∪ fs.

(** [path.join] on segments that need no normalisation, POSIX separator. *)
Fixpoint path_join (parts : list string) : string :=
  match parts with
  | [] => "."
  | [p] => p
  | p :: rest => p +:+ "/" +:+ path_join rest
  end.

(** [path.basename(p)] and [path.basename(p, ext)] on POSIX paths without a
    trailing separator. *)
Definition path_basename1 (p : string) : string := Str.last_segment p.

Definition path_basename (p ext : string) : string :=
  let b := Str.last_segment p in
  if Str.ends_with ext b && negb (String.eqb b ext)
  then Str.drop_last (String.length ext) b else b.

(** Raw deflate restricted to one final stored block (at most 65535 bytes):
    the header byte, the length and its complement, then the bytes. *)
Definition deflate_stored (data : list Z) : list Z :=
  let n := Z.of_nat (length data) in
  [1; n mod 256; n / 256; 255 - n mod 256; 255 - n / 256] ++ data.

Definition inflate_stored (c : list Z) : option (list Z) :=
  match c with
  | 1 :: l0 :: l1 :: n0 :: n1 :: data =>
      if bool_decide (l0 + 256 * l1 = Z.of_nat (length data)
                      ∧ n0 = 255 - l0 ∧ n1 = 255 - l1)
      then Some data else None
  | _ => None
  end.

(** A 30-byte local file header with the given method and name and extra
    field lengths (below 256); the other fields are left zero. *)
Definition local_header (method nameLen extraLen : Z) : list Z :=
  [0x50; 0x4b; 0x03; 0x04] ++ [0; 0; 0; 0] ++ [method; 0] ++ replicate 16 0
  ++ [nameLen; 0; extraLen; 0].

(** A buffer that holds the end-of-central-directory signature at offset 0
    only, followed by 70000 zero bytes. *)
Definition early_signature : list Z :=
  [0x50; 0x4b; 0x05; 0x06] ++ replicate (Z.to_nat 70000) 0.

(** An image loader that fails on one file name and otherwise yields a
    16x16 RGBA buffer. *)
Definition load (file : string) : option (list Z) :=
  if String.eqb file "broken.png" then None else Some (replicate 1024 255).

Definition three_icons : list (string * string) :=
  [("a:x", "x.png"); ("a:y", "broken.png"); ("a:z", "z.png")].


End Sample.

(** ** Synthetic archives *)

Module Fixture.

(** Little-endian encodings of 16- and 32-bit fields. *)
Definition encode16 (v : Z) : list Z := [v mod 256; v / 256].

Definition encode32 (v : Z) : list Z :=
  [v mod 256; v / 256 mod 256; v / 65536 mod 256; v / 16777216].

(** One file of an archive: the bytes of its name and extra field, its
    compression method and its (compressed) data. *)
Record file := File {
  f_name : list Z;
  f_extra : list Z;
  f_method : nat;
  f_data : list Z;
}.

(** The 30-byte local file header; the fields the reader does not look at
    are left zero. *)
Definition local_header (f : file) : list Z :=
  [0x50; 0x4b; 0x03; 0x04] ++ replicate 4 0
  ++ encode16 (Z.of_nat (f_method f)) ++ replicate 16 0
  ++ encode16 (Z.of_nat (length (f_name f)))
  ++ encode16 (Z.of_nat (length (f_extra f))).

(** Local header, name, extra field, data. *)
Definition local_record (f : file) : list Z :=
  local_header f ++ f_name f ++ f_extra f ++ f_data f.

(** One central-directory record: what it lists and the variable-length
    fields that follow the 46 fixed bytes. *)
Record cd_item := CdItem {
  ci_name : list Z;
  ci_extra : list Z;
  ci_comment : list Z;
  ci_method : nat;
  ci_size : nat;
  ci_offset : nat;
}.

(** The 46 fixed bytes of a central-directory record; the fields the
    reader does not look at are left zero. *)
Definition cd_fixed (c : cd_item) : list Z :=
  [0x50; 0x4b; 0x01; 0x02] ++ replicate 6 0
  ++ encode16 (Z.of_nat (ci_method c)) ++ replicate 8 0
  ++ encode32 (Z.of_nat (ci_size c)) ++ replicate 4 0
  ++ encode16 (Z.of_nat (length (ci_name c)))
  ++ encode16 (Z.of_nat (length (ci_extra c)))
  ++ encode16 (Z.of_nat (length (ci_comment c)))
  ++ replicate 8 0
  ++ encode32 (Z.of_nat (ci_offset c)).

Definition cd_record (c : cd_item) : list Z :=
  cd_fixed c ++ ci_name c ++ ci_extra c ++ ci_comment c.

(** The entry [parseZip] is expected to list for a record. *)
Definition entry_of (toString : list Z → string) (c : cd_item) : Zip.entry :=
  Zip.Entry (toString (ci_name c)) (ci_method c) (ci_size c) (ci_offset c).

(** The 22-byte end-of-central-directory record without a comment. *)
Definition eocd (cdOffset : nat) : list Z :=
  [0x50; 0x4b; 0x05; 0x06] ++ replicate 12 0
  ++ encode32 (Z.of_nat cdOffset) ++ [0; 0].

(** The fields fit their width. *)
Definition cd_item_ok (c : cd_item) : Prop :=
  Z.of_nat (ci_method c) < 65536 ∧ Z.of_nat (ci_size c) < 2 ^ 32
  ∧ Z.of_nat (ci_offset c) < 2 ^ 32
  ∧ Z.of_nat (length (ci_name c)) < 65536
  ∧ Z.of_nat (length (ci_extra c)) < 65536
  ∧ Z.of_nat (length (ci_comment c)) < 65536.

(** Anything, then the central directory, then the end record. *)
Definition directory (pre : list Z) (items : list cd_item) : list Z :=
  pre ++ concat (map cd_record items) ++ eocd (length pre).

(** The central-directory items of the files laid out from offset [off]. *)
Fixpoint items_from (off : nat) (files : list file) : list cd_item :=
  match files with
  | [] => []
  | f :: rest =>
      CdItem (f_name f) (f_extra f) [] (f_method f) (length (f_data f)) off
        :: items_from (off + length (local_record f)) rest
  end.

(** A whole archive: the local records, the directory, the end record. *)
Definition archive (files : list file) : list Z :=
  directory (concat (map local_record files)) (items_from 0 files).

Definition file_ok (f : file) : Prop :=
  Z.of_nat (f_method f) < 65536 ∧ Z.of_nat (length (f_data f)) < 2 ^ 32
  ∧ Z.of_nat (length (f_name f)) < 65536
  ∧ Z.of_nat (length (f_extra f)) < 65536.

(** [toString('utf8')] on 7-bit bytes, for running [parseZip]. *)
Fixpoint ascii_string (bytes : list Z) : string :=
  match bytes with
  | [] => EmptyString
  | b :: rest => String (ascii_of_nat (Z.to_nat b)) (ascii_string rest)
  end.

End Fixture.

(** * Properties *)

(** ** Truthiness *)

Lemma truthy_Some (v : option string) :
  Js.truthy v = true ↔ ∃ s, v = Some s ∧ s ≠ "".
Proof.
  destruct v as [s|]; simpl.
  - rewrite negb_true_iff, String.eqb_neq. split.
    + intros H. by exists s.
    + by intros (s' & [= <-] & H).
  - split; [done | by intros (s & ? & _)].
Qed.

Lemma truthy_nonempty (s : string) : s ≠ "" → Js.truthy (Some s) = true.
Proof. intros H. apply truthy_Some. by exists s. Qed.

Lemma truthy_None : Js.truthy None = false.
Proof. done. Qed.

Lemma or_else_l (a b : option string) : Js.truthy a = true → Js.or_else a b = a.
Proof. intros H. unfold Js.or_else. by rewrite H. Qed.

Lemma or_else_r (a b : option string) : Js.truthy a = false → Js.or_else a b = b.
Proof. intros H. unfold Js.or_else. by rewrite H. Qed.

(** ** Archive reader *)

Section ZipFacts.

Import Zip.

Lemma findEOCD_loop_none (buf : list Z) (k : nat) :
  (∀ i : nat, (i < k)%nat → is_eocd buf (Z.of_nat i) = false) →
  findEOCD_loop buf k = -1.
Proof.
  induction k as [|k IH]; intros Hno; simpl; [done|].
  rewrite Hno by lia. apply IH. intros i Hi. apply Hno. lia.
Qed.

Lemma findEOCD_loop_found (buf : list Z) (k i : nat) :
  (i < k)%nat →
  is_eocd buf (Z.of_nat i) = true →
  (∀ j : nat, (i < j < k)%nat → is_eocd buf (Z.of_nat j) = false) →
  findEOCD_loop buf k = Z.of_nat i.
Proof.
  induction k as [|k IH]; intros Hlt Hi Habove; [lia|]. simpl.
  destruct (decide (i = k)) as [->|Hne].
  - by rewrite Hi.
  - rewrite Habove by lia. apply IH; [lia | done |].
    intros j Hj. apply Habove. lia.
Qed.

Lemma findEOCD_loop_cases (buf : list Z) (k : nat) :
  (findEOCD_loop buf k = -1
   ∧ ∀ i : nat, (i < k)%nat → is_eocd buf (Z.of_nat i) = false)
  ∨ (∃ i : nat, (i < k)%nat ∧ findEOCD_loop buf k = Z.of_nat i
     ∧ is_eocd buf (Z.of_nat i) = true
     ∧ ∀ j : nat, (i < j < k)%nat → is_eocd buf (Z.of_nat j) = false).
Proof.
  induction k as [|k IH]; simpl.
  - left. split; [done | lia].
  - destruct (is_eocd buf (Z.of_nat k)) eqn:Hk.
    + right. exists k. repeat split; [lia | done | lia].
    + destruct IH as [[Hr Hno] | (i & Hi & Hr & Hsig & Habove)].
      * left. split; [done|]. intros i Hi.
        destruct (decide (i = k)) as [->|]; [done | apply Hno; lia].
      * right. exists i. repeat split; [lia | done | done |].
        intros j Hj. destruct (decide (j = k)) as [->|]; [done | apply Habove; lia].
Qed.

Lemma at_app_r (pre l : list Z) (k : Z) :
  0 ≤ k → at_ (pre ++ l) (Z.of_nat (length pre) + k) = at_ l k.
Proof.
  intros Hk. unfold at_.
  destruct (Z.ltb_spec (Z.of_nat (length pre) + k) 0); [lia|].
  destruct (Z.ltb_spec k 0); [lia|].
  rewrite lookup_app_r by lia. f_equal. lia.
Qed.

Lemma at_app_l (l post : list Z) (k : Z) :
  k < Z.of_nat (length l) → at_ (l ++ post) k = at_ l k.
Proof.
  intros Hk. unfold at_. destruct (Z.ltb_spec k 0); [done|].
  apply lookup_app_l. lia.
Qed.

Lemma readUInt16LE_inside (pre hdr post : list Z) (o : Z) :
  0 ≤ o → o + 1 < Z.of_nat (length hdr) →
  readUInt16LE (pre ++ hdr ++ post) (Z.of_nat (length pre) + o) = readUInt16LE hdr o.
Proof.
  intros Ho Hlt. unfold readUInt16LE.
  replace (Z.of_nat (length pre) + o + 1) with (Z.of_nat (length pre) + (o + 1)) by lia.
  rewrite !at_app_r by lia. by rewrite !at_app_l by lia.
Qed.

Lemma slice_middle (pre mid post : list Z) :
  slice (pre ++ mid ++ post) (length pre) (length pre + length mid) = mid.
Proof.
  unfold slice. rewrite drop_app_length.
  replace (length pre + length mid - length pre)%nat with (length mid) by lia.
  by rewrite take_app_length.
Qed.

Lemma slice_length (buf : list Z) (start n : nat) :
  (start + n ≤ length buf)%nat → length (slice buf start (start + n)) = n.
Proof.
  intros H. unfold slice. rewrite length_take, length_drop. lia.
Qed.

Lemma slice_lookup (buf : list Z) (start n i : nat) :
  (i < n)%nat → slice buf start (start + n) !! i = buf !! (start + i)%nat.
Proof.
  intros H. unfold slice. rewrite lookup_take_lt by lia. apply lookup_drop.
Qed.

End ZipFacts.

Section ExtractFacts.

Import Zip.

Variable inflateRawSync : list Z → option (list Z).
Variable deflateRawSync : list Z → list Z.

(** A stored entry whose header and data lie inside the buffer: the
    result is the [compSize] bytes found at the data offset. *)
Lemma extractEntry_stored_in_place (buf : list Z) (e : entry) :
  let dataStart :=
    (localOffset e + 30
     + Z.to_nat (readUInt16LE buf (Z.of_nat (localOffset e) + 26))
     + Z.to_nat (readUInt16LE buf (Z.of_nat (localOffset e) + 28)))%nat in
  compression e = 0%nat →
  (localOffset e + 30 ≤ length buf)%nat →
  (dataStart + compSize e ≤ length buf)%nat →
  ∃ data, extractEntry inflateRawSync buf e = Some data
    ∧ length data = compSize e
    ∧ ∀ i : nat, (i < compSize e)%nat → data !! i = buf !! (dataStart + i)%nat.
Proof.
  intros dataStart Hm Hh Hd. eexists. unfold extractEntry.
  rewrite decide_False by lia. rewrite decide_True by done.
  split; [reflexivity|]. fold dataStart. split.
  - by apply slice_length.
  - intros i Hi. by apply slice_lookup.
Qed.

Lemma extractEntry_layout (pre hdr nm ex payload post : list Z) (e : entry) :
  length hdr = 30%nat →
  readUInt16LE hdr 26 = Z.of_nat (length nm) →
  readUInt16LE hdr 28 = Z.of_nat (length ex) →
  localOffset e = length pre →
  compSize e = length payload →
  extractEntry inflateRawSync (pre ++ hdr ++ nm ++ ex ++ payload ++ post) e =
    if decide (compression e = 0%nat) then Some payload
    else if decide (compression e = 8%nat) then inflateRawSync payload
    else None.
Proof.
  intros Hhdr Hnm Hex Hlh Hsz. unfold extractEntry.
  rewrite decide_False by (rewrite !length_app; lia).
  rewrite Hlh, Hsz.
  rewrite !readUInt16LE_inside by lia. rewrite Hnm, Hex, !Nat2Z.id.
  replace (pre ++ hdr ++ nm ++ ex ++ payload ++ post)
    with ((pre ++ hdr ++ nm ++ ex) ++ payload ++ post) by by rewrite <- !app_assoc.
  replace (length pre + 30 + length nm + length ex)%nat
    with (length (pre ++ hdr ++ nm ++ ex)) by (rewrite !length_app; lia).
  by rewrite slice_middle.
Qed.


(** C10. An entry whose compression method is neither 0 nor 8 yields
    [null], whatever the buffer holds. *)
Theorem extractEntry_unsupported_method (buf : list Z) (e : entry) :
  compression e ≠ 0%nat → compression e ≠ 8%nat →
  extractEntry inflateRawSync buf e = None.
Proof.
  intros H0 H8. unfold extractEntry.
  destruct (decide (length buf < localOffset e + 30)%nat); [done|].
  rewrite decide_False by done. by rewrite decide_False by done.
Qed.

End ExtractFacts.

(** C3 (as the code has it). [findEOCD] scans every offset from
    [length - 22] down to 0: it returns the highest such offset that holds
    the signature, and -1 only when none of them does. There is no
    64KB window. *)
Theorem findEOCD_scans_whole_buffer (buf : list Z) :
  (Zip.findEOCD buf = -1
   ∧ ∀ i : Z, 0 ≤ i ≤ Z.of_nat (length buf) - 22 → Zip.is_eocd buf i = false)
  ∨ (0 ≤ Zip.findEOCD buf ≤ Z.of_nat (length buf) - 22
     ∧ Zip.is_eocd buf (Zip.findEOCD buf) = true
     ∧ ∀ j : Z, Zip.findEOCD buf < j ≤ Z.of_nat (length buf) - 22 →
         Zip.is_eocd buf j = false).
Proof.
  unfold Zip.findEOCD.
  destruct (findEOCD_loop_cases buf (Z.to_nat (Z.of_nat (length buf) - 22 + 1)))
    as [[Hr Hno] | (i & Hi & Hr & Hsig & Habove)].
  - left. split; [done|]. intros i Hi.
    rewrite <- (Z2Nat.id i) by lia. apply Hno. lia.
  - right. rewrite Hr. split; [lia|]. split; [done|]. intros j Hj.
    rewrite <- (Z2Nat.id j) by lia. apply Habove. lia.
Qed.

Lemma at_negative (buf : list Z) (i : Z) : i < 0 → Zip.at_ buf i = None.
Proof. intros Hi. unfold Zip.at_. by destruct (Z.ltb_spec i 0); [|lia]. Qed.

Lemma is_eocd_first (buf : list Z) (i : Z) :
  Zip.is_eocd buf i = true → Zip.at_ buf i = Some 0x50.
Proof.
  unfold Zip.is_eocd. rewrite !andb_true_iff, !bool_decide_eq_true. tauto.
Qed.

Lemma early_signature_tail (n j : nat) :
  (1 ≤ j)%nat →
  Zip.is_eocd ([0x50; 0x4b; 0x05; 0x06] ++ replicate n 0) (Z.of_nat j) = false.
Proof.
  intros Hj. unfold Zip.is_eocd.
  assert (Zip.at_ ([0x50; 0x4b; 0x05; 0x06] ++ replicate n 0) (Z.of_nat j) ≠ Some 0x50)
    as Hne.
  { unfold Zip.at_. destruct (Z.ltb_spec (Z.of_nat j) 0); [done|].
    rewrite Nat2Z.id.
    destruct j as [|[|[|[|j]]]]; [lia | done | done | done |].
    change (replicate n 0 !! j ≠ Some 80).
    intros Hl. apply lookup_replicate in Hl. by destruct Hl. }
  by rewrite (bool_decide_eq_false_2 _ Hne).
Qed.

Lemma early_signature_head (n : nat) :
  Zip.is_eocd ([0x50; 0x4b; 0x05; 0x06] ++ replicate n 0) (Z.of_nat 0) = true.
Proof. reflexivity. Qed.

Lemma early_signature_only_head (n : nat) (i : Z) :
  Zip.is_eocd ([0x50; 0x4b; 0x05; 0x06] ++ replicate n 0) i = true → i = 0.
Proof.
  intros Hi. destruct (Z.ltb_spec i 0) as [Hneg|Hpos].
  - apply is_eocd_first in Hi. rewrite at_negative in Hi by done. done.
  - destruct (decide (i = 0)) as [|Hne]; [done|].
    rewrite <- (Z2Nat.id i), (early_signature_tail _ (Z.to_nat i)) in Hi by lia.
    done.
Qed.

Lemma early_signature_found (n : nat) :
  (18 ≤ n)%nat →
  Zip.findEOCD ([0x50; 0x4b; 0x05; 0x06] ++ replicate n 0) = 0.
Proof.
  intros Hn. unfold Zip.findEOCD.
  apply (findEOCD_loop_found _ _ 0%nat).
  - rewrite length_app, length_replicate.
    change (length [80; 75; 5; 6]) with 4%nat. lia.
  - apply early_signature_head.
  - intros j Hj. apply early_signature_tail. lia.
Qed.

Lemma early_signature_length :
  Z.of_nat (length Sample.early_signature) = 70004.
Proof.
  unfold Sample.early_signature. rewrite length_app, length_replicate.
  change (length [80; 75; 5; 6]) with 4%nat.
  rewrite Nat2Z.inj_add, Z2Nat.id; lia.
Qed.

(** C3, counterexample. In a buffer of 70004 bytes whose only signature is
    at offset 0, far before the last 64KB plus 22 bytes, [findEOCD] still
    answers 0 and not -1. *)
Lemma findEOCD_finds_before_window :
  Z.of_nat (length Sample.early_signature) = 70004
  ∧ (∀ i : Z, Zip.is_eocd Sample.early_signature i = true → i = 0)
  ∧ 0 < Z.of_nat (length Sample.early_signature) - (65536 + 22)
  ∧ Zip.findEOCD Sample.early_signature = 0
  ∧ Zip.findEOCD Sample.early_signature ≠ -1.
Proof.
  pose proof early_signature_length as Hlen.
  assert (Zip.findEOCD Sample.early_signature = 0) as Hres.
  { apply early_signature_found. lia. }
  split; [exact Hlen|]. split; [apply early_signature_only_head|].
  split; [rewrite Hlen; lia|]. split; [exact Hres|].
  rewrite Hres. lia.
Qed.

(** Witnesses for the archive reader. *)


Lemma extractEntry_unsupported_method_witness :
  Zip.extractEntry Sample.inflate_stored
    (Sample.local_header 12 1 0 ++ [97; 1; 2; 3]) (Zip.Entry "a" 12 3 0) = None.
Proof.
  apply (extractEntry_unsupported_method Sample.inflate_stored
           (Sample.local_header 12 1 0 ++ [97; 1; 2; 3]) (Zip.Entry "a" 12 3 0));
    simpl; lia.
Defined.

(** ** Manifest merge *)

Lemma object_assign_lookup (target source : gmap string string) (k : string) :
  Resolver.object_assign target source !! k =
    match source !! k with
    | Some v => Some v
    | None => target !! k
    end.
Proof.
  unfold Resolver.object_assign. revert k.
  apply (map_fold_weak_ind
           (λ r m, ∀ k, r !! k = match m !! k with Some v => Some v | None => target !! k end)).
  - intros k. by rewrite lookup_empty.
  - intros i x m r Hi IH k. destruct (decide (i = k)) as [->|Hne].
    + by rewrite !lookup_insert_eq.
    + rewrite !lookup_insert_ne by done. apply IH.
Qed.

Lemma manifest_lookup (blockPaths itemPaths : gmap string string) (k : string) :
  Resolver.manifest blockPaths itemPaths !! k =
    match itemPaths !! k with
    | Some v => Some v
    | None => blockPaths !! k
    end.
Proof.
  unfold Resolver.manifest. rewrite !object_assign_lookup, lookup_empty.
  destruct (itemPaths !! k); [done|]. by destruct (blockPaths !! k).
Qed.

(** C5. The manifest is the block store overlaid by the item store: a key
    of the item store maps to the item path, every key of either store is
    in the manifest, and a key the item store lacks (a block-only key, and
    with it the [#top]/[#side]/[#front] keys the resolver writes to the
    block store) keeps its block-store value. *)
Theorem manifest_item_over_block (blockPaths itemPaths : gmap string string) :
  (∀ k v, itemPaths !! k = Some v →
     Resolver.manifest blockPaths itemPaths !! k = Some v)
  ∧ (∀ k, is_Some (itemPaths !! k) ∨ is_Some (blockPaths !! k) →
       is_Some (Resolver.manifest blockPaths itemPaths !! k))
  ∧ (∀ k, itemPaths !! k = None →
       Resolver.manifest blockPaths itemPaths !! k = blockPaths !! k)
  ∧ (∀ k, is_Some (Resolver.manifest blockPaths itemPaths !! k) →
       is_Some (itemPaths !! k) ∨ is_Some (blockPaths !! k))
  ∧ Resolver.manifest blockPaths itemPaths = itemPaths ∪ blockPaths.
Proof.
  repeat split.
  - intros k v Hk. by rewrite manifest_lookup, Hk.
  - intros k [[v Hk] | [v Hk]]; rewrite manifest_lookup.
    + by rewrite Hk.
    + destruct (itemPaths !! k); [done | by rewrite Hk].
  - intros k Hk. by rewrite manifest_lookup, Hk.
  - intros k. rewrite manifest_lookup. destruct (itemPaths !! k); eauto.
  - apply map_eq. intros k. rewrite manifest_lookup, lookup_union.
    destruct (itemPaths !! k), (blockPaths !! k); done.
Qed.

(** The design document's example: [mod:ore] in both stores. *)
Example manifest_ore :
  Resolver.manifest {[ "mod:ore" := "icons/mod/block/ore.png";
                       "mod:ore#top" := "icons/mod/block/ore_top.png" ]}
                    {[ "mod:ore" := "icons/mod/item/ore.png" ]}
  = {[ "mod:ore" := "icons/mod/item/ore.png";
       "mod:ore#top" := "icons/mod/block/ore_top.png" ]}.
Proof. by vm_compute. Qed.

(** ** Catalog registration *)

Lemma put_if_absent_present (k v : string) (store : gmap string string) :
  Js.truthy (store !! k) = true → Catalog.put_if_absent k v store = store.
Proof. intros H. unfold Catalog.put_if_absent. by rewrite H. Qed.

Lemma put_if_absent_absent (k v : string) (store : gmap string string) :
  Js.truthy (store !! k) = false → Catalog.put_if_absent k v store = <[k := v]> store.
Proof. intros H. unfold Catalog.put_if_absent. by rewrite H. Qed.

Lemma relUrl_nonempty (ns category subpath : string) :
  Catalog.relUrl ns category subpath ≠ "".
Proof. unfold Catalog.relUrl. simpl. discriminate. Qed.

Lemma relUrl_truthy (ns category subpath : string) :
  Js.truthy (Some (Catalog.relUrl ns category subpath)) = true.
Proof. apply truthy_nonempty, relUrl_nonempty. Qed.

Lemma keeps_refl (store : gmap string string) : Catalog.keeps store store.
Proof. by intros k _. Qed.

Lemma keeps_trans (s1 s2 s3 : gmap string string) :
  Catalog.keeps s1 s2 → Catalog.keeps s2 s3 → Catalog.keeps s1 s3.
Proof.
  intros H12 H23 k Hk. rewrite <- (H12 k Hk). apply H23. by rewrite (H12 k Hk).
Qed.

Lemma keeps_insert (k v : string) (store : gmap string string) :
  Js.truthy (store !! k) = false → Catalog.keeps store (<[k := v]> store).
Proof.
  intros Hk k' Hk'. destruct (decide (k = k')) as [->|Hne]; [congruence|].
  by rewrite lookup_insert_ne.
Qed.

Lemma keeps_put_if_absent (k v : string) (store : gmap string string) :
  Catalog.keeps store (Catalog.put_if_absent k v store).
Proof.
  unfold Catalog.put_if_absent. destruct (Js.truthy (store !! k)) eqn:Hk.
  - apply keeps_refl.
  - by apply keeps_insert.
Qed.

Lemma store_wf_insert (k v : string) (store : gmap string string) :
  v ≠ "" → Catalog.store_wf store → Catalog.store_wf (<[k := v]> store).
Proof.
  intros Hv Hwf k' v'. destruct (decide (k = k')) as [->|Hne].
  - rewrite lookup_insert_eq. by intros [= <-].
  - rewrite lookup_insert_ne by done. apply Hwf.
Qed.

Lemma store_wf_truthy (store : gmap string string) (k : string) :
  Catalog.store_wf store → is_Some (store !! k) → Js.truthy (store !! k) = true.
Proof.
  intros Hwf [v Hv]. rewrite Hv. apply truthy_nonempty. by apply (Hwf k).
Qed.

Section CatalogFacts.

Import Catalog.

Context {FS : Type}.
Variable existsSync : FS → string → bool.
Variable writeFile : FS → string → list Z → FS.
Variable path_join : list string → string.
Variable path_basename : string → string → string.
Variable iconsDir : string.

Abbreviation registerIn := (Catalog.registerIn path_basename).
Abbreviation register := (Catalog.register path_basename).
Abbreviation scanMod := (Catalog.scanMod existsSync writeFile path_join path_basename iconsDir).
Abbreviation scanJars := (Catalog.scanJars existsSync writeFile path_join path_basename iconsDir).
Abbreviation scanVanilla := (Catalog.scanVanilla existsSync writeFile path_join path_basename iconsDir).
Abbreviation scanVanillaJar := (Catalog.scanVanillaJar existsSync writeFile path_join path_basename iconsDir).

Lemma registerIn_keeps ns category subpath (store : gmap string string) :
  keeps store (registerIn ns category subpath store).
Proof.
  unfold Catalog.registerIn.
  set (store1 := put_if_absent _ _ store).
  assert (keeps store store1) as H1 by apply keeps_put_if_absent.
  destruct (negb (String.eqb _ _) && negb (Js.truthy (store1 !! _))) eqn:Hc; [|done].
  apply andb_true_iff in Hc as [_ Hc]. apply negb_true_iff in Hc.
  eapply keeps_trans; [exact H1 | by apply keeps_insert].
Qed.

Lemma registerIn_wf ns category subpath (store : gmap string string) :
  store_wf store → store_wf (registerIn ns category subpath store).
Proof.
  intros Hwf. unfold Catalog.registerIn.
  assert (store_wf (put_if_absent (ns +:+ ":" +:+ path_basename subpath ".png")
                      (relUrl ns category subpath) store)) as H1.
  { unfold put_if_absent. destruct (Js.truthy _); [done|].
    apply store_wf_insert; [apply relUrl_nonempty | done]. }
  destruct (_ && _); [|done].
  apply store_wf_insert; [apply relUrl_nonempty | done].
Qed.

(** After a registration both keys hold a non-empty path. *)
Lemma registerIn_base_truthy ns category subpath (store : gmap string string) :
  Js.truthy (registerIn ns category subpath store
               !! (ns +:+ ":" +:+ path_basename subpath ".png")) = true.
Proof.
  assert (Js.truthy (put_if_absent (ns +:+ ":" +:+ path_basename subpath ".png")
                       (relUrl ns category subpath) store
                     !! (ns +:+ ":" +:+ path_basename subpath ".png")) = true) as H1.
  { unfold put_if_absent. destruct (Js.truthy (store !! _)) eqn:Hk; [done|].
    rewrite lookup_insert_eq. apply relUrl_truthy. }
  unfold Catalog.registerIn.
  destruct (_ && _) eqn:Hc; [|done].
  apply andb_true_iff in Hc as [_ Hc]. apply negb_true_iff in Hc.
  by rewrite (keeps_insert _ _ _ Hc _ H1).
Qed.

Lemma registerIn_idempotent ns category subpath (store : gmap string string) :
  registerIn ns category subpath (registerIn ns category subpath store)
  = registerIn ns category subpath store.
Proof.
  set (store' := registerIn ns category subpath store).
  assert (Js.truthy (store' !! (ns +:+ ":" +:+ path_basename subpath ".png")) = true)
    as Hbase by apply registerIn_base_truthy.
  assert (String.eqb (flatName subpath) (path_basename subpath ".png") = false →
          Js.truthy (store' !! (ns +:+ ":" +:+ flatName subpath)) = true) as Hflat.
  { intros Hne. unfold store', Catalog.registerIn. rewrite Hne. simpl.
    destruct (Js.truthy (put_if_absent _ _ store !! _)) eqn:Hk; simpl; [done|].
    rewrite lookup_insert_eq. apply relUrl_truthy. }
  unfold Catalog.registerIn at 1. fold store'.
  rewrite (put_if_absent_present _ _ _ Hbase).
  destruct (String.eqb (flatName subpath) (path_basename subpath ".png")) eqn:Hne;
    [done|].
  by rewrite (Hflat eq_refl).
Qed.

Lemma registerIn_first ns category subpath (store : gmap string string) :
  Js.truthy (store !! (ns +:+ ":" +:+ path_basename subpath ".png")) = false →
  registerIn ns category subpath store !! (ns +:+ ":" +:+ path_basename subpath ".png")
  = Some (relUrl ns category subpath).
Proof.
  intros Hk. unfold Catalog.registerIn. rewrite (put_if_absent_absent _ _ _ Hk).
  destruct (negb (String.eqb _ _)) eqn:Hne; simpl.
  - apply negb_true_iff, String.eqb_neq in Hne.
    destruct (negb _); [|by rewrite lookup_insert_eq].
    rewrite lookup_insert_ne; [by rewrite lookup_insert_eq|].
    intros Heq. by simplify_eq.
  - by rewrite lookup_insert_eq.
Qed.

Lemma store_of_register ns category subpath (st : state FS) :
  store_of category (register ns category subpath st)
  = registerIn ns category subpath (store_of category st).
Proof. unfold store_of, Catalog.register. by destruct (is_item category). Qed.

Lemma register_idempotent ns category subpath (st : state FS) :
  register ns category subpath (register ns category subpath st)
  = register ns category subpath st.
Proof.
  unfold Catalog.register. destruct (is_item category); simpl;
    by rewrite registerIn_idempotent.
Qed.

(** Each iteration of the scanning loop keeps what both stores hold. *)
Lemma register_keeps ns category subpath (st : state FS) :
  keeps (itemPaths st) (itemPaths (register ns category subpath st))
  ∧ keeps (blockPaths st) (blockPaths (register ns category subpath st)).
Proof.
  unfold Catalog.register. destruct (is_item category); simpl;
    split; try apply keeps_refl; apply registerIn_keeps.
Qed.

Lemma scanMod_keeps (st : state FS) (e : scanned) :
  keeps (itemPaths st) (itemPaths (scanMod st e))
  ∧ keeps (blockPaths st) (blockPaths (scanMod st e)).
Proof.
  destruct e as [ns category subpath data | ns file tex | ns subpath data | ]; simpl.
  - unfold Catalog.scanTexture. destruct (existsSync _ _).
    + apply register_keeps.
    + destruct data; [|split; apply keeps_refl].
      apply (register_keeps _ _ _ (State _ (itemPaths st) (blockPaths st) (blockModels st))).
  - unfold Catalog.scanBlockModel. destruct (Model.lookup _ _); [split; apply keeps_refl|].
    destruct (tex ≫= _); split; apply keeps_refl.
  - unfold Catalog.scanEntity. simpl. split; [apply keeps_refl|].
    set (b1 := if negb _ && negb _ then _ else _).
    assert (keeps (blockPaths st) b1) as H1.
    { unfold b1. destruct (negb (Js.truthy (itemPaths st !! _))); simpl;
        [|apply keeps_refl].
      destruct (Js.truthy (blockPaths st !! _)) eqn:Hk; simpl; [apply keeps_refl|].
      by apply keeps_insert. }
    destruct (_ && negb (Js.truthy (b1 !! _))) eqn:Hc; [|done].
    apply andb_true_iff in Hc as [_ Hc]. apply negb_true_iff in Hc.
    eapply keeps_trans; [exact H1 | by apply keeps_insert].
  - split; apply keeps_refl.
Qed.

Lemma scanEntries_keeps (entries : list scanned) (st : state FS) :
  keeps (itemPaths st) (itemPaths (foldl scanMod st entries))
  ∧ keeps (blockPaths st) (blockPaths (foldl scanMod st entries)).
Proof.
  revert st. induction entries as [|e entries IH]; intros st; simpl.
  - split; apply keeps_refl.
  - destruct (scanMod_keeps st e) as [Hi Hb].
    destruct (IH (scanMod st e)) as [Hi' Hb'].
    split; eapply keeps_trans; eauto.
Qed.

Lemma scanJars_keeps (jars : list (list scanned)) (st : state FS) :
  keeps (itemPaths st) (itemPaths (scanJars jars st))
  ∧ keeps (blockPaths st) (blockPaths (scanJars jars st)).
Proof.
  unfold Catalog.scanJars. revert st.
  induction jars as [|jar jars IH]; intros st; simpl.
  - split; apply keeps_refl.
  - destruct (scanEntries_keeps jar st) as [Hi Hb].
    destruct (IH (foldl scanMod st jar)) as [Hi' Hb'].
    split; eapply keeps_trans; eauto.
Qed.

Lemma scanVanilla_keeps (st : state FS) (e : scanned) :
  keeps (itemPaths st) (itemPaths (scanVanilla st e))
  ∧ keeps (blockPaths st) (blockPaths (scanVanilla st e)).
Proof.
  destruct e as [ns category subpath data | ns file tex | ns subpath data | ];
    [ apply (scanMod_keeps st (Texture "minecraft" category subpath data))
    | | split; apply keeps_refl | split; apply keeps_refl ].
  simpl. unfold Catalog.scanBlockModel.
  destruct (Model.lookup _ _); [split; apply keeps_refl|].
  destruct (tex ≫= _); split; apply keeps_refl.
Qed.

Lemma scanVanillaJar_keeps (entries : list scanned) (st : state FS) :
  keeps (itemPaths st) (itemPaths (scanVanillaJar entries st))
  ∧ keeps (blockPaths st) (blockPaths (scanVanillaJar entries st)).
Proof.
  unfold Catalog.scanVanillaJar. revert st.
  induction entries as [|e entries IH]; intros st; simpl.
  - split; apply keeps_refl.
  - destruct (scanVanilla_keeps st e) as [Hi Hb].
    destruct (IH (scanVanilla st e)) as [Hi' Hb'].
    split; eapply keeps_trans; eauto.
Qed.

Lemma store_of_keeps category (st st' : state FS) :
  keeps (itemPaths st) (itemPaths st') → keeps (blockPaths st) (blockPaths st') →
  keeps (store_of category st) (store_of category st').
Proof. intros Hi Hb. unfold store_of. by destruct (is_item category). Qed.

(** The paths the scan writes are never empty. *)
Lemma register_wf ns category subpath (st : state FS) :
  store_wf (itemPaths st) → store_wf (blockPaths st) →
  store_wf (itemPaths (register ns category subpath st))
  ∧ store_wf (blockPaths (register ns category subpath st)).
Proof.
  intros Hi Hb. unfold Catalog.register.
  destruct (is_item category); simpl; split; try done; by apply registerIn_wf.
Qed.

Lemma scanMod_wf (st : state FS) (e : scanned) :
  store_wf (itemPaths st) → store_wf (blockPaths st) →
  store_wf (itemPaths (scanMod st e)) ∧ store_wf (blockPaths (scanMod st e)).
Proof.
  intros Hi Hb.
  destruct e as [ns category subpath data | ns file tex | ns subpath data | ]; simpl.
  - unfold Catalog.scanTexture. destruct (existsSync _ _).
    + by apply register_wf.
    + destruct data; [|done].
      by apply (register_wf _ _ _ (State _ (itemPaths st) (blockPaths st) (blockModels st))).
  - unfold Catalog.scanBlockModel. destruct (Model.lookup _ _); [done|].
    by destruct (tex ≫= _).
  - unfold Catalog.scanEntity. simpl. split; [done|].
    set (b1 := if negb _ && negb _ then _ else _).
    assert (store_wf b1) as H1.
    { unfold b1. destruct (_ && _); [|done].
      apply store_wf_insert; [apply relUrl_nonempty | done]. }
    destruct (_ && negb (Js.truthy (b1 !! _))); [|done].
    apply store_wf_insert; [apply relUrl_nonempty | done].
  - done.
Qed.

Lemma scanEntries_wf (entries : list scanned) (st : state FS) :
  store_wf (itemPaths st) → store_wf (blockPaths st) →
  store_wf (itemPaths (foldl scanMod st entries))
  ∧ store_wf (blockPaths (foldl scanMod st entries)).
Proof.
  revert st. induction entries as [|e entries IH]; intros st Hi Hb; simpl; [done|].
  destruct (scanMod_wf st e Hi Hb) as [Hi' Hb']. by apply IH.
Qed.

Lemma scanJars_wf (jars : list (list scanned)) (st : state FS) :
  store_wf (itemPaths st) → store_wf (blockPaths st) →
  store_wf (itemPaths (scanJars jars st)) ∧ store_wf (blockPaths (scanJars jars st)).
Proof.
  unfold Catalog.scanJars. revert st.
  induction jars as [|jar jars IH]; intros st Hi Hb; simpl; [done|].
  destruct (scanEntries_wf jar st Hi Hb) as [Hi' Hb']. by apply IH.
Qed.

Lemma store_of_scanTexture ns category subpath d (st : state FS) :
  store_of category
    (Catalog.scanTexture existsSync writeFile path_join path_basename iconsDir
       ns category subpath (Some d) st)
  = registerIn ns category subpath (store_of category st).
Proof.
  unfold Catalog.scanTexture. destruct (existsSync _ _); by rewrite store_of_register.
Qed.

(** C4. Registration is insert-if-absent. (1) On a store of the catalog
    (whose paths are never empty, [scanJars_wf]), assigning under a key
    that is present changes nothing. (2) Registering the same identifier
    and path twice is the same as registering it once. (3) When an archive
    provides a texture for an identifier that its store does not hold yet,
    the entry is that archive's path after the rest of this archive, every
    later archive and the vanilla archive have been scanned, whatever they
    contain. *)
Theorem registration_first_writer_wins :
  (∀ (store : gmap string string) (k v : string),
     store_wf store → is_Some (store !! k) → put_if_absent k v store = store)
  ∧ (∀ ns category subpath (st : state FS),
       register ns category subpath (register ns category subpath st)
       = register ns category subpath st)
  ∧ (∀ ns category subpath d (st : state FS)
       (before rest second vanilla : list scanned) (later : list (list scanned)),
       Js.truthy (store_of category (foldl scanMod st before)
                    !! (ns +:+ ":" +:+ path_basename subpath ".png")) = false →
       store_of category
         (scanVanillaJar vanilla
            (scanJars ((before ++ Texture ns category subpath (Some d) :: rest)
                       :: second :: later) st))
         !! (ns +:+ ":" +:+ path_basename subpath ".png")
       = Some (relUrl ns category subpath)).
Proof.
  split; [|split].
  - intros store k v Hwf Hk. apply put_if_absent_present. by apply store_wf_truthy.
  - apply register_idempotent.
  - intros ns category subpath d st before rest second vanilla later Hfresh.
    set (key := ns +:+ ":" +:+ path_basename subpath ".png") in *.
    set (st0 := foldl scanMod st before) in *.
    set (st1 := scanMod st0 (Texture ns category subpath (Some d))).
    assert (store_of category st1 !! key = Some (relUrl ns category subpath)) as H1.
    { unfold st1. simpl. rewrite store_of_scanTexture. by apply registerIn_first. }
    assert (scanJars ((before ++ Texture ns category subpath (Some d) :: rest)
                      :: second :: later) st
            = scanJars (second :: later) (foldl scanMod st1 rest)) as ->.
    { unfold Catalog.scanJars. simpl. by rewrite foldl_app. }
    destruct (scanEntries_keeps rest st1) as [Hi Hb].
    destruct (scanJars_keeps (second :: later) (foldl scanMod st1 rest)) as [Hi' Hb'].
    destruct (scanVanillaJar_keeps vanilla
                (scanJars (second :: later) (foldl scanMod st1 rest))) as [Hi'' Hb''].
    assert (keeps (store_of category st1)
              (store_of category
                 (scanVanillaJar vanilla
                    (scanJars (second :: later) (foldl scanMod st1 rest)))))
      as Hkeep.
    { apply store_of_keeps; (eapply keeps_trans; [|eassumption]);
        eapply keeps_trans; eauto. }
    rewrite (Hkeep key); [done|]. rewrite H1. apply relUrl_truthy.
Qed.

(** Two archives that both carry a texture for [mod:gem]: the first one's
    path stays. *)
Example two_archives_gem :
  itemPaths
    (Catalog.scanJars Sample.existsSync Sample.writeFile Sample.path_join
       Sample.path_basename "/out/icons"
       [ [Texture "mod" "item" "gem.png" (Some [1])];
         [Texture "mod" "items" "shiny/gem.png" (Some [2])] ]
       (State ∅ ∅ ∅ []))
  = {[ "mod:gem" := "icons/mod/item/gem.png";
       "mod:shiny_gem" := "icons/mod/items/shiny/gem.png" ]}.
Proof. by vm_compute. Qed.

End CatalogFacts.

(** ** Block-model resolution *)

Lemma side_only_faces (parse_top parse_side parse_front : list string) (ref : string) :
  ref ≠ "" → Str.starts_with "#" ref = false →
  Model.resolve [("side", Model.JStr ref)] parse_top = None →
  Model.resolve [("side", Model.JStr ref)] parse_side = Some ref →
  Model.resolve [("side", Model.JStr ref)] parse_front = Some ref →
  Model.parseFaces parse_top parse_side parse_front [("side", Model.JStr ref)]
  = Some (Model.Faces ref ref ref).
Proof.
  intros Hne Halias Htop Hside Hfront. unfold Model.parseFaces.
  rewrite Htop, Hside, Hfront.
  assert (Js.truthy (Some ref) = true) as Ht by by apply truthy_nonempty.
  rewrite (or_else_r None) by done. rewrite !(or_else_l (Some ref)) by done.
  rewrite Ht. unfold Model.or_str.
  rewrite (or_else_r None) by done. by rewrite !(or_else_l (Some ref)) by done.
Qed.

Lemma named_ref_plain (ref : string) :
  ref ≠ "" → Str.starts_with "#" ref = false →
  Model.named_ref (Some (Model.JStr ref)) = Some ref.
Proof.
  intros Hne Halias. unfold Model.named_ref.
  apply String.eqb_neq in Hne. by rewrite Hne, Halias.
Qed.

Lemma modFaces_side_only (ref : string) :
  ref ≠ "" → Str.starts_with "#" ref = false →
  Model.modFaces [("side", Model.JStr ref)] = Some (Model.Faces ref ref ref).
Proof.
  intros Hne Halias.
  pose proof (named_ref_plain ref Hne Halias) as Hr.
  unfold Model.named_ref in Hr.
  apply side_only_faces; try done; simpl; by rewrite ?Hr.
Qed.

Lemma vanillaFaces_side_only (ref : string) :
  ref ≠ "" → Str.starts_with "#" ref = false →
  Model.vanillaFaces [("side", Model.JStr ref)] = Some (Model.Faces ref ref ref).
Proof.
  intros Hne Halias.
  pose proof (named_ref_plain ref Hne Halias) as Hr.
  unfold Model.named_ref in Hr.
  apply side_only_faces; try done; simpl; by rewrite ?Hr.
Qed.

Section ResolverFacts.

Context {FS : Type}.
Variable existsSync : FS → string → bool.
Variable path_join : list string → string.
Variable path_basename1 : string → string.
Variable iconsDir : string.

Abbreviation resolveTexRef := (Resolver.resolveTexRef existsSync path_join path_basename1 iconsDir).
Abbreviation resolveModel := (Resolver.resolveModel existsSync path_join path_basename1 iconsDir).

Lemma resolveTexRef_nonempty (fs : FS) (ref url : string) :
  resolveTexRef fs ref = Some url → ref ≠ "".
Proof. intros H ->. by unfold Resolver.resolveTexRef in H. Qed.

(** The loop body when all three faces resolve to the same path and the
    identifier has no texture of its own. *)
Lemma resolveModel_same_ref (fs : FS) (itemPaths blockPaths : gmap string string)
    (key ref url : string) :
  Js.truthy (itemPaths !! key) = false →
  Js.truthy (blockPaths !! key) = false →
  resolveTexRef fs ref = Some url → url ≠ "" →
  resolveModel fs itemPaths blockPaths (key, Model.Faces ref ref ref)
  = <[key +:+ "#front" := url]>
      (<[key +:+ "#side" := url]> (<[key +:+ "#top" := url]> (<[key := url]> blockPaths))).
Proof.
  intros Hitem Hblock Href Hurl. unfold Resolver.resolveModel. simpl.
  rewrite Hitem, Href.
  assert (Js.truthy (Some url) = true) as Ht by by apply truthy_nonempty.
  rewrite !(or_else_l (Some url)) by done. rewrite Ht.
  rewrite (put_if_absent_absent _ _ _ Hblock).
  unfold Resolver.put_if_url. by rewrite Ht.
Qed.

Lemma resolveModel_wf (fs : FS) (itemPaths blockPaths : gmap string string)
    (kf : string * Model.faces) :
  Catalog.store_wf blockPaths →
  Catalog.store_wf (resolveModel fs itemPaths blockPaths kf).
Proof.
  intros Hwf. destruct kf as [key faces]. unfold Resolver.resolveModel.
  destruct (Js.truthy (itemPaths !! key)); [done|].
  destruct (Js.or_else _ _) as [any|] eqn:Hany; [|done].
  destruct (Js.truthy (Some any)) eqn:Ht; [|done]. simpl.
  assert (∀ k url store, Catalog.store_wf store →
            Catalog.store_wf (Resolver.put_if_url k url store)) as Hurl.
  { intros k [u|] store Hs; simpl; [|done].
    destruct (negb (String.eqb u "")) eqn:Hu; [|done].
    apply store_wf_insert; [|done]. by apply negb_true_iff, String.eqb_neq in Hu. }
  do 3 apply Hurl. unfold Catalog.put_if_absent.
  destruct (Js.truthy (blockPaths !! key)); [done|].
  apply store_wf_insert; [|done].
  by apply truthy_Some in Ht as (? & [= <-] & ?).
Qed.

(** C1 (as the code has it). For an identifier with no texture in either
    store and a descriptor whose textures mapping is just [side], the
    three faces all fall back to the [side] reference; when that reference
    resolves to a path, the resolver writes the bare key and the [#top],
    [#side] and [#front] keys, all four with that path, and nothing else. *)
Theorem side_only_model_writes_all_faces (fs : FS)
    (itemPaths blockPaths : gmap string string) (key ref url : string) :
  Js.truthy (itemPaths !! key) = false →
  Js.truthy (blockPaths !! key) = false →
  Str.starts_with "#" ref = false →
  resolveTexRef fs ref = Some url → url ≠ "" →
  ∃ faces,
    Model.modFaces [("side", Model.JStr ref)] = Some faces
    ∧ resolveModel fs itemPaths blockPaths (key, faces)
      = <[key +:+ "#front" := url]>
          (<[key +:+ "#side" := url]>
             (<[key +:+ "#top" := url]> (<[key := url]> blockPaths))).
Proof.
  intros Hitem Hblock Halias Href Hurl.
  exists (Model.Faces ref ref ref). split.
  - apply modFaces_side_only; [|done]. by eapply resolveTexRef_nonempty.
  - by apply resolveModel_same_ref.
Qed.

End ResolverFacts.

(** C1, counterexample. [mod:machine] has no texture of its own, its
    descriptor names only [side], and the referenced file exists: the block
    store receives [#top] and [#front] keys as well. *)
Lemma side_only_model_writes_top_and_front :
  Model.modFaces [("side", Model.JStr "mod:block/machine_side")]
  = Some (Model.Faces "mod:block/machine_side" "mod:block/machine_side"
                      "mod:block/machine_side")
  ∧ Resolver.resolveModel Sample.existsSync Sample.path_join Sample.path_basename1
      "/out/icons" {[ "/out/icons/mod/block/machine_side.png" ]} ∅ ∅
      ("mod:machine",
       Model.Faces "mod:block/machine_side" "mod:block/machine_side"
                   "mod:block/machine_side")
    = {[ "mod:machine" := "icons/mod/block/machine_side.png";
         "mod:machine#side" := "icons/mod/block/machine_side.png";
         "mod:machine#top" := "icons/mod/block/machine_side.png";
         "mod:machine#front" := "icons/mod/block/machine_side.png" ]}
  ∧ Resolver.resolveModel Sample.existsSync Sample.path_join Sample.path_basename1
      "/out/icons" {[ "/out/icons/mod/block/machine_side.png" ]} ∅ ∅
      ("mod:machine",
       Model.Faces "mod:block/machine_side" "mod:block/machine_side"
                   "mod:block/machine_side")
    !! "mod:machine#top" ≠ None.
Proof.
  split; [by vm_compute|]. split; [by vm_compute|]. by vm_compute.
Qed.

Lemma side_only_model_witness :
  ∃ faces,
    Model.modFaces [("side", Model.JStr "mod:block/machine_side")] = Some faces
    ∧ Resolver.resolveModel Sample.existsSync Sample.path_join Sample.path_basename1
        "/out/icons" {[ "/out/icons/mod/block/machine_side.png" ]} ∅ ∅
        ("mod:machine", faces)
      = <[ "mod:machine#front" := "icons/mod/block/machine_side.png" ]>
          (<[ "mod:machine#side" := "icons/mod/block/machine_side.png" ]>
             (<[ "mod:machine#top" := "icons/mod/block/machine_side.png" ]>
                (<[ "mod:machine" := "icons/mod/block/machine_side.png" ]> ∅))).
Proof.
  apply (side_only_model_writes_all_faces Sample.existsSync Sample.path_join
           Sample.path_basename1 "/out/icons"
           {[ "/out/icons/mod/block/machine_side.png" ]} ∅ ∅
           "mod:machine" "mod:block/machine_side" "icons/mod/block/machine_side.png");
    by vm_compute.
Defined.

(** ** Icon lookup *)

Lemma index_of_app (c : ascii) (ns rest : string) :
  Str.index_of c ns = None →
  Str.index_of c (ns +:+ String c rest) = Some (String.length ns).
Proof.
  induction ns as [|a ns IH]; simpl; intros Hns.
  - by rewrite Ascii.eqb_refl.
  - destruct (Ascii.eqb a c); [done|].
    destruct (Str.index_of c ns); [done|]. by rewrite IH.
Qed.

Lemma str_take_app (ns rest : string) :
  Str.take (String.length ns) (ns +:+ rest) = ns.
Proof.
  induction ns as [|a ns IH]; simpl; [by destruct rest | by rewrite IH].
Qed.

Lemma str_drop_app (ns rest : string) (c : ascii) :
  Str.drop (String.length ns + 1) (ns +:+ String c rest) = rest.
Proof. induction ns as [|a ns IH]; simpl; [done | by rewrite IH]. Qed.

(** What [split('/').pop()] leaves of a path: the text after its last
    separator. *)
Lemma last_segment_app (dir file : string) :
  Str.index_of "/"%char file = None →
  Str.last_segment (dir +:+ "/" +:+ file) = file.
Proof.
  intros Hfile. unfold Str.last_segment.
  assert (Str.after_last "/"%char file = None) as Hnone.
  { induction file as [|a file IH]; simpl in *; [done|].
    destruct (Ascii.eqb a "/"); [done|].
    destruct (Str.index_of "/"%char file); [done|]. by rewrite IH. }
  assert (Str.after_last "/"%char (dir +:+ "/" +:+ file) = Some file) as ->; [|done].
  induction dir as [|a dir IH].
  - change ("" +:+ "/" +:+ file) with (String "/"%char file).
    cbn [Str.after_last]. by rewrite Hnone.
  - change (String a dir +:+ "/" +:+ file) with (String a (dir +:+ "/" +:+ file)).
    cbn [Str.after_last]. by rewrite IH.
Qed.

Lemma strip_png_suffix (file : string) :
  Str.strip_png (file +:+ ".png") = file.
Proof.
  unfold Str.strip_png, Str.ends_with, Str.drop_last.
  assert (String.length (file +:+ ".png") = (String.length file + 4)%nat) as Hlen.
  { induction file as [|a file IH]; simpl; [done | by rewrite IH]. }
  assert (∀ r, Str.drop (String.length file) (file +:+ r) = r) as Hdrop.
  { intros r. clear Hlen. induction file as [|a file IH]; simpl; [done | exact IH]. }
  rewrite Hlen. simpl String.length.
  replace (String.length file + 4 - 4)%nat with (String.length file) by lia.
  rewrite Hdrop, str_take_app.
  rewrite bool_decide_eq_true_2 by lia. done.
Qed.

Section LookupFacts.

Variable existsSync : string → bool.
Variable path_join : list string → string.
Variable path_sep : string.
Variable dirname : string.

Abbreviation probe := (Atlas.probe existsSync path_join path_sep dirname).
Abbreviation findIconPath := (Atlas.findIconPath existsSync path_join path_sep dirname).

(** A spelling answers when the manifest holds a non-empty path for it and
    the file of that path exists. *)
Lemma probe_Some (manifest : gmap string string) (v p : string) :
  probe manifest v = Some p ↔
  ∃ rel, manifest !! v = Some rel ∧ rel ≠ ""
    ∧ p = path_join [dirname; Str.replace_char_str "/"%char path_sep rel]
    ∧ existsSync p = true.
Proof.
  unfold Atlas.probe. destruct (manifest !! v) as [rel|]; [|by split; [|intros (? & ? & _)]].
  destruct (Js.truthy (Some rel)) eqn:Ht.
  - apply truthy_Some in Ht as (rel' & [= <-] & Hne).
    destruct (existsSync _) eqn:Hex.
    + split.
      * intros [= <-]. by exists rel.
      * by intros (rel' & [= <-] & _ & -> & _).
    + split; [done|]. intros (rel' & [= <-] & _ & -> & Hex'). congruence.
  - split; [done|]. intros (rel' & [= <-] & Hne & _).
    simpl in Ht. apply negb_false_iff, String.eqb_eq in Ht. done.
Qed.

(** C7 (as the code has it). For an identifier [ns:name] the lookup tries
    three spellings in order: the identifier itself, [ns:basename] (the
    last path segment of [name] without a trailing [.png]) and
    [ns:name_item], built from the whole [name], not from the basename. It
    returns the file of the first spelling that answers, and nothing when
    none does. *)
Theorem findIconPath_spellings (ns name : string) (manifest : gmap string string) :
  Str.index_of ":"%char ns = None →
  findIconPath (ns +:+ ":" +:+ name) manifest =
    match probe manifest (ns +:+ ":" +:+ name) with
    | Some p => Some p
    | None =>
        match probe manifest
                (ns +:+ ":" +:+ Str.strip_png (Str.last_segment name)) with
        | Some p => Some p
        | None => probe manifest (ns +:+ ":" +:+ name +:+ "_item")
        end
    end.
Proof.
  intros Hns. unfold Atlas.findIconPath.
  change (ns +:+ ":" +:+ name) with (ns +:+ String ":"%char name).
  rewrite (index_of_app _ _ _ Hns), str_take_app, str_drop_app. simpl.
  destruct (probe manifest (ns +:+ String ":"%char name)); [done|].
  destruct (probe manifest (ns +:+ ":" +:+ Str.strip_png (Str.last_segment name)));
    [done|].
  by destruct (probe manifest (ns +:+ ":" +:+ name +:+ "_item")).
Qed.

End LookupFacts.

Lemma findIconPath_spellings_witness :
  Atlas.findIconPath (Sample.existsSync {[ "/app/icons/atm/item/ae2.png" ]})
    Sample.path_join "/" "/app"
    "atm:textures/questpics/ae2.png" {[ "atm:ae2" := "icons/atm/item/ae2.png" ]}
  = Some "/app/icons/atm/item/ae2.png".
Proof.
  rewrite (findIconPath_spellings (Sample.existsSync {[ "/app/icons/atm/item/ae2.png" ]})
             Sample.path_join "/" "/app" "atm" "textures/questpics/ae2.png"
             {[ "atm:ae2" := "icons/atm/item/ae2.png" ]});
    by vm_compute.
Defined.

(** C7, counterexample. For [atm:textures/questpics/ae2.png] with only
    [atm:ae2_item] in the manifest, the lookup worded with
    [{ns}:{basename}_item] would answer; the script tries
    [atm:textures/questpics/ae2.png_item] instead and finds nothing. *)
Lemma findIconPath_third_spelling :
  Atlas.findIconPath_spec (Sample.existsSync {[ "/app/icons/atm/item/ae2_item.png" ]})
    Sample.path_join "/" "/app"
    "atm:textures/questpics/ae2.png" {[ "atm:ae2_item" := "icons/atm/item/ae2_item.png" ]}
  = Some "/app/icons/atm/item/ae2_item.png"
  ∧ Atlas.findIconPath (Sample.existsSync {[ "/app/icons/atm/item/ae2_item.png" ]})
      Sample.path_join "/" "/app"
      "atm:textures/questpics/ae2.png" {[ "atm:ae2_item" := "icons/atm/item/ae2_item.png" ]}
    = None.
Proof. split; by vm_compute. Qed.

(** ** Atlas packer *)

Lemma floor_div_cols (a : Z) : Atlas.floor_div a Atlas.COLS = a / 64.
Proof. unfold Atlas.floor_div, Atlas.COLS. cbn. by rewrite Z.mul_1_r. Qed.

Lemma ceil_div_cols (a : Z) : Atlas.ceil_div a Atlas.COLS = (a + 63) / 64.
Proof.
  unfold Atlas.ceil_div, Atlas.COLS, Qceiling. cbn. rewrite Z.mul_1_r.
  pose proof (Z.div_mod (- a) 64 ltac:(lia)) as H1.
  pose proof (Z.mod_pos_bound (- a) 64 ltac:(lia)) as H2.
  change (Z.pos (1 * 64)) with 64.
  apply (Z.div_unique _ _ _ (63 - (- a) mod 64)); lia.
Qed.

Section PackFacts.

Variable load : string → option (list Z).

Abbreviation packStep := (Atlas.packStep load).
Abbreviation packLoop := (Atlas.packLoop load).
Abbreviation buildAtlas := (Atlas.buildAtlas load).

Lemma packStep_skip (i : nat) (id file : string) (st : Atlas.pack) :
  load file = None → packStep i (id, file) st = st.
Proof. intros H. unfold Atlas.packStep. by rewrite H. Qed.

Lemma packStep_place (i : nat) (id file : string) (buf : list Z) (st : Atlas.pack) :
  load file = Some buf →
  Atlas.laid (packStep i (id, file) st)
  = Atlas.laid st ++ [Atlas.Tile buf (Z.of_nat i mod 64 * 16) (Z.of_nat i / 64 * 16)]
  ∧ Atlas.manifest (packStep i (id, file) st)
    = <[id := (Z.of_nat i mod 64 * 16, Z.of_nat i / 64 * 16)]> (Atlas.manifest st).
Proof.
  intros H. unfold Atlas.packStep. rewrite H, floor_div_cols.
  unfold Atlas.laid, Atlas.TILE, Atlas.COLS.
  destruct (decide _); simpl; [|by rewrite app_assoc].
  by rewrite app_nil_r, app_assoc.
Qed.

Lemma packLoop_cons (i : nat) (icon : string * string)
    (icons : list (string * string)) (st : Atlas.pack) :
  packLoop i (icon :: icons) st = packLoop (S i) icons (packStep i icon st).
Proof. done. Qed.

Lemma packLoop_laid (icons : list (string * string)) (i : nat) (st : Atlas.pack)
    (t : Atlas.tile) :
  t ∈ Atlas.laid (packLoop i icons st) ↔
  t ∈ Atlas.laid st
  ∨ ∃ (j : nat) id file buf,
      icons !! j = Some (id, file) ∧ load file = Some buf
      ∧ t = Atlas.Tile buf (Z.of_nat (i + j) mod 64 * 16) (Z.of_nat (i + j) / 64 * 16).
Proof.
  revert i st. induction icons as [|[id file] icons IH]; intros i st.
  - split; [by left|]. intros [H | (j & ? & ? & ? & Hj & _)]; [done|].
    by rewrite lookup_nil in Hj.
  - rewrite packLoop_cons, IH. destruct (load file) as [buf|] eqn:Hload.
    + destruct (packStep_place i id file buf st Hload) as [-> _].
      rewrite elem_of_app, list_elem_of_singleton. split.
      * intros [[H | ->] | (j & id' & file' & buf' & Hj & Hl & ->)].
        -- by left.
        -- right. exists 0%nat, id, file, buf. rewrite Nat.add_0_r. done.
        -- right. exists (S j), id', file', buf'.
           replace (i + S j)%nat with (S i + j)%nat by lia. done.
      * intros [H | (j & id' & file' & buf' & Hj & Hl & ->)]; [by left; left|].
        destruct j as [|j]; simpl in Hj.
        -- injection Hj as <- <-. rewrite Hload in Hl. injection Hl as <-.
           left; right. by rewrite Nat.add_0_r.
        -- right. exists j, id', file', buf'.
           replace (S i + j)%nat with (i + S j)%nat by lia. done.
    + rewrite (packStep_skip i id file st Hload). split.
      * intros [H | (j & id' & file' & buf' & Hj & Hl & ->)]; [by left|].
        right. exists (S j), id', file', buf'.
        replace (i + S j)%nat with (S i + j)%nat by lia. done.
      * intros [H | (j & id' & file' & buf' & Hj & Hl & ->)]; [by left|].
        destruct j as [|j]; simpl in Hj.
        -- injection Hj as <- <-. congruence.
        -- right. exists j, id', file', buf'.
           replace (S i + j)%nat with (i + S j)%nat by lia. done.
Qed.

Lemma packLoop_manifest (icons : list (string * string)) (i : nat) (st : Atlas.pack)
    (id : string) (x y : Z) :
  Atlas.manifest (packLoop i icons st) !! id = Some (x, y) →
  Atlas.manifest st !! id = Some (x, y)
  ∨ ∃ (j : nat) file buf,
      icons !! j = Some (id, file) ∧ load file = Some buf
      ∧ x = Z.of_nat (i + j) mod 64 * 16 ∧ y = Z.of_nat (i + j) / 64 * 16.
Proof.
  revert i st. induction icons as [|[id0 file] icons IH]; intros i st.
  - by left.
  - rewrite packLoop_cons. intros H. apply IH in H as [H | (j & file' & buf' & Hj & Hl & -> & ->)].
    + destruct (load file) as [buf|] eqn:Hload.
      * destruct (packStep_place i id0 file buf st Hload) as [_ Hm].
        rewrite Hm in H. destruct (decide (id0 = id)) as [->|Hne].
        -- rewrite lookup_insert_eq in H. injection H as <- <-.
           right. exists 0%nat, file, buf. by rewrite Nat.add_0_r.
        -- rewrite lookup_insert_ne in H by done. by left.
      * rewrite (packStep_skip i id0 file st Hload) in H. by left.
    + right. exists (S j), file', buf'.
      replace (i + S j)%nat with (S i + j)%nat by lia. done.
Qed.

Lemma packLoop_manifest_untouched (icons : list (string * string)) (i : nat)
    (st : Atlas.pack) (id : string) :
  (∀ (j : nat) file, icons !! j = Some (id, file) → load file = None) →
  Atlas.manifest (packLoop i icons st) !! id = Atlas.manifest st !! id.
Proof.
  revert i st. induction icons as [|[id0 file] icons IH]; intros i st Hfail.
  - done.
  - rewrite packLoop_cons, IH by (intros j file' Hj; by apply (Hfail (S j))).
    destruct (load file) as [buf|] eqn:Hload.
    + destruct (packStep_place i id0 file buf st Hload) as [_ ->].
      destruct (decide (id0 = id)) as [->|Hne].
      * specialize (Hfail 0%nat file eq_refl). congruence.
      * by rewrite lookup_insert_ne.
    + by rewrite (packStep_skip i id0 file st Hload).
Qed.

Lemma packLoop_manifest_distinct (icons : list (string * string)) (i j : nat)
    (st : Atlas.pack) (id file : string) (buf : list Z) :
  NoDup icons.*1 →
  icons !! j = Some (id, file) → load file = Some buf →
  Atlas.manifest (packLoop i icons st) !! id
  = Some (Z.of_nat (i + j) mod 64 * 16, Z.of_nat (i + j) / 64 * 16).
Proof.
  revert i j st. induction icons as [|[id0 file0] icons IH]; intros i j st Hnd Hj Hl.
  - by rewrite lookup_nil in Hj.
  - simpl in Hnd. apply NoDup_cons in Hnd as [Hnotin Hnd].
    rewrite packLoop_cons. destruct j as [|j]; simpl in Hj.
    + injection Hj as -> ->.
      rewrite packLoop_manifest_untouched.
      * destruct (packStep_place i id file buf st Hl) as [_ ->].
        by rewrite lookup_insert_eq, Nat.add_0_r.
      * intros j file' Hj. exfalso. apply Hnotin.
        apply list_elem_of_fmap. exists (id, file'). split; [done|].
        by eapply list_elem_of_lookup_2.
    + replace (i + S j)%nat with (S i + j)%nat by lia. by eapply IH.
Qed.

Lemma buildAtlas_canvas (icons : list (string * string)) :
  Atlas.canvas (buildAtlas icons) = Atlas.laid (packLoop 0 icons (Atlas.Pack [] [] ∅)).
Proof.
  unfold Atlas.buildAtlas, Atlas.laid. simpl.
  destruct (decide _) as [|Hempty]; [done|].
  destruct (Atlas.composites _); [by rewrite app_nil_r | simpl in Hempty; lia].
Qed.

Lemma slot_injective (i j : nat) :
  Z.of_nat j mod 64 * 16 = Z.of_nat i mod 64 * 16 →
  Z.of_nat j / 64 * 16 = Z.of_nat i / 64 * 16 → j = i.
Proof.
  intros Hx Hy.
  pose proof (Z.div_mod (Z.of_nat i) 64 ltac:(lia)).
  pose proof (Z.div_mod (Z.of_nat j) 64 ltac:(lia)).
  lia.
Qed.

Lemma slot_inside (i n : nat) :
  (i < n)%nat →
  0 ≤ Z.of_nat i mod 64 * 16 ≤ 64 * 16 - 16
  ∧ 0 ≤ Z.of_nat i / 64 * 16 ≤ (Z.of_nat n + 63) / 64 * 16 - 16.
Proof.
  intros Hi.
  pose proof (Z.mod_pos_bound (Z.of_nat i) 64 ltac:(lia)).
  pose proof (Z.div_mod (Z.of_nat i) 64 ltac:(lia)).
  pose proof (Z.div_mod (Z.of_nat n + 63) 64 ltac:(lia)).
  pose proof (Z.mod_pos_bound (Z.of_nat n + 63) 64 ltac:(lia)).
  lia.
Qed.




(** C8. An entry whose image fails to load is skipped: no tile is
    composited at the slot of its index, its identifier gets no coordinates
    (unless the same identifier is also listed with an image that loads),
    and every entry that loads is still composited at the slot of its own
    input index, which is also what the [icons] mapping records for it when
    the identifiers are distinct. *)
Theorem atlas_skips_failed (icons : list (string * string)) (i : nat) (id file : string) :
  icons !! i = Some (id, file) → load file = None →
  (∀ t, t ∈ Atlas.canvas (buildAtlas icons) →
     ¬ (Atlas.left t = Z.of_nat i mod 64 * 16 ∧ Atlas.top t = Z.of_nat i / 64 * 16))
  ∧ ((∀ (j : nat) file', icons !! j = Some (id, file') → load file' = None) →
     Atlas.icons (buildAtlas icons) !! id = None)
  ∧ (NoDup icons.*1 → Atlas.icons (buildAtlas icons) !! id = None)
  ∧ (∀ (j : nat) idj filej buf,
       icons !! j = Some (idj, filej) → load filej = Some buf →
       j ≠ i
       ∧ Atlas.Tile buf (Z.of_nat j mod 64 * 16) (Z.of_nat j / 64 * 16)
           ∈ Atlas.canvas (buildAtlas icons)
       ∧ (NoDup icons.*1 →
          Atlas.icons (buildAtlas icons) !! idj
          = Some (Z.of_nat j mod 64 * 16, Z.of_nat j / 64 * 16))).
Proof.
  intros Hi Hfail.
  assert ((∀ (j : nat) file', icons !! j = Some (id, file') → load file' = None) →
          Atlas.icons (buildAtlas icons) !! id = None) as Hnone.
  { intros Hall. unfold Atlas.buildAtlas. simpl.
    by rewrite packLoop_manifest_untouched. }
  split; [|split; [|split]].
  - intros t. rewrite buildAtlas_canvas, packLoop_laid.
    intros [H | (j & idj & filej & buf & Hj & Hl & ->)] [Hx Hy].
    + by apply elem_of_nil in H.
    + simpl in Hx, Hy. apply slot_injective in Hx; [|done]. subst j.
      rewrite Hi in Hj. injection Hj as <- <-. congruence.
  - done.
  - intros Hnd. apply Hnone. intros j file' Hj.
    assert (j = i) as ->.
    { apply (NoDup_lookup icons.*1 j i id Hnd);
        rewrite list_lookup_fmap; [by rewrite Hj | by rewrite Hi]. }
    rewrite Hi in Hj. by injection Hj as <-.
  - intros j idj filej buf Hj Hl. split; [|split].
    + intros ->. rewrite Hi in Hj. injection Hj as <- <-. congruence.
    + rewrite buildAtlas_canvas, packLoop_laid. right. by exists j, idj, filej, buf.
    + intros Hnd. unfold Atlas.buildAtlas. simpl.
      by rewrite (packLoop_manifest_distinct icons 0 j _ idj filej buf).
Qed.

(** C9. Every coordinate pair of the [icons] mapping is a non-negative
    multiple of the tile size and leaves room for a whole tile inside the
    canvas: [x <= width - tile] and [y <= height - tile]. *)
Theorem atlas_icons_inside_canvas (icons : list (string * string))
    (id : string) (x y : Z) :
  Atlas.icons (buildAtlas icons) !! id = Some (x, y) →
  0 ≤ x ∧ 0 ≤ y
  ∧ (Atlas.a_tile (buildAtlas icons) | x) ∧ (Atlas.a_tile (buildAtlas icons) | y)
  ∧ x ≤ Atlas.a_width (buildAtlas icons) - Atlas.a_tile (buildAtlas icons)
  ∧ y ≤ Atlas.a_height (buildAtlas icons) - Atlas.a_tile (buildAtlas icons).
Proof.
  intros H.
  assert (Atlas.a_height (buildAtlas icons) = (Z.of_nat (length icons) + 63) / 64 * 16)
    as Hh.
  { change (Atlas.a_height (buildAtlas icons))
      with (Atlas.ceil_div (Z.of_nat (length icons)) Atlas.COLS * Atlas.TILE).
    by rewrite ceil_div_cols. }
  rewrite Hh.
  change (Atlas.a_tile (buildAtlas icons)) with 16.
  change (Atlas.a_width (buildAtlas icons)) with (64 * 16).
  apply packLoop_manifest in H as [H | (j & file & buf & Hj & _ & -> & ->)].
  { simpl in H. by rewrite lookup_empty in H. }
  apply lookup_lt_Some in Hj. simpl.
  destruct (slot_inside j (length icons) Hj) as [Hx Hy].
  split; [lia|]. split; [lia|].
  split; [by eexists|]. split; [by eexists|]. lia.
Qed.

End PackFacts.



Lemma atlas_skips_failed_witness :
  Atlas.icons (Atlas.buildAtlas Sample.load Sample.three_icons) !! "a:y" = None
  ∧ Atlas.icons (Atlas.buildAtlas Sample.load Sample.three_icons) !! "a:z"
    = Some (Z.of_nat 2 mod 64 * 16, Z.of_nat 2 / 64 * 16).
Proof.
  assert (NoDup Sample.three_icons.*1) as Hnd by compute_done.
  destruct (atlas_skips_failed Sample.load Sample.three_icons 1 "a:y" "broken.png"
              eq_refl eq_refl) as (_ & _ & Hnone & Hothers).
  split; [by apply Hnone|].
  destruct (Hothers 2%nat "a:z" "z.png" (replicate 1024 255) eq_refl eq_refl)
    as (_ & _ & Hz).
  by apply Hz.
Defined.

Lemma atlas_icons_inside_canvas_witness :
  0 ≤ 32 ∧ 0 ≤ 0
  ∧ (Atlas.a_tile (Atlas.buildAtlas Sample.load Sample.three_icons) | 32)
  ∧ (Atlas.a_tile (Atlas.buildAtlas Sample.load Sample.three_icons) | 0)
  ∧ 32 ≤ Atlas.a_width (Atlas.buildAtlas Sample.load Sample.three_icons)
         - Atlas.a_tile (Atlas.buildAtlas Sample.load Sample.three_icons)
  ∧ 0 ≤ Atlas.a_height (Atlas.buildAtlas Sample.load Sample.three_icons)
        - Atlas.a_tile (Atlas.buildAtlas Sample.load Sample.three_icons).
Proof.
  apply (atlas_icons_inside_canvas Sample.load Sample.three_icons "a:z" 32 0).
  by vm_compute.
Defined.

(** The packer on three entries, the second of which does not load: one
    row, two tiles, the third entry still at the third slot. *)
Example atlas_three_icons :
  let a := Atlas.buildAtlas Sample.load Sample.three_icons in
  (Atlas.a_tile a, Atlas.a_cols a, Atlas.a_rows a, Atlas.a_width a, Atlas.a_height a)
  = (16, 64, 1, 1024, 16)
  ∧ map (λ t, (Atlas.left t, Atlas.top t)) (Atlas.canvas a) = [(0, 0); (32, 0)]
  ∧ Atlas.icons a !! "a:x" = Some (0, 0)
  ∧ Atlas.icons a !! "a:y" = None
  ∧ Atlas.icons a !! "a:z" = Some (32, 0).
Proof. by vm_compute. Qed.


(** * More of the archive reader *)

Lemma lor_shiftl_add (a b n : Z) :
  0 ≤ n → 0 ≤ a < 2 ^ n → Z.lor a (Z.shiftl b n) = a + b * 2 ^ n.
Proof.
  intros Hn Ha.
  assert (Z.land a (Z.shiftl b n) = 0) as Hland.
  { apply Z.bits_inj'. intros k Hk. rewrite Z.land_spec, Z.bits_0.
    destruct (Z.lt_ge_cases k n) as [Hlt|Hge].
    - by rewrite Z.shiftl_spec_low, andb_false_r.
    - assert (Z.testbit a k = false) as ->; [|done].
      destruct (decide (a = 0)) as [->|Hne]; [apply Z.bits_0|].
      apply Z.bits_above_log2; [lia|].
      apply Z.log2_lt_pow2; [lia|].
      eapply Z.lt_le_trans; [apply Ha|]. apply Z.pow_le_mono_r; lia. }
  rewrite <- Z.lxor_lor, <- Z.add_nocarry_lxor by done.
  by rewrite Z.shiftl_mul_pow2.
Qed.


Lemma to_int_at (buf : list Z) (o : nat) :
  Zip.to_int (Zip.at_ buf (Z.of_nat o)) = nth o buf 0.
Proof.
  unfold Zip.at_, Zip.to_int. destruct (Z.ltb_spec (Z.of_nat o) 0); [lia|].
  rewrite Nat2Z.id. rewrite nth_lookup. done.
Qed.

Lemma nth_byte (buf : list Z) (o : nat) :
  Forall Zip.is_byte buf → Zip.is_byte (nth o buf 0).
Proof.
  intros Hb. rewrite nth_lookup. destruct (buf !! o) as [b|] eqn:Ho; simpl.
  - by eapply Forall_lookup_1.
  - unfold Zip.is_byte. lia.
Qed.

(** X1. On a buffer of bytes [readUInt16LE] is the little-endian value of
    the two bytes at the offset, a number below 65536; a byte past the end
    of the buffer counts as zero. *)
Theorem readUInt16LE_value (buf : list Z) (o : nat) :
  Forall Zip.is_byte buf →
  Zip.readUInt16LE buf (Z.of_nat o) = nth o buf 0 + 256 * nth (S o) buf 0
  ∧ 0 ≤ Zip.readUInt16LE buf (Z.of_nat o) < 65536.
Proof.
  intros Hb. unfold Zip.readUInt16LE.
  replace (Z.of_nat o + 1) with (Z.of_nat (S o)) by lia.
  rewrite !to_int_at.
  pose proof (nth_byte buf o Hb) as H0.
  pose proof (nth_byte buf (S o) Hb) as H1. unfold Zip.is_byte in *.
  rewrite (lor_shiftl_add _ _ 8) by lia. change (2 ^ 8) with 256. lia.
Qed.

(** X2. On a buffer of bytes [readUInt32LE] is the little-endian value of
    the four bytes at the offset, a number below [2^32] (never negative,
    also when the top byte is 128 or more); bytes past the end count as
    zero. *)
Theorem readUInt32LE_value (buf : list Z) (o : nat) :
  Forall Zip.is_byte buf →
  Zip.readUInt32LE buf (Z.of_nat o)
  = nth o buf 0 + 256 * nth (S o) buf 0 + 65536 * nth (S (S o)) buf 0
    + 16777216 * nth (S (S (S o))) buf 0
  ∧ 0 ≤ Zip.readUInt32LE buf (Z.of_nat o) < 2 ^ 32.
Proof.
  intros Hb. unfold Zip.readUInt32LE.
  replace (Z.of_nat o + 1) with (Z.of_nat (S o)) by lia.
  replace (Z.of_nat o + 2) with (Z.of_nat (S (S o))) by lia.
  replace (Z.of_nat o + 3) with (Z.of_nat (S (S (S o)))) by lia.
  rewrite !to_int_at.
  pose proof (nth_byte buf o Hb) as H0.
  pose proof (nth_byte buf (S o) Hb) as H1.
  pose proof (nth_byte buf (S (S o)) Hb) as H2.
  pose proof (nth_byte buf (S (S (S o))) Hb) as H3. unfold Zip.is_byte in *.
  rewrite (lor_shiftl_add _ _ 8) by lia. change (2 ^ 8) with 256.
  rewrite (lor_shiftl_add _ _ 16) by (change (2 ^ 16) with 65536; lia).
  change (2 ^ 16) with 65536.
  rewrite (lor_shiftl_add _ _ 24) by (change (2 ^ 24) with 16777216; lia).
  change (2 ^ 24) with 16777216. change (2 ^ 32) with 4294967296.
  rewrite Z.mod_small by lia. lia.
Qed.

Lemma decode16 (v : Z) :
  0 ≤ v < 65536 → Z.lor (v mod 256) (Z.shiftl (v / 256) 8) = v.
Proof.
  intros Hv. pose proof (Z.mod_pos_bound v 256 ltac:(lia)).
  rewrite (lor_shiftl_add _ _ 8) by lia. change (2 ^ 8) with 256.
  pose proof (Z.div_mod v 256 ltac:(lia)). lia.
Qed.

Lemma decode32 (v : Z) :
  0 ≤ v < 2 ^ 32 →
  Z.lor (Z.lor (Z.lor (v mod 256) (Z.shiftl (v / 256 mod 256) 8))
               (Z.shiftl (v / 65536 mod 256) 16))
        (Z.shiftl (v / 16777216) 24) mod 2 ^ 32 = v.
Proof.
  change (2 ^ 32) with 4294967296. intros Hv.
  pose proof (Z.mod_pos_bound v 256 ltac:(lia)).
  pose proof (Z.mod_pos_bound (v / 256) 256 ltac:(lia)).
  pose proof (Z.mod_pos_bound (v / 65536) 256 ltac:(lia)).
  pose proof (Z.div_mod v 256 ltac:(lia)).
  pose proof (Z.div_mod (v / 256) 256 ltac:(lia)).
  pose proof (Z.div_mod (v / 65536) 256 ltac:(lia)).
  assert (v / 256 / 256 = v / 65536) as E1 by (rewrite Z.div_div by lia; done).
  assert (v / 65536 / 256 = v / 16777216) as E2 by (rewrite Z.div_div by lia; done).
  rewrite E1 in *. rewrite E2 in *.
  rewrite (lor_shiftl_add _ _ 8) by lia. change (2 ^ 8) with 256.
  rewrite (lor_shiftl_add _ _ 16) by (change (2 ^ 16) with 65536; lia).
  change (2 ^ 16) with 65536.
  rewrite (lor_shiftl_add _ _ 24) by (change (2 ^ 24) with 16777216; lia).
  change (2 ^ 24) with 16777216.
  rewrite Z.mod_small by lia. lia.
Qed.

Lemma readUInt32LE_inside (pre mid post : list Z) (o : Z) :
  0 ≤ o → o + 3 < Z.of_nat (length mid) →
  Zip.readUInt32LE (pre ++ mid ++ post) (Z.of_nat (length pre) + o)
  = Zip.readUInt32LE mid o.
Proof.
  intros Ho Hlt. unfold Zip.readUInt32LE.
  replace (Z.of_nat (length pre) + o + 1) with (Z.of_nat (length pre) + (o + 1)) by lia.
  replace (Z.of_nat (length pre) + o + 2) with (Z.of_nat (length pre) + (o + 2)) by lia.
  replace (Z.of_nat (length pre) + o + 3) with (Z.of_nat (length pre) + (o + 3)) by lia.
  rewrite !at_app_r by lia. by rewrite !at_app_l by lia.
Qed.

Lemma is_cdh_inside (pre mid post : list Z) :
  (4 ≤ length mid)%nat →
  Zip.is_cdh (pre ++ mid ++ post) (Z.of_nat (length pre)) = Zip.is_cdh mid 0.
Proof.
  intros Hlen.
  replace (Z.of_nat (length pre)) with (Z.of_nat (length pre) + 0) by lia.
  unfold Zip.is_cdh. rewrite <- !Z.add_assoc. simpl (0 + _).
  rewrite !at_app_r by lia. by rewrite !at_app_l by lia.
Qed.

Lemma is_eocd_inside (pre mid post : list Z) :
  (4 ≤ length mid)%nat →
  Zip.is_eocd (pre ++ mid ++ post) (Z.of_nat (length pre)) = Zip.is_eocd mid 0.
Proof.
  intros Hlen.
  replace (Z.of_nat (length pre)) with (Z.of_nat (length pre) + 0) by lia.
  unfold Zip.is_eocd. rewrite <- !Z.add_assoc. simpl (0 + _).
  rewrite !at_app_r by lia. by rewrite !at_app_l by lia.
Qed.

Lemma cd_fixed_length (c : Fixture.cd_item) : length (Fixture.cd_fixed c) = 46%nat.
Proof. done. Qed.

Lemma cd_record_length (c : Fixture.cd_item) :
  length (Fixture.cd_record c)
  = (46 + length (Fixture.ci_name c) + length (Fixture.ci_extra c)
     + length (Fixture.ci_comment c))%nat.
Proof. unfold Fixture.cd_record. rewrite !length_app, cd_fixed_length. lia. Qed.

Lemma cd_fixed_fields (c : Fixture.cd_item) :
  Fixture.cd_item_ok c →
  Zip.is_cdh (Fixture.cd_fixed c) 0 = true
  ∧ Zip.readUInt16LE (Fixture.cd_fixed c) 10 = Z.of_nat (Fixture.ci_method c)
  ∧ Zip.readUInt32LE (Fixture.cd_fixed c) 20 = Z.of_nat (Fixture.ci_size c)
  ∧ Zip.readUInt16LE (Fixture.cd_fixed c) 28 = Z.of_nat (length (Fixture.ci_name c))
  ∧ Zip.readUInt16LE (Fixture.cd_fixed c) 30 = Z.of_nat (length (Fixture.ci_extra c))
  ∧ Zip.readUInt16LE (Fixture.cd_fixed c) 32 = Z.of_nat (length (Fixture.ci_comment c))
  ∧ Zip.readUInt32LE (Fixture.cd_fixed c) 42 = Z.of_nat (Fixture.ci_offset c).
Proof.
  intros (Hm & Hs & Ho & Hn & Hx & Hc).
  split; [done|].
  repeat split; first [apply decode16 | apply decode32]; lia.
Qed.

Section ParseFacts.

Variable toString : list Z → string.

Abbreviation parseZip_loop := (Zip.parseZip_loop toString).
Abbreviation parseZip := (Zip.parseZip toString).

(** The loop does not depend on the fuel once there is enough of it. *)
Lemma parseZip_loop_fuel (f f' : nat) (buf : list Z) (pos : nat) :
  (length buf ≤ pos + f)%nat → (length buf ≤ pos + f')%nat →
  parseZip_loop f buf pos = parseZip_loop f' buf pos.
Proof.
  revert f' pos. induction f as [|f IH]; intros f' pos Hf Hf'.
  - destruct f'; simpl; destruct (decide _); try done; lia.
  - destruct f' as [|f']; simpl.
    + destruct (decide _); [lia | done].
    + destruct (decide _); [|done].
      destruct (negb _); [done|]. f_equal. apply IH; lia.
Qed.

Lemma parseZip_loop_length (f : nat) (buf : list Z) (pos : nat) :
  (46 * length (parseZip_loop f buf pos) ≤ length buf - pos)%nat.
Proof.
  revert pos. induction f as [|f IH]; intros pos; simpl.
  - destruct (decide _); simpl; lia.
  - destruct (decide _); [|simpl; lia].
    destruct (negb _); [simpl; lia|]. simpl.
    match goal with |- context [parseZip_loop f buf ?p] => specialize (IH p) end.
    lia.
Qed.

Lemma parseZip_loop_directory (items : list Fixture.cd_item) (f : nat)
    (pre tail : list Z) :
  Forall Fixture.cd_item_ok items →
  (length tail < 46)%nat →
  (length (pre ++ concat (map Fixture.cd_record items) ++ tail) ≤ length pre + f)%nat →
  parseZip_loop f (pre ++ concat (map Fixture.cd_record items) ++ tail) (length pre)
  = map (Fixture.entry_of toString) items.
Proof.
  revert f pre. induction items as [|c items IH]; intros f pre Hok Htail Hfuel.
  - simpl. destruct f; simpl; destruct (decide _) as [Hle|]; try done;
      rewrite length_app in Hle; lia.
  - apply Forall_cons in Hok as [Hc Hok].
    destruct (cd_fixed_fields c Hc) as (Hsig & Hm & Hs & Hn & Hx & Hcm & Ho).
    pose proof (cd_fixed_length c) as Hfix.
    pose proof (cd_record_length c) as Hrec.
    cbn [map concat] in Hfuel |- *.
    set (post := concat (map Fixture.cd_record items) ++ tail).
    assert (pre ++ (Fixture.cd_record c ++ concat (map Fixture.cd_record items)) ++ tail
            = pre ++ Fixture.cd_fixed c
              ++ (Fixture.ci_name c ++ Fixture.ci_extra c ++ Fixture.ci_comment c ++ post))
      as Hbuf.
    { unfold post, Fixture.cd_record. by rewrite <- !app_assoc. }
    rewrite Hbuf in Hfuel |- *.
    destruct f as [|f].
    { rewrite !length_app, Hfix in Hfuel. lia. }
    cbn [Zip.parseZip_loop]. rewrite decide_True by (rewrite !length_app, Hfix; lia).
    rewrite is_cdh_inside by (rewrite Hfix; lia). rewrite Hsig. cbn [negb].
    rewrite !readUInt16LE_inside, !readUInt32LE_inside by (rewrite ?Hfix; lia).
    rewrite Hm, Hs, Hn, Hx, Hcm, Ho, !Nat2Z.id.
    unfold Fixture.entry_of at 1. f_equal.
    + f_equal.
      replace (pre ++ Fixture.cd_fixed c
               ++ Fixture.ci_name c ++ Fixture.ci_extra c ++ Fixture.ci_comment c ++ post)
        with ((pre ++ Fixture.cd_fixed c)
              ++ Fixture.ci_name c ++ Fixture.ci_extra c ++ Fixture.ci_comment c ++ post)
        by by rewrite <- !app_assoc.
      replace (length pre + 46)%nat with (length (pre ++ Fixture.cd_fixed c))
        by (rewrite length_app, Hfix; lia).
      by rewrite slice_middle.
    + replace (pre ++ Fixture.cd_fixed c
               ++ Fixture.ci_name c ++ Fixture.ci_extra c ++ Fixture.ci_comment c ++ post)
        with ((pre ++ Fixture.cd_record c)
              ++ concat (map Fixture.cd_record items) ++ tail)
        by (unfold post, Fixture.cd_record; by rewrite <- !app_assoc).
      replace (length pre + 46 + length (Fixture.ci_name c)
               + length (Fixture.ci_extra c) + length (Fixture.ci_comment c))%nat
        with (length (pre ++ Fixture.cd_record c))
        by (rewrite length_app, Hrec; lia).
      apply IH; [done | done |].
      rewrite !length_app, ?Hfix, ?Hrec in Hfuel |- *. unfold post in Hfuel.
      rewrite !length_app in Hfuel. lia.
Qed.

Lemma eocd_fields (x : nat) :
  Z.of_nat x < 2 ^ 32 →
  length (Fixture.eocd x) = 22%nat
  ∧ Zip.is_eocd (Fixture.eocd x) 0 = true
  ∧ Zip.readUInt32LE (Fixture.eocd x) 16 = Z.of_nat x.
Proof.
  intros Hx. split; [done|]. split; [done|]. apply decode32. lia.
Qed.

Lemma findEOCD_at_end (body : list Z) (x : nat) :
  Z.of_nat x < 2 ^ 32 →
  Zip.findEOCD (body ++ Fixture.eocd x) = Z.of_nat (length body).
Proof.
  intros Hx. destruct (eocd_fields x Hx) as (Hlen & Hsig & _).
  unfold Zip.findEOCD. rewrite length_app, Hlen.
  replace (Z.to_nat (Z.of_nat (length body + 22) - 22 + 1)) with (S (length body)) by lia.
  cbn [Zip.findEOCD_loop].
  rewrite <- (app_nil_r (Fixture.eocd x)).
  rewrite is_eocd_inside by (rewrite Hlen; lia). by rewrite Hsig.
Qed.

Lemma parseZip_directory_start (pre : list Z) (items : list Fixture.cd_item) :
  Z.of_nat (length pre) < 2 ^ 32 →
  parseZip (Fixture.directory pre items)
  = parseZip_loop (length (Fixture.directory pre items))
      (Fixture.directory pre items) (length pre).
Proof.
  intros Hpre. destruct (eocd_fields (length pre) Hpre) as (Hlen & _ & Hoff).
  unfold Zip.parseZip, Fixture.directory.
  set (cd := concat (map Fixture.cd_record items)).
  assert (Zip.findEOCD (pre ++ cd ++ Fixture.eocd (length pre))
          = Z.of_nat (length (pre ++ cd))) as ->.
  { rewrite app_assoc. by apply findEOCD_at_end. }
  rewrite decide_False by lia.
  assert (Zip.readUInt32LE (pre ++ cd ++ Fixture.eocd (length pre))
            (Z.of_nat (length (pre ++ cd)) + 16) = Z.of_nat (length pre)) as ->.
  { rewrite app_assoc, <- (app_nil_r (Fixture.eocd (length pre))).
    rewrite readUInt32LE_inside by (rewrite ?Hlen; lia). done. }
  by rewrite Nat2Z.id.
Qed.

(** X3. A buffer made of arbitrary leading bytes, a central directory and the
    end record: [parseZip] lists exactly the records of the directory, in
    directory order, with their name, method, size and offset. *)
Theorem parseZip_lists_directory (pre : list Z) (items : list Fixture.cd_item) :
  Forall Fixture.cd_item_ok items →
  Z.of_nat (length pre) < 2 ^ 32 →
  parseZip (Fixture.directory pre items) = map (Fixture.entry_of toString) items.
Proof.
  intros Hok Hpre. rewrite parseZip_directory_start by done.
  unfold Fixture.directory.
  apply parseZip_loop_directory; [done | simpl; lia | lia].
Qed.

(** X4. Without an end-of-central-directory signature (in particular in a
    buffer shorter than 22 bytes) [parseZip] lists nothing. *)
Theorem parseZip_without_signature (buf : list Z) :
  (∀ i : Z, 0 ≤ i ≤ Z.of_nat (length buf) - 22 → Zip.is_eocd buf i = false) →
  parseZip buf = [].
Proof.
  intros Hno. unfold Zip.parseZip.
  assert (Zip.findEOCD buf = -1) as ->; [|done].
  apply findEOCD_loop_none. intros i Hi. apply Hno. lia.
Qed.

(** X5. Whatever the bytes are, the listing loop ends, and it lists at most
    one entry per 46 bytes of the buffer. *)
Theorem parseZip_entry_count (buf : list Z) :
  (46 * length (parseZip buf) ≤ length buf)%nat.
Proof.
  unfold Zip.parseZip. destruct (decide _); [simpl; lia|].
  match goal with |- context [parseZip_loop _ buf ?p] =>
    pose proof (parseZip_loop_length (length buf) buf p) end.
  lia.
Qed.

Variable inflateRawSync : list Z → option (list Z).

(** X7. A Stored entry whose header fits is never refused: the result is
    what the buffer holds from the data offset on, cut at [compSize] bytes.
    When the data runs past the end of the buffer this is fewer than
    [compSize] bytes (possibly none), not [null]. *)
Theorem extractEntry_stored_truncates (buf : list Z) (e : Zip.entry) :
  Zip.compression e = 0%nat →
  (Zip.localOffset e + 30 ≤ length buf)%nat →
  ∃ data,
    Zip.extractEntry inflateRawSync buf e = Some data
    ∧ length data
      = Nat.min (Zip.compSize e)
          (length buf
           - (Zip.localOffset e + 30
              + Z.to_nat (Zip.readUInt16LE buf (Z.of_nat (Zip.localOffset e) + 26))
              + Z.to_nat (Zip.readUInt16LE buf (Z.of_nat (Zip.localOffset e) + 28))))
    ∧ ∀ i : nat, (i < length data)%nat →
        data !! i
        = buf !! (Zip.localOffset e + 30
                  + Z.to_nat (Zip.readUInt16LE buf (Z.of_nat (Zip.localOffset e) + 26))
                  + Z.to_nat (Zip.readUInt16LE buf (Z.of_nat (Zip.localOffset e) + 28))
                  + i)%nat.
Proof.
  intros Hm Hh. eexists. unfold Zip.extractEntry.
  rewrite decide_False by lia. rewrite decide_True by done.
  split; [reflexivity|]. unfold Zip.slice. split.
  - rewrite length_take, length_drop. lia.
  - intros i Hi. rewrite length_take in Hi.
    rewrite lookup_take_lt by lia. apply lookup_drop.
Qed.

Lemma items_from_lookup (files : list Fixture.file) (off i : nat) (f : Fixture.file) :
  files !! i = Some f →
  Fixture.items_from off files !! i
  = Some (Fixture.CdItem (Fixture.f_name f) (Fixture.f_extra f) [] (Fixture.f_method f)
            (length (Fixture.f_data f))
            (off + length (concat (map Fixture.local_record (take i files))))).
Proof.
  revert off i. induction files as [|g files IH]; intros off i Hi; [done|].
  destruct i as [|i]; simpl in Hi.
  - injection Hi as ->. cbn [Fixture.items_from take map concat lookup list_lookup].
    simpl length. by rewrite Nat.add_0_r.
  - cbn [Fixture.items_from take map concat]. rewrite lookup_cons_ne_0 by done.
    simpl Nat.pred. rewrite (IH _ _ Hi), length_app. do 2 f_equal. lia.
Qed.

Lemma items_from_ok (files : list Fixture.file) (off : nat) :
  Forall Fixture.file_ok files →
  Z.of_nat (off + length (concat (map Fixture.local_record files))) < 2 ^ 32 →
  Forall Fixture.cd_item_ok (Fixture.items_from off files).
Proof.
  revert off. induction files as [|g files IH]; intros off Hok Hlen; [done|].
  apply Forall_cons in Hok as [(Hm & Hd & Hn & Hx) Hok].
  cbn [Fixture.items_from map concat] in *. rewrite length_app in Hlen.
  apply Forall_cons. split.
  - unfold Fixture.cd_item_ok. simpl. repeat split; lia.
  - apply IH; [done|]. lia.
Qed.

Lemma local_header_fields (f : Fixture.file) :
  Fixture.file_ok f →
  length (Fixture.local_header f) = 30%nat
  ∧ Zip.readUInt16LE (Fixture.local_header f) 26 = Z.of_nat (length (Fixture.f_name f))
  ∧ Zip.readUInt16LE (Fixture.local_header f) 28 = Z.of_nat (length (Fixture.f_extra f)).
Proof.
  intros (Hm & Hd & Hn & Hx). split; [done|]. split; apply decode16; lia.
Qed.

(** X6. Listing composed with extraction. In an archive built from files
    (local records, then the directory, then the end record), the [i]-th
    listed entry carries the name and method of the [i]-th file, and
    extracting it returns the file's data for Stored, the inflation of the
    data for Deflate, and [null] for any other method. *)
Theorem archive_list_then_extract (files : list Fixture.file) (i : nat)
    (f : Fixture.file) :
  Forall Fixture.file_ok files →
  Z.of_nat (length (concat (map Fixture.local_record files))) < 2 ^ 32 →
  files !! i = Some f →
  length (parseZip (Fixture.archive files)) = length files
  ∧ ∃ e, parseZip (Fixture.archive files) !! i = Some e
      ∧ Zip.name e = toString (Fixture.f_name f)
      ∧ Zip.compression e = Fixture.f_method f
      ∧ Zip.extractEntry inflateRawSync (Fixture.archive files) e
        = if decide (Fixture.f_method f = 0%nat) then Some (Fixture.f_data f)
          else if decide (Fixture.f_method f = 8%nat)
               then inflateRawSync (Fixture.f_data f)
               else None.
Proof.
  intros Hok Hlen Hi.
  assert (parseZip (Fixture.archive files)
          = map (Fixture.entry_of toString) (Fixture.items_from 0 files)) as Hlist.
  { unfold Fixture.archive. rewrite parseZip_directory_start by done.
    unfold Fixture.directory.
    apply parseZip_loop_directory; [by apply items_from_ok | simpl; lia | lia]. }
  rewrite Hlist. split.
  { rewrite length_map. clear. generalize 0%nat.
    induction files as [|g files IH]; intros off; simpl; [done | by rewrite IH]. }
  eexists. split.
  { rewrite list_lookup_fmap. rewrite (items_from_lookup _ _ _ _ Hi). reflexivity. }
  split; [done|]. split; [done|].
  destruct (local_header_fields f) as (Hh & Hn & Hx).
  { by eapply Forall_lookup_1. }
  unfold Fixture.archive, Fixture.directory.
  rewrite <- (take_drop_middle files i f Hi) at 1.
  rewrite map_app, concat_app. cbn [map concat]. unfold Fixture.local_record at 2.
  rewrite <- !app_assoc.
  by apply extractEntry_layout.
Qed.

End ParseFacts.


(** * More of the catalog *)

Lemma lookup_put_if_absent (k v k' : string) (store : gmap string string) :
  Catalog.put_if_absent k v store !! k' = store !! k'
  ∨ (k = k' ∧ Js.truthy (store !! k') = false
     ∧ Catalog.put_if_absent k v store !! k' = Some v).
Proof.
  unfold Catalog.put_if_absent. destruct (Js.truthy (store !! k)) eqn:Hk; [by left|].
  destruct (decide (k = k')) as [->|Hne].
  - right. by rewrite lookup_insert_eq.
  - left. by rewrite lookup_insert_ne.
Qed.

Lemma replace_char_absent (a b : ascii) (s : string) :
  a ≠ b → Str.index_of a (Str.replace_char a b s) = None.
Proof.
  intros Hab. induction s as [|c s IH]; simpl; [done|].
  destruct (Ascii.eqb c a) eqn:Hc.
  - assert (Ascii.eqb b a = false) as -> by (apply Ascii.eqb_neq; congruence).
    by rewrite IH.
  - by rewrite Hc, IH.
Qed.

Lemma relUrl_under_icons (ns category subpath : string) :
  Str.starts_with "icons/" (Catalog.relUrl ns category subpath) = true
  ∧ Str.index_of "\"%char (Catalog.relUrl ns category subpath) = None.
Proof.
  split.
  - unfold Catalog.relUrl, Str.starts_with. simpl.
    by destruct (Str.replace_char _ _ _).
  - apply replace_char_absent. discriminate.
Qed.

Lemma under_icons_insert (k v : string) (store : gmap string string) :
  Str.starts_with "icons/" v = true → Str.index_of "\"%char v = None →
  Catalog.under_icons store → Catalog.under_icons (<[k := v]> store).
Proof.
  intros Hv1 Hv2 Hs k' v'. destruct (decide (k = k')) as [->|Hne].
  - rewrite lookup_insert_eq. by intros [= <-].
  - rewrite lookup_insert_ne by done. apply Hs.
Qed.

Lemma under_icons_put (k ns category subpath : string) (store : gmap string string) :
  Catalog.under_icons store →
  Catalog.under_icons
    (Catalog.put_if_absent k (Catalog.relUrl ns category subpath) store).
Proof.
  intros Hs. unfold Catalog.put_if_absent. destruct (Js.truthy _); [done|].
  destruct (relUrl_under_icons ns category subpath). by apply under_icons_insert.
Qed.

(** The flattened name of a sub-path. *)
Lemma str_take_length (n : nat) (s : string) :
  String.length (Str.take n s) = Nat.min n (String.length s).
Proof.
  revert n. induction s as [|c s IH]; intros [|n]; simpl; try done.
  by rewrite IH.
Qed.

Lemma replace_char_length (a b : ascii) (s : string) :
  String.length (Str.replace_char a b s) = String.length s.
Proof. induction s as [|c s IH]; simpl; [done | by rewrite IH]. Qed.

(** The flattened key of a texture never contains a path separator, and
    it is the sub-path without its last four characters. *)
Theorem flatName_no_separator (subpath : string) :
  Str.index_of "/"%char (Catalog.flatName subpath) = None
  ∧ String.length (Catalog.flatName subpath) = (String.length subpath - 4)%nat.
Proof.
  split.
  - apply replace_char_absent. discriminate.
  - unfold Catalog.flatName, Str.drop_last.
    rewrite replace_char_length, str_take_length. lia.
Qed.

Section MoreCatalog.

Import Catalog.

Context {FS : Type}.
Variable existsSync : FS → string → bool.
Variable writeFile : FS → string → list Z → FS.
Variable path_join : list string → string.
Variable path_basename : string → string → string.
Variable iconsDir : string.

Abbreviation registerIn := (Catalog.registerIn path_basename).
Abbreviation register := (Catalog.register path_basename).
Abbreviation scanTexture := (Catalog.scanTexture existsSync writeFile path_join path_basename iconsDir).
Abbreviation scanEntity := (Catalog.scanEntity existsSync writeFile path_join path_basename iconsDir).
Abbreviation scanBlockModel := (Catalog.scanBlockModel path_basename).
Abbreviation scanMod := (Catalog.scanMod existsSync writeFile path_join path_basename iconsDir).
Abbreviation scanVanilla := (Catalog.scanVanilla existsSync writeFile path_join path_basename iconsDir).
Abbreviation scanJars := (Catalog.scanJars existsSync writeFile path_join path_basename iconsDir).
Abbreviation scanVanillaJar := (Catalog.scanVanillaJar existsSync writeFile path_join path_basename iconsDir).
Abbreviation staticFile := (Catalog.staticFile existsSync writeFile path_join path_basename iconsDir).
Abbreviation walkEntry := (Catalog.walkEntry existsSync writeFile path_join path_basename iconsDir).
Abbreviation walkDir := (Catalog.walkDir existsSync writeFile path_join path_basename iconsDir).

(** X8. After a registration the texture is found under both of its keys,
    the basename and the flattened sub-path, whatever the store held. *)
Theorem register_both_keys (ns category subpath : string) (st : state FS) :
  Js.truthy (store_of category (register ns category subpath st)
               !! (ns +:+ ":" +:+ path_basename subpath ".png")) = true
  ∧ Js.truthy (store_of category (register ns category subpath st)
                 !! (ns +:+ ":" +:+ flatName subpath)) = true.
Proof.
  rewrite store_of_register. split; [apply registerIn_base_truthy|].
  unfold Catalog.registerIn.
  destruct (String.eqb (flatName subpath) (path_basename subpath ".png")) eqn:Heq.
  - apply String.eqb_eq in Heq. rewrite Heq. simpl.
    unfold put_if_absent. destruct (Js.truthy (store_of category st !! _)) eqn:Hk;
      [done|]. rewrite lookup_insert_eq. apply relUrl_truthy.
  - simpl. destruct (Js.truthy (put_if_absent _ _ _ !! _)) eqn:Hk; simpl; [done|].
    rewrite lookup_insert_eq. apply relUrl_truthy.
Qed.

(** X9. An entity texture never takes the place of an item or block
    texture: the item store is left alone, and a key that holds a path in
    either store keeps its block-store value. *)
Theorem entity_never_shadows (ns subpath : string) (data : option (list Z))
    (st : state FS) (k : string) :
  Js.truthy (itemPaths st !! k) = true ∨ Js.truthy (blockPaths st !! k) = true →
  itemPaths (scanEntity ns subpath data st) = itemPaths st
  ∧ blockPaths (scanEntity ns subpath data st) !! k = blockPaths st !! k.
Proof.
  intros Hk. split; [done|]. unfold Catalog.scanEntity. cbn [blockPaths].
  set (k1 := ns +:+ ":" +:+ path_basename subpath ".png").
  set (k2 := ns +:+ ":" +:+ flatName subpath).
  set (url := relUrl ns "entity" subpath).
  set (b1 := if negb (Js.truthy (itemPaths st !! k1))
                && negb (Js.truthy (blockPaths st !! k1))
             then <[k1 := url]> (blockPaths st) else blockPaths st).
  assert (b1 !! k = blockPaths st !! k) as H1.
  { unfold b1. destruct (negb _ && negb _) eqn:Hg; [|done].
    apply andb_true_iff in Hg as [Hi Hb]. apply negb_true_iff in Hi, Hb.
    rewrite lookup_insert_ne; [done|]. intros <-. destruct Hk; congruence. }
  destruct (_ && negb (Js.truthy (b1 !! k2))) eqn:Hg; [|done].
  apply andb_true_iff in Hg as [Hg Hb]. apply andb_true_iff in Hg as [_ Hi].
  apply negb_true_iff in Hi, Hb.
  rewrite lookup_insert_ne; [done|]. intros <-. rewrite H1 in Hb.
  destruct Hk; congruence.
Qed.

(** X10. A texture whose file is absent and whose extraction fails is
    skipped altogether, but an entity texture in the same situation is
    still registered: the block store then names a file that was never
    written. *)
Theorem failed_extraction (ns category subpath : string) (st : state FS) :
  existsSync (files st) (path_join [iconsDir; ns; category; subpath]) = false →
  existsSync (files st) (path_join [iconsDir; ns; "entity"; subpath]) = false →
  Js.truthy (itemPaths st !! (ns +:+ ":" +:+ path_basename subpath ".png")) = false →
  Js.truthy (blockPaths st !! (ns +:+ ":" +:+ path_basename subpath ".png")) = false →
  scanTexture ns category subpath None st = st
  ∧ files (scanEntity ns subpath None st) = files st
  ∧ blockPaths (scanEntity ns subpath None st)
      !! (ns +:+ ":" +:+ path_basename subpath ".png")
    = Some (relUrl ns "entity" subpath).
Proof.
  intros Htex Hent Hitem Hblock. split; [|split].
  - unfold Catalog.scanTexture. by rewrite Htex.
  - unfold Catalog.scanEntity. cbn [files]. by rewrite Hent.
  - unfold Catalog.scanEntity. cbn [blockPaths]. rewrite Hitem, Hblock. cbn [negb andb].
    destruct (_ && _) eqn:Hg; [|by rewrite lookup_insert_eq].
    apply andb_true_iff in Hg as [Hg _]. apply andb_true_iff in Hg as [Hne _].
    apply negb_true_iff, String.eqb_neq in Hne.
    rewrite lookup_insert_ne; [by rewrite lookup_insert_eq|].
    intros Heq. by simplify_eq.
Qed.

Lemma model_lookup_app (models : list (string * Model.faces)) (k key : string)
    (f : Model.faces) :
  Model.lookup (models ++ [(k, f)]) key
  = match Model.lookup models key with
    | Some g => Some g
    | None => if String.eqb k key then Some f else None
    end.
Proof.
  induction models as [|[k' g] models IH]; simpl; [done|].
  by destruct (String.eqb k' key).
Qed.

Lemma scanBlockModel_keeps_model parse ns file tex (st : state FS) key f :
  Model.lookup (blockModels st) key = Some f →
  Model.lookup (blockModels (scanBlockModel parse ns file tex st)) key = Some f.
Proof.
  intros Hk. unfold Catalog.scanBlockModel.
  destruct (Model.lookup (blockModels st) (ns +:+ ":" +:+ path_basename file ".json"));
    [done|].
  destruct (tex ≫= parse); [|done]. cbn [blockModels].
  by rewrite model_lookup_app, Hk.
Qed.

Lemma scanMod_keeps_model (st : state FS) (e : scanned) key f :
  Model.lookup (blockModels st) key = Some f →
  Model.lookup (blockModels (scanMod st e)) key = Some f.
Proof.
  intros Hk. destruct e as [ns category subpath data | ns file tex | ns subpath data | ];
    cbn [Catalog.scanMod]; [| by apply scanBlockModel_keeps_model | done | done].
  unfold Catalog.scanTexture, Catalog.register.
  destruct (existsSync _ _); [by destruct (is_item _)|].
  destruct data; [|done]. by destruct (is_item _).
Qed.

Lemma scanVanilla_keeps_model (st : state FS) (e : scanned) key f :
  Model.lookup (blockModels st) key = Some f →
  Model.lookup (blockModels (scanVanilla st e)) key = Some f.
Proof.
  intros Hk. destruct e as [ns category subpath data | ns file tex | ns subpath data | ];
    cbn [Catalog.scanVanilla]; [| by apply scanBlockModel_keeps_model | done | done].
  apply (scanMod_keeps_model st (Texture "minecraft" category subpath data) key f Hk).
Qed.

(** X11. The first descriptor recorded for a model key stays: no later
    entry of any mod archive or of the vanilla archive replaces it. *)
Theorem block_model_first_wins (st : state FS) (jars : list (list scanned))
    (vanilla : list scanned) (key : string) (f : Model.faces) :
  Model.lookup (blockModels st) key = Some f →
  Model.lookup (blockModels (scanVanillaJar vanilla (scanJars jars st))) key = Some f.
Proof.
  intros Hk.
  assert (∀ entries st', Model.lookup (blockModels st') key = Some f →
            Model.lookup (blockModels (foldl scanMod st' entries)) key = Some f) as Hjar.
  { induction entries as [|e entries IH]; intros st' H'; simpl; [done|].
    by apply IH, scanMod_keeps_model. }
  assert (Model.lookup (blockModels (scanJars jars st)) key = Some f) as Hjars.
  { unfold Catalog.scanJars. revert st Hk.
    induction jars as [|jar jars IH]; intros st Hk; simpl; [done|].
    by apply IH, Hjar. }
  unfold Catalog.scanVanillaJar. revert Hjars. generalize (scanJars jars st).
  induction vanilla as [|e vanilla IH]; intros st' H'; simpl; [done|].
  by apply IH, scanVanilla_keeps_model.
Qed.

(** *** The walk over a static asset directory *)

Lemma dirent_nested_ind (P : dirent → Prop) :
  (∀ name content, P (DFile name content)) →
  (∀ name children, Forall P children → P (DDir name children)) →
  ∀ e, P e.
Proof.
  intros Hfile Hdir. fix IH 1. intros [name content | name children].
  - apply Hfile.
  - apply Hdir. induction children as [|c children IHc]; constructor; [apply IH | done].
Qed.

Lemma walkEntry_dir (ns relBase name : string) (children : list dirent) (st : state FS) :
  walkEntry ns relBase (DDir name children) st
  = walkDir ns (joinRel relBase name) children st.
Proof.
  unfold Catalog.walkDir. cbn [Catalog.walkEntry]. revert st.
  induction children as [|c children IH]; intros st; simpl; [done | by rewrite IH].
Qed.

Lemma pngs_dir (relBase name : string) (children : list dirent) :
  pngs relBase (DDir name children)
  = concat (map (pngs (joinRel relBase name)) children).
Proof.
  cbn [pngs]. induction children as [|c children IH]; simpl; [done | by rewrite IH].
Qed.

Lemma staticFile_facts (ns rel : string) (content : list Z) (st : state FS) :
  keeps (itemPaths st) (itemPaths (staticFile ns rel content st))
  ∧ blockPaths (staticFile ns rel content st) = blockPaths st
  ∧ blockModels (staticFile ns rel content st) = blockModels st
  ∧ Js.truthy (itemPaths (staticFile ns rel content st)
                 !! (ns +:+ ":textures/" +:+ rel)) = true
  ∧ (under_icons (itemPaths st) →
     under_icons (itemPaths (staticFile ns rel content st))).
Proof.
  unfold Catalog.staticFile. cbn [itemPaths blockPaths blockModels].
  split; [|split; [done|split; [done|split]]].
  - eapply keeps_trans; [|apply keeps_put_if_absent].
    eapply keeps_trans; apply keeps_put_if_absent.
  - set (inner := put_if_absent (ns +:+ ":" +:+ flatName rel) _ _).
    unfold put_if_absent.
    destruct (Js.truthy (inner !! (ns +:+ ":textures/" +:+ rel))) eqn:Hk; [done|].
    rewrite lookup_insert_eq. apply relUrl_truthy.
  - intros Hu. by do 3 apply under_icons_put.
Qed.

Lemma walkEntry_facts (ns : string) (e : dirent) :
  ∀ (relBase : string) (st : state FS),
    keeps (itemPaths st) (itemPaths (walkEntry ns relBase e st))
    ∧ blockPaths (walkEntry ns relBase e st) = blockPaths st
    ∧ blockModels (walkEntry ns relBase e st) = blockModels st
    ∧ (∀ rel, rel ∈ pngs relBase e →
         Js.truthy (itemPaths (walkEntry ns relBase e st)
                      !! (ns +:+ ":textures/" +:+ rel)) = true)
    ∧ (under_icons (itemPaths st) →
       under_icons (itemPaths (walkEntry ns relBase e st))).
Proof.
  induction e as [name content | name children IH] using dirent_nested_ind;
    intros relBase st.
  - cbn [Catalog.walkEntry pngs]. destruct (Str.ends_with ".png" name).
    + destruct (staticFile_facts ns (joinRel relBase name) content st)
        as (Hk & Hb & Hm & Ht & Hu).
      split; [done|]. split; [done|]. split; [done|]. split; [|done].
      intros rel Hrel. apply list_elem_of_singleton in Hrel as ->. done.
    + split; [apply keeps_refl|]. split; [done|]. split; [done|]. split; [|done].
      intros rel Hrel. by apply elem_of_nil in Hrel.
  - rewrite walkEntry_dir, pngs_dir. unfold Catalog.walkDir.
    generalize (joinRel relBase name). intros rb. clear relBase. revert st.
    induction children as [|c children IHc]; intros st.
    + simpl. split; [apply keeps_refl|]. split; [done|]. split; [done|].
      split; [|done]. intros rel Hrel. by apply elem_of_nil in Hrel.
    + apply Forall_cons in IH as [Hc Hrest].
      destruct (Hc rb st) as (Hk & Hb & Hm & Ht & Hu).
      destruct (IHc Hrest (walkEntry ns rb c st)) as (Hk' & Hb' & Hm' & Ht' & Hu').
      cbn [foldl map concat]. split; [by eapply keeps_trans|].
      split; [congruence|]. split; [congruence|]. split; [|by auto].
      intros rel Hrel. apply elem_of_app in Hrel as [Hrel | Hrel].
      * rewrite (Hk' _ (Ht rel Hrel)). by apply Ht.
      * by apply Ht'.
Qed.

(** X12. After the walk over a static [textures] directory every [.png]
    file of the listing, at any depth, can be looked up under its exact
    resource location [ns:textures/<relative path>]; what the item store
    held before is kept and the block store is not touched. *)
Theorem walkDir_exact_ids (ns : string) (entries : list dirent) (st : state FS) :
  keeps (itemPaths st) (itemPaths (walkDir ns "" entries st))
  ∧ blockPaths (walkDir ns "" entries st) = blockPaths st
  ∧ ∀ rel, rel ∈ concat (map (pngs "") entries) →
      Js.truthy (itemPaths (walkDir ns "" entries st)
                   !! (ns +:+ ":textures/" +:+ rel)) = true.
Proof.
  pose proof (walkEntry_facts ns (DDir "" entries) "" st) as H.
  rewrite walkEntry_dir, pngs_dir in H. change (joinRel "" "") with "" in H.
  destruct H as (Hk & Hb & _ & Ht & _). done.
Qed.

Lemma registerIn_under ns category subpath (store : gmap string string) :
  under_icons store → under_icons (registerIn ns category subpath store).
Proof.
  intros Hu. unfold Catalog.registerIn.
  destruct (relUrl_under_icons ns category subpath) as [H1 H2].
  destruct (_ && _); [apply under_icons_insert; try done|]; by apply under_icons_put.
Qed.

Lemma scanMod_under (st : state FS) (e : scanned) :
  under_icons (itemPaths st) → under_icons (blockPaths st) →
  under_icons (itemPaths (scanMod st e)) ∧ under_icons (blockPaths (scanMod st e)).
Proof.
  intros Hi Hb.
  assert (∀ ns category subpath (st' : state FS),
            under_icons (itemPaths st') → under_icons (blockPaths st') →
            under_icons (itemPaths (register ns category subpath st'))
            ∧ under_icons (blockPaths (register ns category subpath st'))) as Hreg.
  { intros ns category subpath st' Hi' Hb'. unfold Catalog.register.
    destruct (is_item category); cbn [itemPaths blockPaths];
      split; try done; by apply registerIn_under. }
  destruct e as [ns category subpath data | ns file tex | ns subpath data | ];
    cbn [Catalog.scanMod].
  - unfold Catalog.scanTexture. destruct (existsSync _ _); [by apply Hreg|].
    destruct data; [|done]. by apply Hreg.
  - unfold Catalog.scanBlockModel.
    destruct (Model.lookup (blockModels st) _); [done|]. by destruct (tex ≫= _).
  - unfold Catalog.scanEntity. cbn [itemPaths blockPaths]. split; [done|].
    destruct (relUrl_under_icons ns "entity" subpath) as [H1 H2].
    set (b1 := if negb (Js.truthy (itemPaths st !! _)) && negb _ then _ else _).
    assert (under_icons b1) as Hb1.
    { unfold b1. destruct (_ && _); [by apply under_icons_insert | done]. }
    destruct (_ && negb (Js.truthy (b1 !! _))); [by apply under_icons_insert | done].
  - done.
Qed.

Lemma scanVanilla_under (st : state FS) (e : scanned) :
  under_icons (itemPaths st) → under_icons (blockPaths st) →
  under_icons (itemPaths (scanVanilla st e))
  ∧ under_icons (blockPaths (scanVanilla st e)).
Proof.
  intros Hi Hb.
  destruct e as [ns category subpath data | ns file tex | ns subpath data | ];
    cbn [Catalog.scanVanilla]; [| | done | done].
  - by apply (scanMod_under st (Texture "minecraft" category subpath data)).
  - unfold Catalog.scanBlockModel.
    destruct (Model.lookup (blockModels st) _); [done|]. by destruct (tex ≫= _).
Qed.

(** X13. Every path the scan puts in a store lies under [icons/] and is
    written with forward slashes: this holds for both stores after the mod
    archives, the vanilla archive and a static directory have been
    processed, if it held before (as it does for the empty stores). *)
Theorem scanned_paths_under_icons (jars : list (list scanned)) (vanilla : list scanned)
    (ns : string) (entries : list dirent) (st : state FS) :
  under_icons (itemPaths st) → under_icons (blockPaths st) →
  under_icons (itemPaths (walkDir ns "" entries
                            (scanVanillaJar vanilla (scanJars jars st))))
  ∧ under_icons (blockPaths (walkDir ns "" entries
                               (scanVanillaJar vanilla (scanJars jars st)))).
Proof.
  intros Hi Hb.
  assert (∀ es st', under_icons (itemPaths st') → under_icons (blockPaths st') →
            under_icons (itemPaths (foldl scanMod st' es))
            ∧ under_icons (blockPaths (foldl scanMod st' es))) as Hjar.
  { induction es as [|e es IH]; intros st' Hi' Hb'; simpl; [done|].
    destruct (scanMod_under st' e Hi' Hb'). by apply IH. }
  assert (under_icons (itemPaths (scanJars jars st))
          ∧ under_icons (blockPaths (scanJars jars st))) as [Hi1 Hb1].
  { unfold Catalog.scanJars. revert st Hi Hb.
    induction jars as [|jar jars IH]; intros st Hi Hb; simpl; [done|].
    destruct (Hjar jar st Hi Hb). by apply IH. }
  assert (under_icons (itemPaths (scanVanillaJar vanilla (scanJars jars st)))
          ∧ under_icons (blockPaths (scanVanillaJar vanilla (scanJars jars st))))
    as [Hi2 Hb2].
  { unfold Catalog.scanVanillaJar. revert Hi1 Hb1. generalize (scanJars jars st).
    induction vanilla as [|e vanilla IH]; intros st' Hi' Hb'; simpl; [done|].
    destruct (scanVanilla_under st' e Hi' Hb'). by apply IH. }
  pose proof (walkEntry_facts ns (DDir "" entries) ""
                (scanVanillaJar vanilla (scanJars jars st))) as H.
  rewrite walkEntry_dir in H. change (joinRel "" "") with "" in H.
  destruct H as (_ & Hbk & _ & _ & Hu). split; [by apply Hu | by rewrite Hbk].
Qed.

End MoreCatalog.


(** * More of the resolver *)

Lemma index_of_split (c : ascii) (s : string) (n : nat) :
  Str.index_of c s = Some n →
  s = Str.take n s +:+ String c (Str.drop (n + 1) s)
  ∧ Str.index_of c (Str.take n s) = None.
Proof.
  revert n. induction s as [|a s IH]; intros n; simpl; [done|].
  destruct (Ascii.eqb a c) eqn:Hac.
  - intros [= <-]. apply Ascii.eqb_eq in Hac as ->. done.
  - destruct (Str.index_of c s) as [m|] eqn:Hm; [|done]. simpl. intros [= <-].
    destruct (IH m eq_refl) as [Hs Hnone]. simpl. rewrite Hac, Hnone.
    split; [|done]. by rewrite Hs at 1.
Qed.

Lemma index_of_app_Some (c : ascii) (a b : string) :
  is_Some (Str.index_of c (a +:+ String c b)).
Proof.
  induction a as [|x a IH]; simpl.
  - rewrite Ascii.eqb_refl. by eexists.
  - destruct (Ascii.eqb x c); [by eexists|]. destruct IH as [n ->]. by eexists.
Qed.

Lemma app_nonempty (a : string) (c : ascii) (b : string) :
  String.eqb (a +:+ String c b) "" = false.
Proof. by destruct a. Qed.

(** Keys with a face or [#head_uv] suffix contain [#]. *)
Lemma suffixed_key_ne (k key suffix : string) :
  Str.index_of "#"%char k = None → k ≠ key +:+ String "#"%char suffix.
Proof.
  intros Hk ->. destruct (index_of_app_Some "#"%char key suffix) as [n Hn]. congruence.
Qed.

Section MoreResolver.

Context {FS : Type}.
Variable existsSync : FS → string → bool.
Variable path_join : list string → string.
Variable path_basename1 : string → string.
Variable iconsDir : string.

Abbreviation resolveTexRef := (Resolver.resolveTexRef existsSync path_join path_basename1 iconsDir).
Abbreviation resolveModel := (Resolver.resolveModel existsSync path_join path_basename1 iconsDir).
Abbreviation resolveModels := (Resolver.resolveModels existsSync path_join path_basename1 iconsDir).
Abbreviation resolveFirstTex := (Resolver.resolveFirstTex existsSync path_join path_basename1 iconsDir).

(** X14. [resolveTexRef] answers exactly for references [ns:path] (split at
    the first colon) one of whose two candidate files exists, the one
    under the path as written taking precedence over the one under
    [block/<basename>]; the answer is the candidate made relative to
    [icons/]. A reference without a colon is never resolved. *)
Theorem resolveTexRef_spec (fs : FS) (ref url : string) :
  resolveTexRef fs ref = Some url ↔
  ∃ ns path,
    ref = ns +:+ ":" +:+ path ∧ Str.index_of ":"%char ns = None
    ∧ ((existsSync fs (path_join [iconsDir; ns; path +:+ ".png"]) = true
        ∧ url = Str.replace_icons_prefix
                  (Str.replace_char "\"%char "/"%char
                     (path_join [iconsDir; ns; path +:+ ".png"])))
       ∨ (existsSync fs (path_join [iconsDir; ns; path +:+ ".png"]) = false
          ∧ existsSync fs
              (path_join [iconsDir; ns; "block"; path_basename1 path +:+ ".png"]) = true
          ∧ url = Str.replace_icons_prefix
                    (Str.replace_char "\"%char "/"%char
                       (path_join [iconsDir; ns; "block";
                                   path_basename1 path +:+ ".png"])))).
Proof.
  unfold Resolver.resolveTexRef. split.
  - destruct (String.eqb ref ""); [done|].
    destruct (Str.index_of ":"%char ref) as [colon|] eqn:Hcolon; [|done].
    destruct (index_of_split _ _ _ Hcolon) as [Href Hns].
    intros H. exists (Str.take colon ref), (Str.drop (colon + 1) ref).
    split; [exact Href|]. split; [done|].
    cbn [Resolver.firstExisting] in H.
    destruct (existsSync fs (path_join [iconsDir; Str.take colon ref; _])) eqn:H1.
    + left. by injection H as <-.
    + destruct (existsSync fs (path_join [iconsDir; Str.take colon ref; "block"; _]))
        eqn:H2; [|done].
      right. by injection H as <-.
  - intros (ns & path & -> & Hns & Hcases).
    change (ns +:+ ":" +:+ path) with (ns +:+ String ":"%char path).
    rewrite app_nonempty, (index_of_app _ _ _ Hns), str_take_app, str_drop_app.
    cbn [Resolver.firstExisting].
    destruct Hcases as [[H1 ->] | (H1 & H2 & ->)]; by rewrite ?H1, ?H2.
Qed.

(** The loop body changes nothing but the bare key and the three face
    keys, and leaves a bare key alone when it already holds a path. *)
Lemma resolveModel_frame (fs : FS) (itemPaths blockPaths : gmap string string)
    (key : string) (faces : Model.faces) (k : string) :
  Str.index_of "#"%char k = None →
  Js.truthy (blockPaths !! k) = true →
  resolveModel fs itemPaths blockPaths (key, faces) !! k = blockPaths !! k.
Proof.
  intros Hk Ht. unfold Resolver.resolveModel.
  destruct (Js.truthy (itemPaths !! key)); [done|].
  destruct (Js.or_else _ _) as [any|]; [|done].
  destruct (negb _); [done|].
  assert (∀ suffix url store,
            Resolver.put_if_url (key +:+ String "#"%char suffix) url store !! k
            = store !! k) as Hput.
  { intros suffix [u|] store; simpl; [|done]. destruct (negb _); [|done].
    rewrite lookup_insert_ne; [done|]. intros Heq.
    by apply (suffixed_key_ne k key suffix). }
  change (key +:+ "#top") with (key +:+ String "#"%char "top").
  change (key +:+ "#side") with (key +:+ String "#"%char "side").
  change (key +:+ "#front") with (key +:+ String "#"%char "front").
  rewrite !Hput. by apply keeps_put_if_absent.
Qed.

(** X15. Resolving the block models never replaces a direct texture: a key
    without [#] that holds a path in the block store keeps it, and the item
    store, the files and the models are not changed. *)
Theorem resolveModels_keeps_direct (st : Catalog.state FS) (k : string) :
  Str.index_of "#"%char k = None →
  Js.truthy (Catalog.blockPaths st !! k) = true →
  Catalog.blockPaths (resolveModels st) !! k = Catalog.blockPaths st !! k
  ∧ Catalog.itemPaths (resolveModels st) = Catalog.itemPaths st
  ∧ Catalog.files (resolveModels st) = Catalog.files st.
Proof.
  intros Hk Ht. split; [|done]. unfold Resolver.resolveModels. cbn [Catalog.blockPaths].
  generalize (Catalog.blockModels st) as models.
  generalize (Catalog.itemPaths st) as items. generalize (Catalog.files st) as fs.
  intros fs items models. revert Ht. generalize (Catalog.blockPaths st) as block.
  induction models as [|[key faces] models IH]; intros block Ht; cbn [foldl]; [done|].
  rewrite IH.
  - by apply resolveModel_frame.
  - by rewrite resolveModel_frame.
Qed.

(** X16. The [#head_uv] pass writes nothing but [#head_uv] keys: every key
    without [#] keeps its value; and one step writes its key only when the
    block store holds, for the bare key, a path that contains [/entity/]. *)
Theorem geoResolve_frame (geoModels : list (string * string))
    (blockPaths : gmap string string) :
  (∀ k, Str.index_of "#"%char k = None →
        Resolver.geoResolve geoModels blockPaths !! k = blockPaths !! k)
  ∧ (∀ key uv, Resolver.geoStep blockPaths (key, uv) ≠ blockPaths →
        ∃ url, blockPaths !! key = Some url ∧ Str.includes "/entity/" url = true
          ∧ Resolver.geoStep blockPaths (key, uv)
            = <[key +:+ "#head_uv" := uv]> blockPaths).
Proof.
  split.
  - intros k Hk. unfold Resolver.geoResolve. revert blockPaths.
    induction geoModels as [|[key uv] geoModels IH]; intros blockPaths; simpl; [done|].
    rewrite IH. destruct (blockPaths !! key) as [url|]; [|done].
    destruct (_ || _); [done|]. rewrite lookup_insert_ne; [done|].
    intros Heq. by apply (suffixed_key_ne k key "head_uv").
  - intros key uv Hne. unfold Resolver.geoStep in *.
    destruct (blockPaths !! key) as [url|]; [|done].
    destruct (negb (Js.truthy (Some url))); [done|].
    destruct (Str.includes "/entity/" url) eqn:Hinc; [|done].
    by exists url.
Qed.

(** X17. The first version of the resolver writes the bare key only, and
    only for an identifier that neither store holds: any other key keeps
    its value, and an identifier with a path in either store leaves the
    block store as it is. *)
Theorem resolveFirstTex_frame (fs : FS) (itemPaths blockPaths : gmap string string)
    (key texRef : string) :
  (∀ k, k ≠ key →
        resolveFirstTex fs itemPaths blockPaths (key, texRef) !! k = blockPaths !! k)
  ∧ (Js.truthy (itemPaths !! key) = true ∨ Js.truthy (blockPaths !! key) = true →
     resolveFirstTex fs itemPaths blockPaths (key, texRef) = blockPaths)
  ∧ (Str.index_of ":"%char texRef = None →
     resolveFirstTex fs itemPaths blockPaths (key, texRef) = blockPaths).
Proof.
  unfold Resolver.resolveFirstTex. split; [|split].
  - intros k Hne. destruct (_ || _); [done|].
    destruct (Str.index_of ":"%char texRef); [|done].
    destruct (Resolver.firstFound _ _ _) as [found|]; [|done].
    destruct (Js.truthy (Some found)); [|done]. by rewrite lookup_insert_ne.
  - intros [-> | ->]; [done | by rewrite orb_true_r].
  - intros ->. by destruct (_ || _).
Qed.

End MoreResolver.

(** X18. The advancement map is filled first-writer-wins too: once a
    descriptor with a (non-empty) icon identifier has been recorded for a
    key, no later descriptor changes it; descriptors that fail to parse or
    carry no icon record nothing. *)
Theorem advancements_first_wins
    (before rest : list (string * string * option (option string)))
    (ns file itemId : string) :
  itemId ≠ "" →
  Js.truthy (foldl Resolver.advStep ∅ before
               !! (ns +:+ ":" +:+ Str.drop_last 5 file)) = false →
  Resolver.advancements (before ++ (ns, file, Some (Some itemId)) :: rest)
    !! (ns +:+ ":" +:+ Str.drop_last 5 file) = Some itemId
  ∧ ∀ m ns' file', Resolver.advStep m (ns', file', None) = m
                   ∧ Resolver.advStep m (ns', file', Some None) = m.
Proof.
  intros Hid Hfresh. split.
  - unfold Resolver.advancements. rewrite foldl_app. cbn [foldl].
    set (key := ns +:+ ":" +:+ Str.drop_last 5 file) in *.
    set (m0 := foldl Resolver.advStep ∅ before) in *.
    assert (Resolver.advStep m0 (ns, file, Some (Some itemId)) !! key = Some itemId)
      as H1.
    { unfold Resolver.advStep. fold key. rewrite Hfresh.
      rewrite (truthy_nonempty _ Hid). by rewrite lookup_insert_eq. }
    revert H1. generalize (Resolver.advStep m0 (ns, file, Some (Some itemId))).
    induction rest as [|[[ns' file'] icon] rest IH]; intros m H1; cbn [foldl]; [done|].
    apply IH. unfold Resolver.advStep.
    destruct (Js.truthy (m !! (ns' +:+ ":" +:+ Str.drop_last 5 file'))) eqn:Hk; [done|].
    destruct icon as [[id|]|]; try done. destruct (Js.truthy (Some id)); [|done].
    rewrite lookup_insert_ne; [done|]. intros Heq. rewrite Heq, H1 in Hk.
    by rewrite (truthy_nonempty _ Hid) in Hk.
  - intros m ns' file'. unfold Resolver.advStep.
    by destruct (Js.truthy (m !! _)).
Qed.

(** ** Descriptors *)

Lemma get_elem (tex : list (string * Model.jsval)) (n : string) (v : Model.jsval) :
  Model.get tex n = Some v → (n, v) ∈ tex.
Proof.
  induction tex as [|[k w] tex IH]; simpl; [done|].
  destruct (String.eqb k n) eqn:Hk.
  - apply String.eqb_eq in Hk as ->. intros [= ->]. apply list_elem_of_here.
  - intros H. apply list_elem_of_further. by apply IH.
Qed.

Lemma named_ref_Some (v : option Model.jsval) (r : string) :
  Model.named_ref v = Some r →
  v = Some (Model.JStr r) ∧ r ≠ "" ∧ Str.starts_with "#" r = false.
Proof.
  destruct v as [[s|]|]; simpl; try done.
  destruct (String.eqb s "") eqn:Hs; simpl; [done|].
  destruct (Str.starts_with "#" s) eqn:Ha; simpl; [done|].
  intros [= <-]. by apply String.eqb_neq in Hs.
Qed.

Lemma resolve_Some (tex : list (string * Model.jsval)) (names : list string) (r : string) :
  Model.resolve tex names = Some r →
  r ≠ "" ∧ Str.starts_with "#" r = false ∧ ∃ k, k ∈ names ∧ (k, Model.JStr r) ∈ tex.
Proof.
  induction names as [|n names IH]; simpl; [done|].
  destruct (Model.named_ref (Model.get tex n)) as [v|] eqn:Hn.
  - intros [= ->]. apply named_ref_Some in Hn as (Hg & Hne & Ha).
    split; [done|]. split; [done|]. exists n. split; [apply list_elem_of_here|].
    by apply get_elem.
  - intros H. destruct (IH H) as (Hne & Ha & k & Hk & Hin).
    split; [done|]. split; [done|]. exists k. split; [by apply list_elem_of_further|done].
Qed.

Lemma first_plain_Some (tex : list (string * Model.jsval)) (r : string) :
  Model.first_plain tex = Some r →
  Str.starts_with "#" r = false ∧ ∃ k, (k, Model.JStr r) ∈ tex.
Proof.
  induction tex as [|[k [s|]] tex IH]; simpl; [done| |].
  - destruct (Str.starts_with "#" s) eqn:Ha; simpl.
    + intros H. destruct (IH H) as (Hr & k' & Hin). split; [done|].
      exists k'. by apply list_elem_of_further.
    + intros [= <-]. split; [done|]. exists k. apply list_elem_of_here.
  - intros H. destruct (IH H) as (Hr & k' & Hin). split; [done|].
    exists k'. by apply list_elem_of_further.
Qed.

(** X19. Whatever the role lists are, every face reference recorded for a
    model is a non-empty string of the [textures] mapping that is not an
    alias ([#...]). *)
Theorem parseFaces_faces_plain (topNames sideNames frontNames : list string)
    (tex : list (string * Model.jsval)) (f : Model.faces) :
  Model.parseFaces topNames sideNames frontNames tex = Some f →
  Forall (λ r, r ≠ "" ∧ Str.starts_with "#" r = false
               ∧ ∃ k, (k, Model.JStr r) ∈ tex)
         [Model.top f; Model.side f; Model.front f].
Proof.
  unfold Model.parseFaces.
  set (P := λ r : string, r ≠ "" ∧ Str.starts_with "#" r = false
                          ∧ ∃ k, (k, Model.JStr r) ∈ tex).
  assert (∀ names r, Model.resolve tex names = Some r → P r) as Hres.
  { intros names r H. destruct (resolve_Some _ _ _ H) as (? & ? & k & _ & ?).
    repeat split; eauto. }
  assert (∀ a b : option string, Js.or_else a b = a ∨ Js.or_else a b = b) as Hor.
  { intros a b. unfold Js.or_else. destruct (Js.truthy a); [by left | by right]. }
  destruct (Js.or_else _ (Model.first_plain tex)) as [f0|] eqn:Hfirst; [|done].
  destruct (Js.truthy (Some f0)) eqn:Ht; [|done].
  assert (P f0) as Hf0.
  { destruct (Hor (Js.or_else (Js.or_else (Model.resolve tex topNames)
                                          (Model.resolve tex sideNames))
                              (Model.resolve tex frontNames))
                  (Model.first_plain tex)) as [E|E]; rewrite E in Hfirst; clear E.
    - destruct (Hor (Js.or_else (Model.resolve tex topNames)
                                (Model.resolve tex sideNames))
                    (Model.resolve tex frontNames)) as [E|E];
        rewrite E in Hfirst; clear E; [|by eauto].
      destruct (Hor (Model.resolve tex topNames) (Model.resolve tex sideNames))
        as [E|E]; rewrite E in Hfirst; by eauto.
    - apply first_plain_Some in Hfirst as (Ha & k & Hin).
      split; [|by eauto]. by intros ->. }
  intros [= <-]. cbn [Model.top Model.side Model.front].
  assert (∀ names, P (Model.or_str (Model.resolve tex names) f0)) as Hface.
  { intros names. unfold Model.or_str, Js.or_else.
    destruct (Js.truthy (Model.resolve tex names)) eqn:Hn; [|done].
    destruct (Model.resolve tex names) as [r|] eqn:Hr; [by eauto | done]. }
  repeat constructor; apply Hface.
Qed.

(** X20. A [textures] mapping without a usable value (empty, or holding only
    aliases, empty strings and values that are not strings) records no
    model, whatever the role lists are. *)
Theorem parseFaces_nothing_usable (topNames sideNames frontNames : list string)
    (tex : list (string * Model.jsval)) :
  (∀ k v, (k, v) ∈ tex →
     v = Model.JOther ∨ v = Model.JStr ""
     ∨ ∃ s, v = Model.JStr s ∧ Str.starts_with "#" s = true) →
  Model.parseFaces topNames sideNames frontNames tex = None.
Proof.
  intros Hall.
  assert (∀ names, Model.resolve tex names = None) as Hres.
  { intros names. destruct (Model.resolve tex names) as [r|] eqn:Hr; [|done].
    destruct (resolve_Some _ _ _ Hr) as (Hne & Ha & k & _ & Hin).
    destruct (Hall _ _ Hin) as [? | [Hv | (s & Hv & Hs)]]; [done | |].
    - injection Hv as ->. done.
    - injection Hv as <-. congruence. }
  assert (Model.first_plain tex = None ∨ Model.first_plain tex = Some "") as Hfp.
  { destruct (Model.first_plain tex) as [r|] eqn:Hr; [|by left].
    destruct (first_plain_Some _ _ Hr) as (Ha & k & Hin).
    destruct (Hall _ _ Hin) as [? | [Hv | (s & Hv & Hs)]]; [done | |].
    - injection Hv as ->. by right.
    - injection Hv as <-. congruence. }
  unfold Model.parseFaces. rewrite !Hres.
  rewrite !(or_else_r None) by done.
  by destruct Hfp as [-> | ->].
Qed.

(** ** The relative form of a resolved path *)

Lemma prefix_drop (p s : string) :
  String.prefix p s = true → s = p +:+ Str.drop (String.length p) s.
Proof.
  revert s. induction p as [|a p IH]; intros s; [by destruct s|].
  destruct s as [|b s]; [done|]. simpl.
  destruct (ascii_dec a b) as [->|]; [|done].
  intros H. change (String b s = String b (p +:+ Str.drop (String.length p) s)).
  f_equal. by apply IH.
Qed.

Lemma after_icons_includes (s : string) :
  Str.includes "/icons/" s = false → Str.after_icons_in_line s = None.
Proof.
  induction s as [|c s IH]; [done|].
  cbn [Str.includes Str.after_icons_in_line]. intros H.
  apply orb_false_iff in H as [Hp Hs].
  destruct (Str.is_line_terminator c); [done|]. by rewrite (IH Hs), Hp.
Qed.

Lemma after_icons_None (s : string) :
  Str.single_line s = true → Str.after_icons_in_line s = None →
  Str.includes "/icons/" s = false.
Proof.
  induction s as [|c s IH]; [done|].
  cbn [Str.includes Str.after_icons_in_line Str.single_line]. intros Hl.
  apply andb_true_iff in Hl as [Hc Hl]. apply negb_true_iff in Hc. rewrite Hc.
  destruct (Str.after_icons_in_line s) eqn:Hs; [done|].
  destruct (String.prefix "/icons/" (String c s)); [done|]. intros _. simpl. by apply IH.
Qed.

Lemma after_icons_Some (s r : string) :
  Str.after_icons_in_line s = Some r →
  ∃ pre, s = pre +:+ "/icons/" +:+ r
    ∧ (Str.single_line s = true → Str.includes "/icons/" ("icons/" +:+ r) = false).
Proof.
  revert r. induction s as [|c s IH]; intros r; [done|].
  cbn [Str.after_icons_in_line Str.single_line].
  destruct (Str.is_line_terminator c) eqn:Hc; [done|].
  destruct (Str.after_icons_in_line s) as [r'|] eqn:Hs.
  - intros [= <-]. destruct (IH r' eq_refl) as (pre & -> & Hlast).
    exists (String c pre). split; [done|]. intros Hl. apply Hlast.
    by apply andb_true_iff in Hl as [_ Hl].
  - destruct (String.prefix "/icons/" (String c s)) eqn:Hp; [|done].
    intros [= <-]. exists "". apply prefix_drop in Hp. split; [exact Hp|].
    intros Hl. apply andb_true_iff in Hl as [_ Hl].
    injection Hp as _ Hp'. rewrite <- Hp'. by apply after_icons_None.
Qed.

Lemma replace_icons_unchanged (s : string) :
  Str.includes "/icons/" s = false → Str.replace_icons_prefix s = s.
Proof.
  induction s as [|c s IH]; [done|]. intros H.
  cbn [Str.replace_icons_prefix]. rewrite (after_icons_includes _ H).
  cbn [Str.includes] in H. apply orb_false_iff in H as [_ Hs]. by rewrite IH.
Qed.

(** X21. Making a path relative: a path that does not contain [/icons/] is
    returned unchanged; a path without line terminators that contains it
    is cut after the last [/icons/], so that the result starts with
    [icons/] and contains no further [/icons/]. *)
Theorem replace_icons_prefix_spec (s : string) :
  Str.single_line s = true →
  (Str.includes "/icons/" s = false → Str.replace_icons_prefix s = s)
  ∧ (Str.includes "/icons/" s = true →
     ∃ pre r, s = pre +:+ "/icons/" +:+ r
       ∧ Str.replace_icons_prefix s = "icons/" +:+ r
       ∧ Str.includes "/icons/" ("icons/" +:+ r) = false).
Proof.
  intros Hl. split; [apply replace_icons_unchanged|]. intros Hinc.
  destruct (Str.after_icons_in_line s) as [r|] eqn:Hafter.
  - destruct (after_icons_Some s r Hafter) as (pre & Hs & Hlast).
    exists pre, r. split; [done|]. split; [|by apply Hlast].
    destruct s; cbn [Str.replace_icons_prefix]; by rewrite Hafter.
  - rewrite (after_icons_None s Hl Hafter) in Hinc. done.
Qed.

(** ** From a static image to its lookup *)

Section StaticLookup.

Context {FS : Type}.
Variable existsSync : FS → string → bool.
Variable writeFile : FS → string → list Z → FS.
Variable path_join : list string → string.
Variable path_basename : string → string → string.
Variable iconsDir : string.
Variable existsSync' : string → bool.
Variable path_sep : string.
Variable dirname : string.

(** X22. The two scripts together: once the extractor has registered a
    static image [rel] of namespace [ns] (its exact key being free), the
    atlas builder's lookup of [ns:textures/rel] in the merged manifest
    answers with the copy under [icons/ns/textures/rel], provided that file
    exists. *)
Theorem static_image_lookup (ns rel : string) (content : list Z)
    (st : Catalog.state FS) :
  Str.index_of ":"%char ns = None →
  Js.truthy (Catalog.itemPaths st !! (ns +:+ ":textures/" +:+ rel)) = false →
  existsSync' (path_join [dirname;
                 Str.replace_char_str "/"%char path_sep
                   (Catalog.relUrl ns "textures" rel)]) = true →
  Atlas.findIconPath existsSync' path_join path_sep dirname
    (ns +:+ ":textures/" +:+ rel)
    (Resolver.manifest
       (Catalog.blockPaths
          (Catalog.staticFile existsSync writeFile path_join path_basename iconsDir
             ns rel content st))
       (Catalog.itemPaths
          (Catalog.staticFile existsSync writeFile path_join path_basename iconsDir
             ns rel content st)))
  = Some (path_join [dirname;
            Str.replace_char_str "/"%char path_sep (Catalog.relUrl ns "textures" rel)]).
Proof.
  intros Hns Hfresh Hex.
  set (url := Catalog.relUrl ns "textures" rel) in *.
  set (mcKey := ns +:+ ":textures/" +:+ rel) in *.
  set (st' := Catalog.staticFile _ _ _ _ _ ns rel content st).
  assert (Catalog.itemPaths st' !! mcKey = Some url) as Hitem.
  { unfold st', Catalog.staticFile. cbn [Catalog.itemPaths]. fold url mcKey.
    set (s1 := Catalog.put_if_absent (ns +:+ ":" +:+ path_basename rel ".png") url
                 (Catalog.itemPaths st)).
    set (s2 := Catalog.put_if_absent (ns +:+ ":" +:+ Catalog.flatName rel) url s1).
    assert (s1 !! mcKey = Catalog.itemPaths st !! mcKey ∨ s1 !! mcKey = Some url) as H1.
    { destruct (lookup_put_if_absent (ns +:+ ":" +:+ path_basename rel ".png") url mcKey
                  (Catalog.itemPaths st)) as [H | (_ & _ & H)]; [by left | by right]. }
    assert (Js.truthy (s2 !! mcKey) = false ∨ s2 !! mcKey = Some url) as H2.
    { destruct (lookup_put_if_absent (ns +:+ ":" +:+ Catalog.flatName rel) url mcKey s1)
        as [H | (_ & _ & H)]; [|by right].
      fold s2 in H. rewrite H. destruct H1 as [-> | ->]; [by left | by right]. }
    destruct H2 as [H2 | H2].
    - rewrite (put_if_absent_absent _ _ _ H2). by rewrite lookup_insert_eq.
    - rewrite put_if_absent_present; [done|]. rewrite H2. apply relUrl_truthy. }
  unfold Atlas.findIconPath.
  change mcKey with (ns +:+ String ":"%char ("textures/" +:+ rel)).
  rewrite (index_of_app _ _ _ Hns). cbn [Atlas.firstVariant].
  unfold Atlas.probe at 1.
  change (ns +:+ String ":"%char ("textures/" +:+ rel)) with mcKey.
  rewrite manifest_lookup, Hitem. unfold url in *.
  by rewrite relUrl_truthy, Hex.
Qed.

End StaticLookup.


(** * More of the atlas builder *)

Lemma omap_id_length {A : Type} (l : list (option A)) :
  (length (omap id l) ≤ length l)%nat.
Proof.
  induction l as [|[t|] l IH]; [done | |].
  - change (omap id (Some t :: l)) with (t :: omap id l). simpl. lia.
  - change (omap id (None :: l)) with (omap id l). simpl. lia.
Qed.

Section MorePack.

Variable load : string → option (list Z).

Abbreviation packStep := (Atlas.packStep load).
Abbreviation packLoop := (Atlas.packLoop load).
Abbreviation buildAtlas := (Atlas.buildAtlas load).

(** X23. The pending batch never reaches the ceiling: after any number of
    iterations it holds fewer than 2000 tiles, so no call of [composite]
    receives more than 2000. *)
Theorem batch_below_ceiling (icons : list (string * string)) (i : nat) (st : Atlas.pack) :
  (length (Atlas.composites st) < 2000)%nat →
  (length (Atlas.composites (packLoop i icons st)) < 2000)%nat.
Proof.
  revert i st. induction icons as [|[id file] icons IH]; intros i st Hlt; [done|].
  rewrite packLoop_cons. apply IH. unfold Atlas.packStep.
  destruct (load file); [|done].
  destruct (decide _) as [Hge|Hlt']; cbn [Atlas.composites]; [simpl; lia | lia].
Qed.

Lemma packLoop_laid_eq (icons : list (string * string)) (i : nat) (st : Atlas.pack) :
  Atlas.laid (packLoop i icons st)
  = Atlas.laid st
    ++ omap id
         (imap (λ j (icon : string * string),
                  (λ buf, Atlas.Tile buf (Z.of_nat (i + j) mod 64 * 16)
                                         (Z.of_nat (i + j) / 64 * 16))
                  <$> load icon.2) icons).
Proof.
  revert i st. induction icons as [|[key file] icons IH]; intros i st.
  - by rewrite app_nil_r.
  - rewrite packLoop_cons, IH. cbn [imap]. rewrite Nat.add_0_r.
    assert (imap ((λ j (icon : string * string),
                     (λ buf, Atlas.Tile buf (Z.of_nat (i + j) mod 64 * 16)
                                            (Z.of_nat (i + j) / 64 * 16))
                     <$> load icon.2) ∘ S) icons
            = imap (λ j (icon : string * string),
                      (λ buf, Atlas.Tile buf (Z.of_nat (S i + j) mod 64 * 16)
                                             (Z.of_nat (S i + j) / 64 * 16))
                      <$> load icon.2) icons) as ->.
    { apply imap_ext. intros j icon _. simpl.
      by replace (i + S j)%nat with (S (i + j)) by lia. }
    cbn [snd]. destruct (load file) as [buf|] eqn:Hload.
    + destruct (packStep_place load i key file buf st Hload) as [-> _].
      by rewrite <- app_assoc.
    + by rewrite (packStep_skip load i key file st Hload).
Qed.

(** X24. The canvas is the list of the tiles of the entries that load, in
    input order, each at the slot of its input index. In particular it
    never holds more tiles than there are entries. *)
Theorem canvas_in_input_order (icons : list (string * string)) :
  Atlas.canvas (buildAtlas icons)
  = omap id
      (imap (λ i (icon : string * string),
               (λ buf, Atlas.Tile buf (Z.of_nat i mod 64 * 16) (Z.of_nat i / 64 * 16))
               <$> load icon.2) icons)
  ∧ (length (Atlas.canvas (buildAtlas icons)) ≤ length icons)%nat.
Proof.
  assert (Atlas.canvas (buildAtlas icons)
          = omap id
              (imap (λ i (icon : string * string),
                       (λ buf, Atlas.Tile buf (Z.of_nat i mod 64 * 16)
                                              (Z.of_nat i / 64 * 16))
                       <$> load icon.2) icons)) as Heq.
  { rewrite buildAtlas_canvas, packLoop_laid_eq. done. }
  split; [done|]. rewrite Heq.
  etrans; [apply omap_id_length|]. by rewrite length_imap.
Qed.

(** X25. When an identifier is listed more than once, the coordinates
    recorded for it are those of its last entry whose image loads. *)
Theorem last_loadable_wins (icons : list (string * string)) (j : nat)
    (id file : string) (buf : list Z) :
  icons !! j = Some (id, file) → load file = Some buf →
  (∀ (j' : nat) file', (j < j')%nat → icons !! j' = Some (id, file') →
                       load file' = None) →
  Atlas.icons (buildAtlas icons) !! id
  = Some (Z.of_nat j mod 64 * 16, Z.of_nat j / 64 * 16).
Proof.
  intros Hj Hl Hlater. unfold Atlas.buildAtlas. cbn [Atlas.icons].
  generalize (Atlas.Pack [] [] ∅) as st.
  assert (∀ (i : nat) st,
            Atlas.manifest (packLoop i icons st) !! id
            = Some (Z.of_nat (i + j) mod 64 * 16, Z.of_nat (i + j) / 64 * 16)) as H;
    [|intros st; by rewrite (H 0%nat st)].
  revert j Hj Hlater. induction icons as [|[id0 file0] icons IH]; intros j Hj Hlater i st.
  - by rewrite lookup_nil in Hj.
  - rewrite packLoop_cons. destruct j as [|j]; simpl in Hj.
    + injection Hj as -> ->. rewrite packLoop_manifest_untouched.
      * destruct (packStep_place load i id file buf st Hl) as [_ ->].
        by rewrite lookup_insert_eq, Nat.add_0_r.
      * intros j' file' Hj'. apply (Hlater (S j') file'); [lia | done].
    + replace (i + S j)%nat with (S i + j)%nat by lia. apply IH; [done|].
      intros j' file' Hlt Hj'. apply (Hlater (S j') file'); [lia | done].
Qed.

End MorePack.

(** ** The identifiers used by the quests *)

Lemma set_add_elem (x y : string) (s : list string) :
  y ∈ Atlas.set_add x s ↔ y ∈ s ∨ y = x.
Proof.
  unfold Atlas.set_add. destruct (bool_decide (x ∈ s)) eqn:Hx.
  - apply bool_decide_eq_true in Hx. split; [by left|]. by intros [? | ->].
  - rewrite elem_of_app, list_elem_of_singleton. done.
Qed.

Lemma set_add_NoDup (x : string) (s : list string) :
  NoDup s → NoDup (Atlas.set_add x s).
Proof.
  intros Hnd. unfold Atlas.set_add. destruct (bool_decide (x ∈ s)) eqn:Hx; [done|].
  apply bool_decide_eq_false in Hx. apply NoDup_app. split; [done|].
  split; [|apply NoDup_singleton]. intros y Hy Hy'.
  apply list_elem_of_singleton in Hy' as ->. done.
Qed.

Lemma add_if_elem (v : option string) (y : string) (s : list string) :
  y ∈ Atlas.add_if v s ↔ y ∈ s ∨ (v = Some y ∧ y ≠ "").
Proof.
  unfold Atlas.add_if. destruct v as [x|]; [|by split; [left | intros [? | [? _]]]].
  destruct (Js.truthy (Some x)) eqn:Ht.
  - apply truthy_Some in Ht as (x' & [= <-] & Hne). rewrite set_add_elem. split.
    + intros [? | ->]; [by left | by right].
    + intros [? | [[= ->] _]]; [by left | by right].
  - split; [by left|]. intros [? | [[= ->] Hne]]; [done|].
    by rewrite (truthy_nonempty _ Hne) in Ht.
Qed.

Lemma add_if_NoDup (v : option string) (s : list string) :
  NoDup s → NoDup (Atlas.add_if v s).
Proof.
  intros Hnd. unfold Atlas.add_if. destruct v as [x|]; [|done].
  destruct (Js.truthy (Some x)); [by apply set_add_NoDup | done].
Qed.

Lemma foldl_elem {A : Type} (f : list string → A → list string)
    (R : A → string → Prop) :
  (∀ s a y, y ∈ f s a ↔ y ∈ s ∨ R a y) →
  ∀ l s y, y ∈ foldl f s l ↔ y ∈ s ∨ ∃ a, a ∈ l ∧ R a y.
Proof.
  intros Hf. induction l as [|a l IH]; intros s y; simpl.
  - split; [by left|]. intros [? | (a & Ha & _)]; [done | by apply elem_of_nil in Ha].
  - rewrite IH, Hf. split.
    + intros [[? | ?] | (b & Hb & ?)]; [by left | |].
      * right. exists a. split; [apply list_elem_of_here | done].
      * right. exists b. split; [by apply list_elem_of_further | done].
    + intros [? | (b & Hb & ?)]; [by left; left|].
      apply elem_of_cons in Hb as [-> | Hb]; [by left; right|].
      right. by exists b.
Qed.

Lemma foldl_NoDup {A : Type} (f : list string → A → list string) :
  (∀ s a, NoDup s → NoDup (f s a)) →
  ∀ l s, NoDup s → NoDup (foldl f s l).
Proof.
  intros Hf. induction l as [|a l IH]; intros s Hs; simpl; [done|]. by apply IH, Hf.
Qed.

Lemma getUsedIds_fst (chapters : list Atlas.chapter) (acc : list string * list string) :
  (foldl Atlas.usedInChapter acc chapters).1
  = foldl (λ s ch,
             foldl (λ s q,
                      foldl (λ s t, Atlas.add_if (Atlas.t_entity t)
                                      (Atlas.add_if (Atlas.t_item t) s))
                            s (default [] (Atlas.q_tasks q)))
                   s (Atlas.ch_quests ch))
          acc.1 chapters.
Proof.
  revert acc. induction chapters as [|ch chapters IH]; intros acc; simpl; [done|].
  by rewrite IH.
Qed.

Lemma getUsedIds_snd (chapters : list Atlas.chapter) (acc : list string * list string) :
  (foldl Atlas.usedInChapter acc chapters).2
  = foldl (λ s ch, foldl (λ s img, Atlas.add_if img s) s
                         (default [] (Atlas.ch_images ch)))
          acc.2 chapters.
Proof.
  revert acc. induction chapters as [|ch chapters IH]; intros acc; simpl; [done|].
  by rewrite IH.
Qed.

Lemma getUsedIds_NoDup (chapters : list Atlas.chapter) :
  NoDup (Atlas.getUsedIds chapters).1.
Proof.
  unfold Atlas.getUsedIds. rewrite getUsedIds_fst. cbn [fst].
  apply foldl_NoDup; [|apply NoDup_nil_2]. intros s ch Hs.
  apply foldl_NoDup; [|done]. intros s' q Hs'.
  apply foldl_NoDup; [|done]. intros s'' t Hs''. by do 2 apply add_if_NoDup.
Qed.

(** X26. [getUsedIds] returns two duplicate-free lists. An identifier is a
    task item exactly when it is the non-empty [item] or [entity] of some
    task of some quest of some chapter, and a chapter image exactly when it
    is the non-empty [image] of some chapter image. *)
Theorem getUsedIds_spec (chapters : list Atlas.chapter) :
  NoDup (Atlas.getUsedIds chapters).1
  ∧ NoDup (Atlas.getUsedIds chapters).2
  ∧ (∀ id, id ∈ (Atlas.getUsedIds chapters).1 ↔
       ∃ ch q t, ch ∈ chapters ∧ q ∈ Atlas.ch_quests ch
         ∧ t ∈ default [] (Atlas.q_tasks q)
         ∧ (Atlas.t_item t = Some id ∨ Atlas.t_entity t = Some id) ∧ id ≠ "")
  ∧ (∀ id, id ∈ (Atlas.getUsedIds chapters).2 ↔
       ∃ ch, ch ∈ chapters ∧ Some id ∈ default [] (Atlas.ch_images ch) ∧ id ≠ "").
Proof.
  unfold Atlas.getUsedIds. rewrite getUsedIds_fst, getUsedIds_snd. cbn [fst snd].
  split; [|split; [|split]].
  - pose proof (getUsedIds_NoDup chapters) as H.
    unfold Atlas.getUsedIds in H. by rewrite getUsedIds_fst in H.
  - apply foldl_NoDup; [|apply NoDup_nil_2]. intros s ch Hs.
    apply foldl_NoDup; [|done]. intros s' img Hs'. by apply add_if_NoDup.
  - intros id.
    rewrite (foldl_elem _
      (λ ch y, ∃ q t, q ∈ Atlas.ch_quests ch ∧ t ∈ default [] (Atlas.q_tasks q)
                 ∧ (Atlas.t_item t = Some y ∨ Atlas.t_entity t = Some y) ∧ y ≠ "")).
    + split.
      * intros [H | (ch & Hch & q & t & ?)]; [by apply elem_of_nil in H|].
        by exists ch, q, t.
      * intros (ch & q & t & Hch & ?). right. exists ch. split; [done|]. by exists q, t.
    + intros s ch y.
      rewrite (foldl_elem _
        (λ q y, ∃ t, t ∈ default [] (Atlas.q_tasks q)
                  ∧ (Atlas.t_item t = Some y ∨ Atlas.t_entity t = Some y) ∧ y ≠ "")).
      * split.
        -- intros [? | (q & Hq & t & ?)]; [by left|]. right. by exists q, t.
        -- intros [? | (q & t & Hq & ?)]; [by left|]. right. exists q.
           split; [done|]. by exists t.
      * intros s' q y'.
        rewrite (foldl_elem _
          (λ t y, (Atlas.t_item t = Some y ∨ Atlas.t_entity t = Some y) ∧ y ≠ "")).
        -- split.
           ++ intros [? | (t & Ht & ?)]; [by left|]. right. by exists t.
           ++ intros [? | (t & Ht & ?)]; [by left|]. right. by exists t.
        -- intros s'' t y''. rewrite !add_if_elem. tauto.
  - intros id.
    rewrite (foldl_elem _
      (λ ch y, Some y ∈ default [] (Atlas.ch_images ch) ∧ y ≠ "")).
    + split.
      * intros [H | (ch & Hch & ?)]; [by apply elem_of_nil in H|]. by exists ch.
      * intros (ch & Hch & ?). right. by exists ch.
    + intros s ch y.
      rewrite (foldl_elem _ (λ img y, img = Some y ∧ y ≠ "")).
      * split.
        -- intros [? | (img & Himg & -> & ?)]; [by left | by right].
        -- intros [? | [? ?]]; [by left|]. right. by exists (Some y).
      * intros s' img y'. apply add_if_elem.
Qed.

(** ** [main]: from the quests to the atlas *)

Section MoreMain.

Variable existsSync : string → bool.
Variable path_join : list string → string.
Variable path_sep : string.
Variable dirname : string.
Variable load : string → option (list Z).

Abbreviation findIconPath := (Atlas.findIconPath existsSync path_join path_sep dirname).
Abbreviation findAll := (Atlas.findAll existsSync path_join path_sep dirname).
Abbreviation findStep := (Atlas.findStep existsSync path_join path_sep dirname).
Abbreviation mainAtlas := (Atlas.mainAtlas existsSync path_join path_sep dirname load).

Lemma firstVariant_exists (manifest : gmap string string) (variants : list string)
    (p : string) :
  Atlas.firstVariant existsSync path_join path_sep dirname manifest variants = Some p →
  existsSync p = true
  ∧ ∃ v rel, v ∈ variants ∧ manifest !! v = Some rel ∧ rel ≠ ""
      ∧ p = path_join [dirname; Str.replace_char_str "/"%char path_sep rel].
Proof.
  induction variants as [|v variants IH]; simpl; [done|].
  destruct (Atlas.probe _ _ _ _ manifest v) as [q|] eqn:Hq.
  - intros [= ->]. apply probe_Some in Hq as (rel & Hm & Hne & -> & Hex).
    split; [done|]. exists v, rel. split; [apply list_elem_of_here | done].
  - intros H. destruct (IH H) as (Hex & w & rel & Hw & ?).
    split; [done|]. exists w, rel. split; [by apply list_elem_of_further | done].
Qed.

Lemma findIconPath_exists (id p : string) (manifest : gmap string string) :
  findIconPath id manifest = Some p → existsSync p = true.
Proof.
  unfold Atlas.findIconPath.
  destruct (Str.index_of ":"%char id); [|done].
  intros H. by apply firstVariant_exists in H as [? _].
Qed.

(** X27. The lookup never answers with a path that is not on disk: a result
    is the absolute form of a non-empty manifest entry and that file
    exists; an identifier without a colon has no result. *)
Theorem findIconPath_sound (id p : string) (manifest : gmap string string) :
  findIconPath id manifest = Some p →
  existsSync p = true
  ∧ is_Some (Str.index_of ":"%char id)
  ∧ ∃ v rel, manifest !! v = Some rel ∧ rel ≠ ""
      ∧ p = path_join [dirname; Str.replace_char_str "/"%char path_sep rel].
Proof.
  unfold Atlas.findIconPath.
  destruct (Str.index_of ":"%char id) as [colon|]; [|done].
  intros H. apply firstVariant_exists in H as (Hex & v & rel & _ & Hm & Hne & Hp).
  split; [done|]. split; [by eexists|]. by exists v, rel.
Qed.

Lemma findStep_cases (manifest : gmap string string)
    (acc : list (string * string) * nat) (id : string) :
  (∃ file, findIconPath id manifest = Some file ∧ Js.truthy (Some file) = true
     ∧ findStep manifest acc id = (acc.1 ++ [(id, file)], acc.2))
  ∨ (Js.truthy (findIconPath id manifest) = false
     ∧ findStep manifest acc id = (acc.1, S acc.2)).
Proof.
  unfold Atlas.findStep. destruct (findIconPath id manifest) as [file|]; [|by right].
  destruct (Js.truthy (Some file)) eqn:Ht; [left; by exists file | by right].
Qed.

Lemma findAll_spec (manifest : gmap string string) (ids : list string)
    (acc : list (string * string) * nat) :
  (foldl (findStep manifest) acc ids).1.*1
  = acc.1.*1
    ++ filter (λ id, Js.truthy (findIconPath id manifest) = true) ids
  ∧ (length (foldl (findStep manifest) acc ids).1
     + (foldl (findStep manifest) acc ids).2
     = length acc.1 + acc.2 + length ids)%nat
  ∧ (∀ id file, (id, file) ∈ (foldl (findStep manifest) acc ids).1 →
       (id, file) ∈ acc.1 ∨ (id ∈ ids ∧ findIconPath id manifest = Some file)).
Proof.
  revert acc. induction ids as [|id ids IH]; intros acc.
  - simpl. rewrite app_nil_r. split; [done|]. split; [lia | by left].
  - cbn [foldl]. destruct (IH (findStep manifest acc id)) as (H1 & H2 & H3).
    rewrite H1, H2. rewrite filter_cons.
    destruct (findStep_cases manifest acc id)
      as [(file & Hf & Ht & Hstep) | (Ht & Hstep)]; rewrite Hstep in H3 |- *;
      cbn [fst snd] in *.
    + rewrite decide_True by (by rewrite Hf). rewrite fmap_app, <- app_assoc, length_app.
      simpl. split; [done|]. split; [lia|]. intros id' file' Hin.
      destruct (H3 id' file' Hin) as [Hacc | [Hids Hfound]].
      * apply elem_of_app in Hacc as [? | Hone]; [by left|].
        apply list_elem_of_singleton in Hone as [= -> ->]. right.
        split; [apply list_elem_of_here | done].
      * right. split; [by apply list_elem_of_further | done].
    + rewrite decide_False by (by rewrite Ht). simpl. split; [done|].
      split; [lia|]. intros id' file' Hin.
      destruct (H3 id' file' Hin) as [? | [Hids Hfound]]; [by left|].
      right. split; [by apply list_elem_of_further | done].
Qed.

(** X28. The loop of [main] over the task items: the identifiers handed to
    the packer are those with a lookup result, in the order of the set;
    the found and the missing ones add up to the size of the set; every
    file handed over exists. *)
Theorem findAll_found (manifest : gmap string string) (ids : list string) :
  (findAll manifest ids).1.*1
  = filter (λ id, Js.truthy (findIconPath id manifest) = true) ids
  ∧ (length (findAll manifest ids).1 + (findAll manifest ids).2 = length ids)%nat
  ∧ ∀ id file, (id, file) ∈ (findAll manifest ids).1 →
      id ∈ ids ∧ findIconPath id manifest = Some file ∧ existsSync file = true.
Proof.
  unfold Atlas.findAll.
  destruct (findAll_spec manifest ids ([], 0%nat)) as (H1 & H2 & H3).
  split; [done|]. split; [simpl in H2; lia|]. intros id file Hin.
  destruct (H3 id file Hin) as [H | [Hids Hf]]; [by apply elem_of_nil in H|].
  split; [done|]. split; [done|]. by apply findIconPath_exists in Hf.
Qed.

(** X29. The atlas that [main] builds: every identifier of its [icons]
    mapping is used by a quest, has a lookup result that exists on disk and
    an image that loads; and no two identifiers share a slot. *)
Theorem mainAtlas_icons (chapters : list Atlas.chapter) (manifest : gmap string string) :
  (∀ id x y, Atlas.icons (mainAtlas chapters manifest) !! id = Some (x, y) →
     id ∈ (Atlas.getUsedIds chapters).1
     ∧ ∃ file, findIconPath id manifest = Some file ∧ existsSync file = true
         ∧ is_Some (load file))
  ∧ (∀ id1 id2 c, Atlas.icons (mainAtlas chapters manifest) !! id1 = Some c →
       Atlas.icons (mainAtlas chapters manifest) !! id2 = Some c → id1 = id2).
Proof.
  unfold Atlas.mainAtlas.
  set (ids := (Atlas.getUsedIds chapters).1).
  set (found := (findAll manifest ids).1).
  destruct (findAll_spec manifest ids ([], 0%nat)) as (Hids & _ & Hfound').
  fold (findAll manifest ids) in Hids, Hfound'. fold found in Hids, Hfound'.
  assert (∀ id file, (id, file) ∈ found →
            id ∈ ids ∧ findIconPath id manifest = Some file ∧ existsSync file = true)
    as Hfound.
  { intros id file Hin. destruct (Hfound' id file Hin) as [H | [? Hf]];
      [by apply elem_of_nil in H|].
    split; [done|]. split; [done|]. by apply findIconPath_exists in Hf. }
  assert (∀ id x y, Atlas.icons (Atlas.buildAtlas load found) !! id = Some (x, y) →
            ∃ (j : nat) file buf, found !! j = Some (id, file) ∧ load file = Some buf
              ∧ x = Z.of_nat j mod 64 * 16 ∧ y = Z.of_nat j / 64 * 16) as Hicons.
  { intros id x y H. unfold Atlas.buildAtlas in H. cbn [Atlas.icons] in H.
    apply packLoop_manifest in H as [H | (j & file & buf & Hj & Hl & -> & ->)].
    - simpl in H. by rewrite lookup_empty in H.
    - rewrite Nat.add_0_l. by exists j, file, buf. }
  assert (NoDup found.*1) as Hnd.
  { rewrite Hids. apply NoDup_filter, getUsedIds_NoDup. }
  split.
  - intros id x y H. destruct (Hicons id x y H) as (j & file & buf & Hj & Hl & _).
    apply list_elem_of_lookup_2 in Hj. destruct (Hfound id file Hj) as (? & ? & ?).
    split; [done|]. exists file. by rewrite Hl.
  - intros id1 id2 [x y] H1 H2.
    destruct (Hicons id1 x y H1) as (j1 & f1 & b1 & Hj1 & _ & Hx1 & Hy1).
    destruct (Hicons id2 x y H2) as (j2 & f2 & b2 & Hj2 & _ & Hx2 & Hy2).
    assert (j1 = j2) as -> by (apply slot_injective; congruence).
    congruence.
Qed.

(** X30. The loop of [main] over the chapter images touches the entry of
    its own identifier only; it records nothing when the lookup finds no
    file; and when the manifest has a non-empty entry for the identifier
    itself, that entry is what is recorded. *)
Theorem imageStep_spec (manifest imageManifest : gmap string string) (id : string) :
  (∀ k, k ≠ id →
     Atlas.imageStep existsSync path_join path_sep dirname manifest imageManifest id !! k
     = imageManifest !! k)
  ∧ (findIconPath id manifest = None →
     Atlas.imageStep existsSync path_join path_sep dirname manifest imageManifest id
     = imageManifest)
  ∧ (∀ rel file, manifest !! id = Some rel → rel ≠ "" →
       findIconPath id manifest = Some file → file ≠ "" →
       Atlas.imageStep existsSync path_join path_sep dirname manifest imageManifest id
         !! id = Some rel).
Proof.
  unfold Atlas.imageStep. split; [|split].
  - intros k Hne. destruct (findIconPath id manifest) as [file|]; [|done].
    destruct (Js.truthy (Some file)); [|done].
    destruct (Js.or_else _ _) as [relUrl|]; [|done].
    destruct (Js.truthy (Some relUrl)); [|done]. by rewrite lookup_insert_ne.
  - by intros ->.
  - intros rel file Hm Hrel Hf Hfile. rewrite Hf, (truthy_nonempty _ Hfile), Hm.
    rewrite or_else_l by by apply truthy_nonempty.
    by rewrite (truthy_nonempty _ Hrel), lookup_insert_eq.
Qed.

End MoreMain.


(** * The added properties on concrete inputs *)

Lemma readUInt16LE_value_witness :
  Zip.readUInt16LE [0x34; 0x12] (Z.of_nat 0)
  = nth 0 [0x34; 0x12] 0 + 256 * nth 1 [0x34; 0x12] 0
  ∧ 0 ≤ Zip.readUInt16LE [0x34; 0x12] (Z.of_nat 0) < 65536.
Proof.
  apply (readUInt16LE_value [0x34; 0x12] 0).
  repeat constructor; unfold Zip.is_byte; lia.
Defined.

Lemma readUInt32LE_value_witness :
  Zip.readUInt32LE [0x78; 0x56; 0x34; 0xff] (Z.of_nat 0)
  = nth 0 [0x78; 0x56; 0x34; 0xff] 0 + 256 * nth 1 [0x78; 0x56; 0x34; 0xff] 0
    + 65536 * nth 2 [0x78; 0x56; 0x34; 0xff] 0
    + 16777216 * nth 3 [0x78; 0x56; 0x34; 0xff] 0
  ∧ 0 ≤ Zip.readUInt32LE [0x78; 0x56; 0x34; 0xff] (Z.of_nat 0) < 2 ^ 32.
Proof.
  apply (readUInt32LE_value [0x78; 0x56; 0x34; 0xff] 0).
  repeat constructor; unfold Zip.is_byte; lia.
Defined.

Lemma parseZip_lists_directory_witness :
  Zip.parseZip Fixture.ascii_string
    (Fixture.directory [1; 2; 3]
       [Fixture.CdItem [97; 46; 112; 110; 103] [] [7] 8 3 0;
        Fixture.CdItem [98] [1; 1] [] 0 0 3])
  = [Zip.Entry "a.png" 8 3 0; Zip.Entry "b" 0 0 3].
Proof.
  apply (parseZip_lists_directory Fixture.ascii_string [1; 2; 3]
           [Fixture.CdItem [97; 46; 112; 110; 103] [] [7] 8 3 0;
            Fixture.CdItem [98] [1; 1] [] 0 0 3]).
  - repeat constructor; simpl; lia.
  - simpl. lia.
Defined.

Lemma parseZip_without_signature_witness :
  Zip.parseZip Fixture.ascii_string [0x50; 0x4b; 0x05; 0x06] = [].
Proof.
  apply (parseZip_without_signature Fixture.ascii_string [0x50; 0x4b; 0x05; 0x06]).
  intros i Hi. simpl in Hi. lia.
Defined.

Lemma archive_list_then_extract_witness :
  length (Zip.parseZip Fixture.ascii_string
            (Fixture.archive [Fixture.File [97] [] 0 [1; 2; 3];
                              Fixture.File [98] [9] 8 (Sample.deflate_stored [5])]))
  = 2%nat
  ∧ ∃ e,
      Zip.parseZip Fixture.ascii_string
        (Fixture.archive [Fixture.File [97] [] 0 [1; 2; 3];
                          Fixture.File [98] [9] 8 (Sample.deflate_stored [5])])
        !! 1%nat = Some e
      ∧ Zip.name e = "b"
      ∧ Zip.compression e = 8%nat
      ∧ Zip.extractEntry Sample.inflate_stored
          (Fixture.archive [Fixture.File [97] [] 0 [1; 2; 3];
                            Fixture.File [98] [9] 8 (Sample.deflate_stored [5])]) e
        = Some [5].
Proof.
  apply (archive_list_then_extract Fixture.ascii_string Sample.inflate_stored
           [Fixture.File [97] [] 0 [1; 2; 3];
            Fixture.File [98] [9] 8 (Sample.deflate_stored [5])]
           1 (Fixture.File [98] [9] 8 (Sample.deflate_stored [5]))).
  - repeat constructor; simpl; lia.
  - simpl. lia.
  - reflexivity.
Defined.

Lemma extractEntry_stored_truncates_witness :
  ∃ data,
    Zip.extractEntry Sample.inflate_stored
      (Sample.local_header 0 1 0 ++ [97; 1; 2]) (Zip.Entry "a" 0 5 0) = Some data
    ∧ length data = 2%nat.
Proof.
  destruct (extractEntry_stored_truncates Sample.inflate_stored
              (Sample.local_header 0 1 0 ++ [97; 1; 2]) (Zip.Entry "a" 0 5 0))
    as (data & Hdata & Hlen & _).
  - reflexivity.
  - simpl. lia.
  - exists data. split; [exact Hdata|]. rewrite Hlen. reflexivity.
Defined.

Lemma entity_never_shadows_witness :
  Catalog.itemPaths
    (Catalog.scanEntity Sample.existsSync Sample.writeFile Sample.path_join
       Sample.path_basename "/out/icons" "mod" "bee.png" (Some [1])
       (Catalog.State ∅ {[ "mod:bee" := "icons/mod/item/bee.png" ]} ∅ []))
  = {[ "mod:bee" := "icons/mod/item/bee.png" ]}
  ∧ Catalog.blockPaths
      (Catalog.scanEntity Sample.existsSync Sample.writeFile Sample.path_join
         Sample.path_basename "/out/icons" "mod" "bee.png" (Some [1])
         (Catalog.State ∅ {[ "mod:bee" := "icons/mod/item/bee.png" ]} ∅ []))
      !! "mod:bee" = (∅ : gmap string string) !! "mod:bee".
Proof.
  refine (entity_never_shadows Sample.existsSync Sample.writeFile Sample.path_join
            Sample.path_basename "/out/icons" "mod" "bee.png" (Some [1])
            (Catalog.State ∅ {[ "mod:bee" := "icons/mod/item/bee.png" ]} ∅ [])
            "mod:bee" _).
  left. by vm_compute.
Defined.

Lemma failed_extraction_witness :
  Catalog.scanTexture Sample.existsSync Sample.writeFile Sample.path_join
    Sample.path_basename "/out/icons" "mod" "item" "bee.png" None
    (Catalog.State ∅ ∅ ∅ [])
  = Catalog.State ∅ ∅ ∅ []
  ∧ Catalog.files
      (Catalog.scanEntity Sample.existsSync Sample.writeFile Sample.path_join
         Sample.path_basename "/out/icons" "mod" "bee.png" None
         (Catalog.State ∅ ∅ ∅ [])) = ∅
  ∧ Catalog.blockPaths
      (Catalog.scanEntity Sample.existsSync Sample.writeFile Sample.path_join
         Sample.path_basename "/out/icons" "mod" "bee.png" None
         (Catalog.State ∅ ∅ ∅ []))
      !! ("mod" +:+ ":" +:+ Sample.path_basename "bee.png" ".png")
    = Some (Catalog.relUrl "mod" "entity" "bee.png").
Proof.
  refine (failed_extraction Sample.existsSync Sample.writeFile Sample.path_join
            Sample.path_basename "/out/icons" "mod" "item" "bee.png"
            (Catalog.State ∅ ∅ ∅ []) _ _ _ _); by vm_compute.
Defined.

Lemma block_model_first_wins_witness :
  Model.lookup
    (Catalog.blockModels
       (Catalog.scanVanillaJar Sample.existsSync Sample.writeFile Sample.path_join
          Sample.path_basename "/out/icons"
          [Catalog.BlockModel "minecraft" "x.json"
             (Some [("all", Model.JStr "minecraft:block/z")])]
          (Catalog.scanJars Sample.existsSync Sample.writeFile Sample.path_join
             Sample.path_basename "/out/icons"
             [[Catalog.BlockModel "mod" "x.json"
                 (Some [("all", Model.JStr "mod:block/y")])]]
             (Catalog.State ∅ ∅ ∅ [("mod:x", Model.Faces "mod:a" "mod:a" "mod:a")]))))
    "mod:x"
  = Some (Model.Faces "mod:a" "mod:a" "mod:a").
Proof.
  refine (block_model_first_wins Sample.existsSync Sample.writeFile Sample.path_join
            Sample.path_basename "/out/icons"
            (Catalog.State ∅ ∅ ∅ [("mod:x", Model.Faces "mod:a" "mod:a" "mod:a")])
            _ _ "mod:x" _ _).
  reflexivity.
Defined.

Lemma under_icons_empty : Catalog.under_icons ∅.
Proof. intros k v H. by rewrite lookup_empty in H. Qed.

Lemma scanned_paths_under_icons_witness :
  Catalog.under_icons
    (Catalog.itemPaths
       (Catalog.walkDir Sample.existsSync Sample.writeFile Sample.path_join
          Sample.path_basename "/out/icons" "atm" ""
          [Catalog.DDir "questpics" [Catalog.DFile "ae2.png" [1]]]
          (Catalog.scanVanillaJar Sample.existsSync Sample.writeFile Sample.path_join
             Sample.path_basename "/out/icons" []
             (Catalog.scanJars Sample.existsSync Sample.writeFile Sample.path_join
                Sample.path_basename "/out/icons"
                [[Catalog.Texture "mod" "item" "gem.png" (Some [1])]]
                (Catalog.State ∅ ∅ ∅ [])))))
  ∧ Catalog.under_icons
      (Catalog.blockPaths
         (Catalog.walkDir Sample.existsSync Sample.writeFile Sample.path_join
            Sample.path_basename "/out/icons" "atm" ""
            [Catalog.DDir "questpics" [Catalog.DFile "ae2.png" [1]]]
            (Catalog.scanVanillaJar Sample.existsSync Sample.writeFile Sample.path_join
               Sample.path_basename "/out/icons" []
               (Catalog.scanJars Sample.existsSync Sample.writeFile Sample.path_join
                  Sample.path_basename "/out/icons"
                  [[Catalog.Texture "mod" "item" "gem.png" (Some [1])]]
                  (Catalog.State ∅ ∅ ∅ []))))).
Proof.
  refine (scanned_paths_under_icons Sample.existsSync Sample.writeFile Sample.path_join
            Sample.path_basename "/out/icons"
            [[Catalog.Texture "mod" "item" "gem.png" (Some [1])]] [] "atm"
            [Catalog.DDir "questpics" [Catalog.DFile "ae2.png" [1]]]
            (Catalog.State ∅ ∅ ∅ []) _ _); apply under_icons_empty.
Defined.

Lemma resolveModels_keeps_direct_witness :
  Catalog.blockPaths
    (Resolver.resolveModels Sample.existsSync Sample.path_join Sample.path_basename1
       "/out/icons"
       (Catalog.State {[ "/out/icons/mod/block/a_top.png" ]} ∅
          {[ "mod:a" := "icons/mod/block/a.png" ]}
          [("mod:a", Model.Faces "mod:block/a_top" "mod:block/a_top" "mod:block/a_top")]))
    !! "mod:a"
  = Some "icons/mod/block/a.png".
Proof.
  refine (proj1 (resolveModels_keeps_direct Sample.existsSync Sample.path_join
            Sample.path_basename1 "/out/icons"
            (Catalog.State {[ "/out/icons/mod/block/a_top.png" ]} ∅
               {[ "mod:a" := "icons/mod/block/a.png" ]}
               [("mod:a", Model.Faces "mod:block/a_top" "mod:block/a_top"
                                      "mod:block/a_top")])
            "mod:a" _ _)); by vm_compute.
Defined.

Lemma advancements_first_wins_witness :
  Resolver.advancements
    ([] ++ ("minecraft", "story/root.json", Some (Some "minecraft:grass_block"))
        :: [("minecraft", "story/root.json", Some (Some "minecraft:stone"))])
    !! ("minecraft" +:+ ":" +:+ Str.drop_last 5 "story/root.json")
  = Some "minecraft:grass_block".
Proof.
  refine (proj1 (advancements_first_wins []
            [("minecraft", "story/root.json", Some (Some "minecraft:stone"))]
            "minecraft" "story/root.json" "minecraft:grass_block" _ _));
    by vm_compute.
Defined.

Lemma parseFaces_faces_plain_witness :
  Forall (λ r, r ≠ "" ∧ Str.starts_with "#" r = false
               ∧ ∃ k, (k, Model.JStr r)
                      ∈ [("particle", Model.JStr "#all");
                         ("all", Model.JStr "mod:block/y")])
         [Model.top (Model.Faces "mod:block/y" "mod:block/y" "mod:block/y");
          Model.side (Model.Faces "mod:block/y" "mod:block/y" "mod:block/y");
          Model.front (Model.Faces "mod:block/y" "mod:block/y" "mod:block/y")].
Proof.
  refine (parseFaces_faces_plain
            ["top"; "top_face"; "up"; "cap"; "end"; "all"]
            ["side"; "side_face"; "texture"; "all"; "wall"]
            ["front"; "face"; "front_face"; "south"; "north"; "side"]
            [("particle", Model.JStr "#all"); ("all", Model.JStr "mod:block/y")]
            (Model.Faces "mod:block/y" "mod:block/y" "mod:block/y") _).
  reflexivity.
Defined.

Lemma parseFaces_nothing_usable_witness :
  Model.parseFaces ["top"; "all"] ["side"; "all"] ["front"; "side"]
    [("particle", Model.JStr "#all")] = None.
Proof.
  apply (parseFaces_nothing_usable ["top"; "all"] ["side"; "all"] ["front"; "side"]
           [("particle", Model.JStr "#all")]).
  intros k v Hin. apply list_elem_of_singleton in Hin. injection Hin as -> ->.
  right. right. by exists "#all".
Defined.

Lemma replace_icons_prefix_spec_witness :
  ∃ pre r,
    "/srv/icons/app/icons/mod/block/a.png" = pre +:+ "/icons/" +:+ r
    ∧ Str.replace_icons_prefix "/srv/icons/app/icons/mod/block/a.png" = "icons/" +:+ r
    ∧ Str.includes "/icons/" ("icons/" +:+ r) = false.
Proof.
  apply (proj2 (replace_icons_prefix_spec "/srv/icons/app/icons/mod/block/a.png"
                  eq_refl)).
  reflexivity.
Defined.

Lemma static_image_lookup_witness :
  Atlas.findIconPath (Sample.existsSync {[ "/app/icons/atm/textures/questpics/ae2.png" ]})
    Sample.path_join "/" "/app"
    ("atm" +:+ ":textures/" +:+ "questpics/ae2.png")
    (Resolver.manifest
       (Catalog.blockPaths
          (Catalog.staticFile Sample.existsSync Sample.writeFile Sample.path_join
             Sample.path_basename "/app/icons" "atm" "questpics/ae2.png" [1]
             (Catalog.State ∅ ∅ ∅ [])))
       (Catalog.itemPaths
          (Catalog.staticFile Sample.existsSync Sample.writeFile Sample.path_join
             Sample.path_basename "/app/icons" "atm" "questpics/ae2.png" [1]
             (Catalog.State ∅ ∅ ∅ []))))
  = Some (Sample.path_join ["/app";
            Str.replace_char_str "/"%char "/"
              (Catalog.relUrl "atm" "textures" "questpics/ae2.png")]).
Proof.
  refine (static_image_lookup Sample.existsSync Sample.writeFile Sample.path_join
            Sample.path_basename "/app/icons"
            (Sample.existsSync {[ "/app/icons/atm/textures/questpics/ae2.png" ]})
            "/" "/app" "atm" "questpics/ae2.png" [1] (Catalog.State ∅ ∅ ∅ []) _ _ _);
    by vm_compute.
Defined.

Lemma batch_below_ceiling_witness :
  (length (Atlas.composites
             (Atlas.packLoop Sample.load 0 Sample.three_icons (Atlas.Pack [] [] ∅)))
   < 2000)%nat.
Proof.
  apply (batch_below_ceiling Sample.load Sample.three_icons 0 (Atlas.Pack [] [] ∅)).
  simpl. lia.
Defined.

Lemma last_loadable_wins_witness :
  Atlas.icons (Atlas.buildAtlas Sample.load
                 [("a:x", "x.png"); ("a:y", "y.png"); ("a:x", "broken.png")])
    !! "a:x"
  = Some (Z.of_nat 0 mod 64 * 16, Z.of_nat 0 / 64 * 16).
Proof.
  apply (last_loadable_wins Sample.load
           [("a:x", "x.png"); ("a:y", "y.png"); ("a:x", "broken.png")]
           0 "a:x" "x.png" (replicate 1024 255)); [reflexivity | reflexivity |].
  intros j' file' Hlt Hj'.
  destruct j' as [|[|[|j']]]; simpl in Hj'; [lia | | | ]; by simplify_eq.
Defined.

Lemma findIconPath_sound_witness :
  Sample.existsSync {[ "/app/icons/atm/item/ae2.png" ]} "/app/icons/atm/item/ae2.png"
  = true.
Proof.
  refine (proj1 (findIconPath_sound
            (Sample.existsSync {[ "/app/icons/atm/item/ae2.png" ]})
            Sample.path_join "/" "/app" "atm:ae2" "/app/icons/atm/item/ae2.png"
            {[ "atm:ae2" := "icons/atm/item/ae2.png" ]} _)).
  by vm_compute.
Defined.
